(** * forvo-to-mdx: the database builder (4-create-database.py)

    A shallow embedding of [ForvoProcessor]: the icon resolver, the audio
    locator, the snippet renderer, the metadata aggregator, the store writer
    and the run controller, followed by the properties of the specification.

    Modelling conventions.
    - A Python [str] is a Rocq [string] holding its UTF-8 bytes.
    - A parsed log line and a country mapping carry the fields and the field
      types of the documented input formats; an integer of the log is a
      Python [int], of any size.
    - [str.lower] is a parameter of the two functions that fold case
      ([Generic]); the pipeline runs them at [Py.lower], which is
      [str.lower] on ASCII text.
    - The file system is an oracle answering the existence checks the
      program makes; [Path] joins stay inside the oracle.
    - A SQLite connection is a committed image plus the working image of the
      open transaction.  A statement raises where [sqlite3] cannot bind a
      parameter, an integer outside SQLite's 64-bit INTEGER; the engine
      itself does not fail.  The [created_at] column, filled by the clock,
      is left out of the rows.
    - A signal is handled between two statements of the program. *)

From Stdlib Require Import String Ascii List ZArith Bool Lia DecimalString.
From Stdlib Require Import Permutation Sorted.
Import ListNotations.
Open Scope string_scope.

Set Implicit Arguments.

(* ------------------------------------------------------------------ *)
(** ** Python built-ins *)

Module Py.

(** Truth value of a [str]: non-empty. *)
Definition truthy (s : string) : bool :=
  match s with EmptyString => false | String _ _ => true end.

Definition lower_ascii (c : ascii) : ascii :=
  let n := nat_of_ascii c in
  if (65 <=? n)%nat && (n <=? 90)%nat then ascii_of_nat (n + 32) else c.

(** [str.lower] on ASCII text.  On other text it lowers the ASCII letters
    and keeps the rest, where [str.lower] lowers every cased character:
    the functions that fold case are therefore written over [str.lower]
    as a parameter, see [Generic]. *)
Fixpoint lower (s : string) : string :=
  match s with
  | EmptyString => EmptyString
  | String c r => String (lower_ascii c) (lower r)
  end.

(** [x in [..]] on strings. *)
Definition str_in (x : string) (l : list string) : bool :=
  existsb (String.eqb x) l.

(** [str(n)] / [f"{n}"] for an integer. *)
Definition str_int (z : Z) : string := NilZero.string_of_int (Z.to_int z).

(** [''.join(parts)]. *)
Definition join (parts : list string) : string := String.concat "" parts.

Section Sorted.
Variable A : Type.
Variable key : A -> Z.

(** Insertion in front of the first element with a key that is not
    smaller: the forward sort is stable. *)
Fixpoint insert (x : A) (l : list A) : list A :=
  match l with
  | [] => [x]
  | y :: r => if (key x <=? key y)%Z then x :: y :: r else y :: insert x r
  end.

Definition sort_forward (l : list A) : list A := fold_right insert [] l.

(** [sorted(l, key=key, reverse=reverse)].  As in CPython's list sort, a
    reverse sort reverses the list, runs the stable forward sort and
    reverses the result. *)
Definition sorted (reverse : bool) (l : list A) : list A :=
  if reverse then rev (sort_forward (rev l)) else sort_forward l.
End Sorted.

(** *** urllib.parse.unquote *)

Definition byte_in (lo hi : nat) (c : ascii) : bool :=
  let n := nat_of_ascii c in (lo <=? n)%nat && (n <=? hi)%nat.

Definition is_hexdig (c : ascii) : bool :=
  byte_in 48 57 c || byte_in 65 70 c || byte_in 97 102 c.

Definition hexval (c : ascii) : nat :=
  let n := nat_of_ascii c in
  if byte_in 48 57 c then n - 48
  else if byte_in 65 70 c then n - 55
  else n - 87.

(** [unquote_to_bytes]: the text is split at every [%]; a piece that
    starts with two hexadecimal digits contributes the byte they denote
    and the rest of the piece, any other piece is kept with its [%]. *)
Fixpoint unquote_to_bytes (s : string) : string :=
  match s with
  | EmptyString => EmptyString
  | String c r =>
      if Ascii.eqb c "%" then
        match r with
        | String a (String b r') =>
            if is_hexdig a && is_hexdig b
            then String (ascii_of_nat (16 * hexval a + hexval b)) (unquote_to_bytes r')
            else String c (unquote_to_bytes r)
        | _ => String c (unquote_to_bytes r)
        end
      else String c (unquote_to_bytes r)
  end.

(** U+FFFD in UTF-8. *)
Definition replacement : string :=
  String (ascii_of_nat 239) (String (ascii_of_nat 191) (String (ascii_of_nat 189) EmptyString)).

Definition is_continuation : ascii -> bool := byte_in 128 191.

(** The second byte a lead byte admits (no overlong form, no surrogate,
    nothing above U+10FFFF). *)
Definition second_ok (lead c2 : ascii) : bool :=
  let l := nat_of_ascii lead in
  if (l =? 224)%nat then byte_in 160 191 c2
  else if (l =? 237)%nat then byte_in 128 159 c2
  else if (l =? 240)%nat then byte_in 144 191 c2
  else if (l =? 244)%nat then byte_in 128 143 c2
  else is_continuation c2.

(** [bytes.decode('utf-8', 'replace')], the result again in UTF-8: a
    well-formed sequence is kept, each ill-formed prefix becomes one
    U+FFFD and decoding resumes at the byte that broke it. *)
Fixpoint decode_replace (s : string) : string :=
  match s with
  | EmptyString => EmptyString
  | String c r =>
      if byte_in 0 127 c then String c (decode_replace r)
      else if byte_in 128 193 c || byte_in 245 255 c then replacement ++ decode_replace r
      else
        match r with
        | EmptyString => replacement
        | String c2 r2 =>
            if negb (second_ok c c2) then replacement ++ decode_replace r
            else if byte_in 194 223 c then String c (String c2 (decode_replace r2))
            else
              match r2 with
              | EmptyString => replacement
              | String c3 r3 =>
                  if negb (is_continuation c3) then replacement ++ decode_replace r2
                  else if byte_in 224 239 c
                  then String c (String c2 (String c3 (decode_replace r3)))
                  else
                    match r3 with
                    | EmptyString => replacement
                    | String c4 r4 =>
                        if negb (is_continuation c4) then replacement ++ decode_replace r3
                        else String c (String c2 (String c3 (String c4 (decode_replace r4))))
                    end
              end
        end
  end.

(** One maximal run of ASCII characters of the quoted text. *)
Definition unquote_run (run : string) : string :=
  decode_replace (unquote_to_bytes run).

(** The quoted text is cut into maximal ASCII runs, each unquoted on its
    own; the characters between the runs are copied. *)
Fixpoint unquote_parts (run : string) (s : string) : string :=
  match s with
  | EmptyString => unquote_run run
  | String c r =>
      if byte_in 0 127 c then unquote_parts (run ++ String c EmptyString) r
      else unquote_run run ++ String c (unquote_parts EmptyString r)
  end.

Fixpoint contains (c : ascii) (s : string) : bool :=
  match s with
  | EmptyString => false
  | String c' r => Ascii.eqb c c' || contains c r
  end.

(** [unquote(s)] with its defaults [encoding='utf-8', errors='replace']. *)
Definition unquote (s : string) : string :=
  if contains "%" s then unquote_parts EmptyString s else s.

(** *** Dictionaries in insertion order *)
Section Dict.
Variables K V : Type.
Variable keqb : K -> K -> bool.

Definition dict := list (K * V).

Fixpoint get (k : K) (d : dict) : option V :=
  match d with
  | [] => None
  | (k', v) :: r => if keqb k k' then Some v else get k r
  end.

(** [d[k] = v]: an existing key keeps its position. *)
Fixpoint set (k : K) (v : V) (d : dict) : dict :=
  match d with
  | [] => [(k, v)]
  | (k', v') :: r => if keqb k k' then (k', v) :: r else (k', v') :: set k v r
  end.

Definition keys (d : dict) : list K := map fst d.
End Dict.

End Py.

(* ------------------------------------------------------------------ *)
(** ** Data model *)

(** One element of a word group: the dict appended to [word_audio_map]. *)
Record Audio := mkAudio {
  username : string;
  gender : string;
  country : string;
  votes : Z;
  file_path : string;
  download_url : string;
  audio_id : Z
}.

(** One object of [metadata.jsonl]; [None] is an absent field. *)
Record Entry := mkEntry {
  e_language : option string;
  e_headword : option string;
  e_query_word : option string;
  e_origin : option (list string);
  e_votes : option Z;
  e_download_url : option string;
  e_id : option Z
}.

(** A line of the log: text [json.loads] rejects, or an entry. *)
Inductive Line :=
| Malformed
| Parsed (e : Entry).

(** One object of [country_mappings.json], with the fields this program
    reads; [iso_code] may be [null]. *)
Record Mapping := mkMapping {
  original_name : string;
  iso_code : option string
}.

(** What [open] + [json.load] find at [country_mappings_file]. *)
Inductive MappingsFile :=
| MappingsMissing
| MappingsMalformed
| MappingsLoaded (mappings : list Mapping).

(** The existence checks of the run. *)
Record FileSystem := mkFS {
  root_exists : bool;
  icons_dir_exists : bool;
  (** [(icons_dir / pattern).exists()] *)
  icon_exists : string -> bool;
  (** [(audio_dir / language / username / filename).exists()] *)
  audio_exists : string -> string -> string -> bool
}.

Definition Key := (string * string)%type.

Definition key_eqb (a b : Key) : bool :=
  String.eqb (fst a) (fst b) && String.eqb (snd a) (snd b).

Definition CountryMappings := Py.dict string Mapping.
Definition WordAudioMap := Py.dict Key (list Audio).

(* ------------------------------------------------------------------ *)
(** ** load_country_mappings and get_icon_path *)

(** [f"{iso_code}"]: a [null] code prints as [None]. *)
Definition fmt_iso (c : option string) : string :=
  match c with Some s => s | None => "None" end.

(** The two functions that fold case, over [str.lower] as a parameter:
    what is proved of them for every [lower] holds of Python's own
    [str.lower], on every text. *)
Module Generic.
Section Lower.
Variable lower : string -> string.

Definition load_country_mappings (f : MappingsFile) : CountryMappings :=
  match f with
  | MappingsLoaded mappings =>
      fold_left (fun country_lookup mapping =>
                   Py.set String.eqb (lower (original_name mapping)) mapping
                          country_lookup)
                mappings []
  | MappingsMissing => []
  | MappingsMalformed => []
  end.

Definition gender_prefix (gender : string) : string :=
  if Py.truthy gender && Py.str_in (lower gender) ["male"; "female"]
  then lower gender ++ "_"
  else "".

Definition icon_patterns (gender : string) (iso : string) : list string :=
  [ gender_prefix gender ++ iso ++ ".svg";
    "_" ++ iso ++ ".svg";
    iso ++ ".svg" ].

Definition get_icon_path (cm : CountryMappings) (fs : FileSystem)
    (gender country : string) : option string :=
  match Py.get String.eqb (lower country) cm with
  | None => None
  | Some country_info =>
      match find (icon_exists fs) (icon_patterns gender (fmt_iso (iso_code country_info))) with
      | Some pattern => Some ("icons/" ++ pattern)
      | None => None
      end
  end.
End Lower.
End Generic.

(** The functions as the pipeline runs them. *)
Definition load_country_mappings : MappingsFile -> CountryMappings :=
  Generic.load_country_mappings Py.lower.

Definition gender_prefix : string -> string := Generic.gender_prefix Py.lower.

Definition icon_patterns : string -> string -> list string :=
  Generic.icon_patterns Py.lower.

Definition get_icon_path : CountryMappings -> FileSystem -> string -> string -> option string :=
  Generic.get_icon_path Py.lower.

(* ------------------------------------------------------------------ *)
(** ** check_audio_file_exists *)

Definition extensions : list string := [".opus"; ".mp3"; ".ogg"].

Definition check_audio_file_exists (fs : FileSystem)
    (language username headword : string) : option string :=
  match find (fun ext => audio_exists fs language username (headword ++ ext)) extensions with
  | Some ext => Some (language ++ "/" ++ username ++ "/" ++ headword ++ ext)
  | None => None
  end.

(* ------------------------------------------------------------------ *)
(** ** generate_html_content *)

Definition dq : string := String (ascii_of_nat 34) EmptyString.
Definition nl : string := String (ascii_of_nat 10) EmptyString.

Fixpoint spaces (n : nat) : string :=
  match n with O => EmptyString | S m => String " " (spaces m) end.

(** A line of a triple-quoted template: the line break, its indentation and
    its text. *)
Definition ln (indent : nat) (text : string) : string :=
  nl ++ spaces indent ++ text.

Definition attr (name value : string) : string :=
  name ++ "=" ++ dq ++ value ++ dq.

Definition title_text (audio : Audio) : string :=
  username audio ++ " (" ++ country audio ++ ")"
  ++ (if (votes audio >? 0)%Z then " - " ++ Py.str_int (votes audio) ++ " votes" else "").

Definition vote_span (audio : Audio) : string :=
  if (votes audio >? 0)%Z
  then "<span " ++ attr "class" "vote-count" ++ ">(" ++ Py.str_int (votes audio) ++ ")</span>"
  else "".

Definition audio_html (audio : Audio) (icon_path : string) : string :=
  ln 12 ("<div " ++ attr "class" "pronunciation-item" ++ ">")
  ++ ln 16 ("<a " ++ attr "href" ("sound://" ++ file_path audio) ++ " "
            ++ attr "title" (title_text audio) ++ ">")
  ++ ln 20 ("<img " ++ attr "src" icon_path ++ " ")
  ++ ln 25 (attr "alt" (username audio) ++ " ")
  ++ ln 25 (attr "class" "pronunciation-icon" ++ " ")
  ++ ln 25 (attr "style" "width: 24px; height: 24px; margin: 2px; border: none;" ++ ">")
  ++ ln 16 "</a>"
  ++ ln 16 (vote_span audio)
  ++ ln 12 "</div>".

Definition wrapper_open : string :=
  "<div " ++ attr "class" "audio-pronunciations" ++ ">".

Definition wrapper_close : string := "</div>".

Definition stylesheet : string :=
  Py.join (map (fun l => ln (fst l) (snd l))
    [ (12, "<style>");
      (12, ".audio-pronunciations {");
      (16, "display: flex;");
      (16, "flex-wrap: wrap;");
      (16, "gap: 5px;");
      (16, "align-items: center;");
      (12, "}");
      (12, ".pronunciation-item {");
      (16, "display: inline-flex;");
      (16, "align-items: center;");
      (16, "gap: 2px;");
      (12, "}");
      (12, ".pronunciation-item a {");
      (16, "text-decoration: none;");
      (16, "border: none;");
      (16, "display: inline-block;");
      (12, "}");
      (12, ".pronunciation-icon:hover {");
      (16, "opacity: 0.7;");
      (16, "transform: scale(1.1);");
      (16, "transition: all 0.2s ease;");
      (12, "}");
      (12, ".vote-count {");
      (16, "font-size: 0.8em;");
      (16, "color: #666;");
      (16, "margin-left: 2px;");
      (12, "}");
      (12, "</style>") ])%nat.

Section Renderer.
Variable cm : CountryMappings.
Variable fs : FileSystem.

Definition icon_of (audio : Audio) : option string :=
  get_icon_path cm fs (gender audio) (country audio).

(** The body of the loop over [sorted_audio]: the markup appended for one
    record, nothing when its icon does not resolve. *)
Definition render_audio (audio : Audio) : list string :=
  match icon_of audio with
  | None => []
  | Some icon_path => [audio_html audio icon_path]
  end.

Definition generate_html_content (audio_data : list Audio) : string :=
  let sorted_audio := Py.sorted votes true audio_data in
  let html_parts := wrapper_open :: flat_map render_audio sorted_audio in
  let html_parts :=
    match tl html_parts with
    | [] => html_parts
    | _ :: _ => (html_parts ++ [stylesheet])%list
    end in
  Py.join (html_parts ++ [wrapper_close])%list.
End Renderer.

(* ------------------------------------------------------------------ *)
(** ** process_metadata, first loop: the aggregation *)

(** [d.get(k, default)]. *)
Definition get_default (A : Type) (field : option A) (default : A) : A :=
  match field with Some x => x | None => default end.

Definition extract_origin (origin : list string) : string * string * string :=
  if (3 <=? length origin)%nat
  then (nth 0 origin "", nth 1 origin "", nth 2 origin "")
  else ((match origin with [] => "unknown" | _ :: _ => nth 0 origin "" end),
        (if (1 <? length origin)%nat then nth 1 origin "" else ""),
        (if (2 <? length origin)%nat then nth 2 origin "" else "")).

(** The headword after the [query_word] step. *)
Definition correct_headword (query_word headword : string) : string :=
  if negb (String.eqb query_word headword) then Py.unquote query_word else headword.

(** The body of the loop over the lines for one entry: the key and the
    record appended to its group, or [None] when the line is skipped. *)
Definition process_entry (fs : FileSystem) (entry : Entry) : option (Key * Audio) :=
  let language := get_default (e_language entry) "" in
  let headword := get_default (e_headword entry) "" in
  if negb (Py.truthy language) || negb (Py.truthy headword) then None
  else
    let query_word := get_default (e_query_word entry) headword in
    let headword := correct_headword query_word headword in
    let origin := get_default (e_origin entry) [] in
    let '(username, gender, country) := extract_origin origin in
    let votes := get_default (e_votes entry) 0%Z in
    let download_url := get_default (e_download_url entry) "" in
    let audio_id := get_default (e_id entry) 0%Z in
    match check_audio_file_exists fs language username headword with
    | None => None
    | Some file_path =>
        Some ((language, headword),
              mkAudio username gender country votes file_path download_url audio_id)
    end.

Definition process_line (fs : FileSystem) (line : Line) : option (Key * Audio) :=
  match line with
  | Malformed => None
  | Parsed entry => process_entry fs entry
  end.

(** [word_audio_map[key].append(audio)] on a [defaultdict(list)]: a key
    seen for the first time enters the map with a one-element list. *)
Definition append_audio (word_audio_map : WordAudioMap) (key : Key) (audio : Audio)
    : WordAudioMap :=
  Py.set key_eqb key (get_default (Py.get key_eqb key word_audio_map) [] ++ [audio])%list
         word_audio_map.

Definition aggregate_line (fs : FileSystem) (word_audio_map : WordAudioMap) (line : Line)
    : WordAudioMap :=
  match process_line fs line with
  | None => word_audio_map
  | Some (key, audio) => append_audio word_audio_map key audio
  end.

Definition aggregate (fs : FileSystem) (lines : list Line) : WordAudioMap :=
  fold_left (aggregate_line fs) lines [].

(* ------------------------------------------------------------------ *)
(** ** The two stores *)

Record WordRow := mkWordRow {
  w_id : Z;
  w_language : string;
  w_headword : string;
  w_html_content : string;
  w_audio_count : Z
}.

(** A row of [audio_files]: its id, its [word_id] and the seven columns
    copied from the record. *)
Record AudioRow := mkAudioRow {
  a_id : Z;
  a_word_id : Z;
  a_audio : Audio
}.

Record MdxRow := mkMdxRow {
  m_id : Z;
  m_entry : string;
  m_paraphrase : string;
  m_language : string;
  m_audio_count : Z
}.

(** The complex store.  Both tables are AUTOINCREMENT: [words_seq] and
    [audio_files_seq] are their [sqlite_sequence] counters, the largest id
    ever given out. *)
Record ComplexDb := mkComplexDb {
  words : list WordRow;
  words_seq : Z;
  audio_files : list AudioRow;
  audio_files_seq : Z
}.

Record SimpleDb := mkSimpleDb {
  mdx : list MdxRow;
  mdx_seq : Z
}.

Definition empty_complex : ComplexDb := mkComplexDb [] 0 [] 0.
Definition empty_simple : SimpleDb := mkSimpleDb [] 0.

Definition word_key (r : WordRow) : Key := (w_language r, w_headword r).
Definition mdx_key (r : MdxRow) : Key := (m_language r, m_entry r).

(** [INSERT OR REPLACE INTO words]: the row in conflict on
    [UNIQUE(language, headword)] is deleted, the new row takes the next id.
    The result carries [cursor.lastrowid]. *)
Definition insert_or_replace_word (db : ComplexDb)
    (language headword html_content : string) (audio_count : Z) : ComplexDb * Z :=
  let id := (words_seq db + 1)%Z in
  let kept := filter (fun r => negb (key_eqb (word_key r) (language, headword))) (words db) in
  (mkComplexDb (kept ++ [mkWordRow id language headword html_content audio_count])
               id (audio_files db) (audio_files_seq db),
   id).

(** An integer [sqlite3] can bind.  [cursor.execute] raises
    [OverflowError] for a Python [int] outside SQLite's 64-bit INTEGER,
    before the statement does anything. *)
Definition sqlite_integer (z : Z) : bool :=
  (- 2 ^ 63 <=? z)%Z && (z <? 2 ^ 63)%Z.

(** Whether the parameters of a record bind: [votes] and [audio_id] are
    its integers read from the log. *)
Definition binds (audio : Audio) : bool :=
  sqlite_integer (votes audio) && sqlite_integer (audio_id audio).

(** [INSERT INTO audio_files] with parameters that bind: no uniqueness,
    the row is added. *)
Definition insert_audio_file (db : ComplexDb) (word_id : Z) (audio : Audio) : ComplexDb :=
  let id := (audio_files_seq db + 1)%Z in
  mkComplexDb (words db) (words_seq db)
              (audio_files db ++ [mkAudioRow id word_id audio]) id.

(** [INSERT OR REPLACE INTO mdx], unique on [(entry, language)]. *)
Definition insert_or_replace_mdx (db : SimpleDb)
    (entry paraphrase language : string) (audio_count : Z) : SimpleDb :=
  let id := (mdx_seq db + 1)%Z in
  let kept := filter (fun r => negb (key_eqb (mdx_key r) (language, entry))) (mdx db) in
  mkSimpleDb (kept ++ [mkMdxRow id entry paraphrase language audio_count]) id.

(** A connection: what the database file holds and what the connection
    sees, the statements of the open transaction included. *)
Record Conn (Db : Type) := mkConn {
  committed : Db;
  working : Db
}.

Definition connect (Db : Type) (file : Db) : Conn Db := mkConn file file.
Definition commit (Db : Type) (c : Conn Db) : Conn Db := mkConn (working c) (working c).
Definition execute (Db : Type) (f : Db -> Db) (c : Conn Db) : Conn Db :=
  mkConn (committed c) (f (working c)).
(** [close()] commits nothing: the file keeps the committed image. *)
Definition close (Db : Type) (c : Conn Db) : Db := committed c.

(** The database files; [None] before the first [init_databases]. *)
Record Stores := mkStores {
  complex_db : option ComplexDb;
  simple_db : option SimpleDb
}.

Definition no_stores : Stores := mkStores None None.

(* ------------------------------------------------------------------ *)
(** ** process_metadata, second loop: the writes *)

(** The state of the second loop: the two connections and the local
    [word_id]. *)
Record Writer := mkWriter {
  conn : Conn ComplexDb;
  simple_conn : Conn SimpleDb;
  word_id : Z
}.

(** The statements of the second loop, the units between which a signal
    handler can run.  An [InsertAudioFile] whose parameters do not bind
    raises and writes nothing. *)
Inductive Stmt :=
| InsertOrReplaceWord (language headword html_content : string) (audio_count : Z)
| InsertAudioFile (audio : Audio)
| InsertOrReplaceMdx (entry paraphrase language : string) (audio_count : Z)
| ConnCommit
| SimpleConnCommit.

Definition exec_stmt (w : Writer) (s : Stmt) : Writer :=
  match s with
  | InsertOrReplaceWord language headword html_content audio_count =>
      let r := insert_or_replace_word (working (conn w)) language headword
                                      html_content audio_count in
      mkWriter (mkConn (committed (conn w)) (fst r)) (simple_conn w) (snd r)
  | InsertAudioFile audio =>
      if binds audio
      then mkWriter (execute (fun db => insert_audio_file db (word_id w) audio) (conn w))
                    (simple_conn w) (word_id w)
      else w
  | InsertOrReplaceMdx entry paraphrase language audio_count =>
      mkWriter (conn w)
               (execute (fun db => insert_or_replace_mdx db entry paraphrase
                                                         language audio_count)
                        (simple_conn w))
               (word_id w)
  | ConnCommit => mkWriter (commit (conn w)) (simple_conn w) (word_id w)
  | SimpleConnCommit => mkWriter (conn w) (commit (simple_conn w)) (word_id w)
  end.

Definition exec (stmts : list Stmt) (w : Writer) : Writer :=
  fold_left exec_stmt stmts w.

Definition batch_size : nat := 1000.

(** The records whose INSERT is executed in the loop over [audio_list]:
    all up to the first that raises, that one included. *)
Fixpoint attempted (audio_list : list Audio) : list Audio :=
  match audio_list with
  | [] => []
  | audio :: rest => audio :: (if binds audio then attempted rest else [])
  end.

(** Whether the [try] block of the iteration of a group reaches its end. *)
Definition completes (group : Key * list Audio) : bool := forallb binds (snd group).

Section Writes.
Variable cm : CountryMappings.
Variable fs : FileSystem.

(** The statements of one iteration, before the batch test.  An INSERT
    that raises sends the iteration to its [except] clause, which logs and
    goes on with the next group: the statements after it are not executed,
    those before it stay in the open transaction. *)
Definition group_stmts (group : Key * list Audio) : list Stmt :=
  let '((language, headword), audio_list) := group in
  let html_content := generate_html_content cm fs audio_list in
  let audio_count := Z.of_nat (length audio_list) in
  (InsertOrReplaceWord language headword html_content audio_count
     :: map InsertAudioFile (attempted audio_list)
     ++ (if forallb binds audio_list
         then [InsertOrReplaceMdx headword html_content language audio_count]
         else []))%list.

(** [if word_count % 1000 == 0], after the increment. *)
Definition batch_commit (word_count : nat) : list Stmt :=
  if (word_count mod batch_size =? 0)%nat then [ConnCommit; SimpleConnCommit] else [].

(** The iterations over [groups], [word_count] groups being written
    already; the final commits are not included.  [word_count] is
    incremented, and the batch test made, at the end of the [try] block:
    an iteration that raised does neither. *)
Fixpoint loop_stmts (word_count : nat) (groups : WordAudioMap) : list Stmt :=
  match groups with
  | [] => []
  | group :: rest =>
      if completes group
      then (group_stmts group ++ batch_commit (S word_count)
              ++ loop_stmts (S word_count) rest)%list
      else (group_stmts group ++ loop_stmts word_count rest)%list
  end.

(** The second loop and the two commits that follow it. *)
Definition write_stmts (groups : WordAudioMap) : list Stmt :=
  (loop_stmts 0 groups ++ [ConnCommit; SimpleConnCommit])%list.
End Writes.

(* ------------------------------------------------------------------ *)
(** ** run *)

(** What a run reads. *)
Record Input := mkInput {
  fs : FileSystem;
  mappings_file : MappingsFile;
  (** the lines of [metadata.jsonl], [None] when the file is absent *)
  metadata_file : option (list Line)
}.

Inductive Missing :=
| RootDirectory
| AudioDirectory
| IconsDirectory
| MetadataFile.

(** How the process ends: [run] returns, [FileNotFoundError] leaves [run],
    or the signal handler calls [sys.exit(0)]. *)
Inductive Outcome :=
| Completed
| Fatal (what : Missing)
| Exited.

(** [audio_dir] is [root_dir]. *)
Definition audio_dir_exists (f : FileSystem) : bool := root_exists f.

(** [init_databases]: both files are opened, the tables and indexes are
    created where they do not exist, and both connections commit. *)
Definition init_databases (st : Stores) : Writer :=
  mkWriter (connect (get_default (complex_db st) empty_complex))
           (connect (get_default (simple_db st) empty_simple))
           0.

(** The files a process leaves when its connections are closed. *)
Definition closed (w : Writer) : Stores :=
  mkStores (Some (close (conn w))) (Some (close (simple_conn w))).

(** The statements [process_metadata] executes on the log [lines]. *)
Definition process_metadata_stmts (inp : Input) (lines : list Line) : list Stmt :=
  write_stmts (load_country_mappings (mappings_file inp)) (fs inp)
              (aggregate (fs inp) lines).

(** [signal_handler]: the [interrupted] flag is set, both connections are
    closed, nothing being committed, and [sys.exit(0)] ends the process.
    [SystemExit] is not an [Exception]: no handler of [process_metadata] or
    [run] stops it, and the loops never read the flag again. *)
Definition signal_handler (w : Writer) : Outcome * Stores := (Exited, closed w).

(** A run that receives a signal once [n] statements of the second loop are
    executed ([0] while the log is still read), [None] for a run that
    receives none. *)
Definition run_signal (signal : option nat) (inp : Input) (st : Stores)
    : Outcome * Stores :=
  if negb (root_exists (fs inp)) then (Fatal RootDirectory, st)
  else if negb (audio_dir_exists (fs inp)) then (Fatal AudioDirectory, st)
  else if negb (icons_dir_exists (fs inp)) then (Fatal IconsDirectory, st)
  else
    let w := init_databases st in
    match metadata_file inp with
    | None => (Fatal MetadataFile, closed w)
    | Some lines =>
        let stmts := process_metadata_stmts inp lines in
        match signal with
        | None => (Completed, closed (exec stmts w))
        | Some n => signal_handler (exec (firstn n stmts) w)
        end
    end.

Definition run : Input -> Stores -> Outcome * Stores := run_signal None.

(* ================================================================== *)
(** * Vocabulary of the properties *)

Unset Implicit Arguments.

(** ** The log and its groups *)

Definition layout_ok (inp : Input) : bool :=
  root_exists (fs inp) && icons_dir_exists (fs inp).

(** The groups a run writes. *)
Definition groups_of (inp : Input) (lines : list Line) : WordAudioMap :=
  aggregate (fs inp) lines.

(** The records of the log that enter the group of [k], in log order: one
    for each line that is not skipped and whose key is [k]. *)
Definition records_for (fs0 : FileSystem) (k : Key) (lines : list Line) : list Audio :=
  flat_map (fun line =>
              match process_line fs0 line with
              | Some (k', audio) => if key_eqb k k' then [audio] else []
              | None => []
              end) lines.

(** A group, present or not, with more records appended. *)
Definition extend (group : option (list Audio)) (more : list Audio)
    : option (list Audio) :=
  match group, more with
  | None, [] => None
  | _, _ => Some (get_default group [] ++ more)%list
  end.

(** The fallback table of the [origin] field, one row per length. *)
Definition origin_table (origin : list string) : string * string * string :=
  match origin with
  | [] => ("unknown", "", "")
  | [u] => (u, "", "")
  | [u; g] => (u, g, "")
  | u :: g :: c :: _ => (u, g, c)
  end.

(** ** Icons and renderings *)

(** The gender label in its normal form, [lower] being [str.lower]. *)
Definition normalize_gender (lower : string -> string) (gender : string) : string :=
  if Py.truthy gender && Py.str_in (lower gender) ["male"; "female"]
  then lower gender else "".

(** The resolver as the specification words it: the first candidate is the
    normal form of the gender, an underscore and the code. *)
Definition candidates_as_specified (gender iso : string) : list string :=
  [ normalize_gender Py.lower gender ++ "_" ++ iso ++ ".svg";
    "_" ++ iso ++ ".svg";
    iso ++ ".svg" ].

Definition resolve_as_specified (cm : CountryMappings) (fs0 : FileSystem)
    (gender country : string) : option string :=
  match Py.get String.eqb (Py.lower country) cm with
  | None => None
  | Some country_info =>
      option_map (fun pattern => "icons/" ++ pattern)
        (find (icon_exists fs0)
              (candidates_as_specified gender (fmt_iso (iso_code country_info))))
  end.

Definition has_icon (cm : CountryMappings) (fs0 : FileSystem) (audio : Audio) : bool :=
  match icon_of cm fs0 audio with Some _ => true | None => false end.

(** The records a rendering shows, in the order it shows them. *)
Definition shown (cm : CountryMappings) (fs0 : FileSystem) (audio_data : list Audio)
    : list Audio :=
  filter (has_icon cm fs0) (Py.sorted votes true audio_data).

(** The markup of a shown record. *)
Definition item (cm : CountryMappings) (fs0 : FileSystem) (audio : Audio) : string :=
  audio_html audio (get_default (icon_of cm fs0 audio) "").

(** The wrapper element with nothing inside. *)
Definition bare_wrapper : string := wrapper_open ++ wrapper_close.

(** ** Tables with a UNIQUE key *)

(** The row of a key. *)
Definition lookup {R : Type} (key : R -> Key) (k : Key) (rows : list R) : option R :=
  find (fun r => key_eqb (key r) k) rows.

(** The rows after an INSERT OR REPLACE of [new] under the key [k]. *)
Definition upsert {R : Type} (key : R -> Key) (k : Key) (new : R) (rows : list R)
    : list R :=
  (filter (fun r => negb (key_eqb (key r) k)) rows ++ [new])%list.

Definition find_word (db : ComplexDb) (k : Key) : option WordRow :=
  lookup word_key k (words db).

Definition find_mdx (db : SimpleDb) (k : Key) : option MdxRow :=
  lookup mdx_key k (mdx db).

(** The records of the [audio_files] rows that point at the word id [id]. *)
Definition children_of (db : ComplexDb) (id : Z) : list Audio :=
  map a_audio (filter (fun a => (a_word_id a =? id)%Z) (audio_files db)).

(** The records attached to the row of a key. *)
Definition children (db : ComplexDb) (k : Key) : list Audio :=
  match find_word db k with
  | Some r => children_of db (w_id r)
  | None => []
  end.

(** A row without its surrogate id. *)
Definition word_view (db : ComplexDb) (k : Key) : option (Key * string * Z) :=
  option_map (fun r => (word_key r, w_html_content r, w_audio_count r)) (find_word db k).

Definition mdx_view (db : SimpleDb) (k : Key) : option (Key * string * Z) :=
  option_map (fun r => (mdx_key r, m_paraphrase r, m_audio_count r)) (find_mdx db k).

(** What the schema maintains: [UNIQUE(language, headword)], and ids that
    AUTOINCREMENT has given out. *)
Record well_formed (db : ComplexDb) : Prop := mkWellFormed {
  wf_unique : NoDup (map word_key (words db));
  wf_word_ids : Forall (fun r => (w_id r <= words_seq db)%Z) (words db);
  wf_parent_ids : Forall (fun a => (a_word_id a <= words_seq db)%Z) (audio_files db)
}.


(** ** The writes of a group in closed form *)

(** The [words] row a group is written as. *)
Definition word_row (cm : CountryMappings) (fs0 : FileSystem) (id : Z)
    (group : Key * list Audio) : WordRow :=
  mkWordRow id (fst (fst group)) (snd (fst group))
            (generate_html_content cm fs0 (snd group))
            (Z.of_nat (length (snd group))).

(** The [mdx] row a group is written as. *)
Definition mdx_row (cm : CountryMappings) (fs0 : FileSystem) (id : Z)
    (group : Key * list Audio) : MdxRow :=
  mkMdxRow id (snd (fst group)) (generate_html_content cm fs0 (snd group))
           (fst (fst group)) (Z.of_nat (length (snd group))).

(** The records of a group that get an [audio_files] row: those before
    the first whose INSERT raises. *)
Fixpoint accepted (audio_list : list Audio) : list Audio :=
  match audio_list with
  | [] => []
  | audio :: rest => if binds audio then audio :: accepted rest else []
  end.

(** What the statements of one group do to the complex store: the row of
    the group, and a child row for each accepted record. *)
Definition write_complex (cm : CountryMappings) (fs0 : FileSystem)
    (db : ComplexDb) (group : Key * list Audio) : ComplexDb :=
  let r := insert_or_replace_word db (fst (fst group)) (snd (fst group))
             (generate_html_content cm fs0 (snd group))
             (Z.of_nat (length (snd group))) in
  fold_left (fun d audio => insert_audio_file d (snd r) audio)
            (accepted (snd group)) (fst r).

(** What they do to the simple store: nothing when an INSERT of the group
    raised. *)
Definition write_simple (cm : CountryMappings) (fs0 : FileSystem)
    (db : SimpleDb) (group : Key * list Audio) : SimpleDb :=
  if completes group
  then insert_or_replace_mdx db (snd (fst group))
         (generate_html_content cm fs0 (snd group)) (fst (fst group))
         (Z.of_nat (length (snd group)))
  else db.

(** The number of groups that [word_count] counts. *)
Definition completed (groups : WordAudioMap) : nat := length (filter completes groups).

(** ** Logs whose integers fit *)

(** The integers of an entry, with the defaults the loop gives them, are
    within SQLite's 64-bit INTEGER. *)
Definition entry_fits (entry : Entry) : bool :=
  sqlite_integer (get_default (e_votes entry) 0%Z)
  && sqlite_integer (get_default (e_id entry) 0%Z).

Definition line_fits (line : Line) : bool :=
  match line with
  | Malformed => true
  | Parsed entry => entry_fits entry
  end.

(** Every [votes] and every [id] of the log is within SQLite's 64-bit
    INTEGER: no INSERT of the run raises. *)
Definition integers_fit (lines : list Line) : bool := forallb line_fits lines.

Definition commit_both (w : Writer) : Writer :=
  mkWriter (commit (conn w)) (commit (simple_conn w)) (word_id w).

Definition is_commit (s : Stmt) : bool :=
  match s with ConnCommit | SimpleConnCommit => true | _ => false end.

(** The content and the count a statement writes into [words] or [mdx]. *)
Definition stored (s : Stmt) : option (string * Z) :=
  match s with
  | InsertOrReplaceWord _ _ html_content audio_count => Some (html_content, audio_count)
  | InsertOrReplaceMdx _ paraphrase _ audio_count => Some (paraphrase, audio_count)
  | _ => None
  end.

(** The stores after every group of [lines] is written over [st]. *)
Definition stores_after (inp : Input) (lines : list Line) (st : Stores) : Stores :=
  let cm := load_country_mappings (mappings_file inp) in
  mkStores
    (Some (fold_left (write_complex cm (fs inp)) (groups_of inp lines)
                     (get_default (complex_db st) empty_complex)))
    (Some (fold_left (write_simple cm (fs inp)) (groups_of inp lines)
                     (get_default (simple_db st) empty_simple))).

(** The stores of a run of [lines] over no stores. *)
Definition fresh_complex (inp : Input) (lines : list Line) : ComplexDb :=
  fold_left (write_complex (load_country_mappings (mappings_file inp)) (fs inp))
            (groups_of inp lines) empty_complex.

Definition fresh_simple (inp : Input) (lines : list Line) : SimpleDb :=
  fold_left (write_simple (load_country_mappings (mappings_file inp)) (fs inp))
            (groups_of inp lines) empty_simple.

(** ** Batches *)





(** ** Example inputs *)

(** A file system in which every path exists. *)
Definition every_file : FileSystem :=
  mkFS true true (fun _ => true) (fun _ _ _ => true).

Definition no_root : FileSystem := mkFS false false (fun _ => false) (fun _ _ _ => false).
Definition no_icons : FileSystem := mkFS true false (fun _ => false) (fun _ _ _ => true).

(** An icons directory that holds [_fr.svg] and [fr.svg]. *)
Definition two_french_icons : FileSystem :=
  mkFS true true
       (fun pattern => String.eqb pattern "_fr.svg" || String.eqb pattern "fr.svg")
       (fun _ _ _ => true).

Definition two_countries : MappingsFile :=
  MappingsLoaded [mkMapping "France" (Some "fr"); mkMapping "Japan" (Some "jp")].

Definition france_only : CountryMappings :=
  load_country_mappings (MappingsLoaded [mkMapping "France" (Some "fr")]).

Definition carol_entry : Entry :=
  mkEntry (Some "en") (Some "cat") None (Some ["carol"]) None None None.

Definition cat_lines : list Line :=
  [ Parsed (mkEntry (Some "en") (Some "cat") None
                    (Some ["alice"; "female"; "France"]) (Some 5%Z) None (Some 1%Z));
    Parsed (mkEntry (Some "en") (Some "cat") None
                    (Some ["bob"; "male"; "Japan"]) (Some 10%Z) None (Some 2%Z)) ].

Definition alice : Audio := mkAudio "alice" "female" "France" 5 "en/alice/cat.opus" "" 1.
Definition bob : Audio := mkAudio "bob" "male" "Japan" 10 "en/bob/cat.opus" "" 2.

Definition cat_input : Input := mkInput every_file two_countries (Some cat_lines).

(** The same log without a country mappings file. *)
Definition cat_input_unmapped : Input := mkInput every_file MappingsMissing (Some cat_lines).

(** A valid layout without [metadata.jsonl]. *)
Definition no_log_input : Input := mkInput every_file two_countries None.

Definition run_entry : Entry :=
  mkEntry (Some "en") (Some "run") (Some "r%C3%BCn") (Some ["dieter"; "male"; "Germany"])
          (Some 3%Z) None (Some 7%Z).

Definition run_input : Input := mkInput every_file two_countries (Some [Parsed run_entry]).




(** A log of three records for ("en", "cat") whose second has a vote
    count of 2^63, one more than SQLite's largest INTEGER. *)
Definition overflow_lines : list Line :=
  [ Parsed (mkEntry (Some "en") (Some "cat") None
                    (Some ["bob"; "male"; "Japan"]) (Some 10%Z) None (Some 2%Z));
    Parsed (mkEntry (Some "en") (Some "cat") None
                    (Some ["alice"; "female"; "France"]) (Some (2 ^ 63)%Z) None
                    (Some 1%Z));
    Parsed carol_entry ].

Definition overflow_input : Input := mkInput every_file two_countries (Some overflow_lines).

(** ** Vocabulary of the further properties *)

(** The records of the lines that are not skipped, in log order: what
    [processed_count] counts. *)
Definition processed (fs0 : FileSystem) (lines : list Line) : list Audio :=
  flat_map (fun line =>
              match process_line fs0 line with
              | Some (_, audio) => [audio]
              | None => []
              end) lines.

(** The keys of the lines that are not skipped, in log order. *)
Definition line_keys (fs0 : FileSystem) (lines : list Line) : list Key :=
  flat_map (fun line =>
              match process_line fs0 line with
              | Some (k, _) => [k]
              | None => []
              end) lines.

(** The keys of [ks] that are not in [seen], each at its first place. *)
Fixpoint first_seen (seen ks : list Key) : list Key :=
  match ks with
  | [] => []
  | k :: rest =>
      if existsb (key_eqb k) seen then first_seen seen rest
      else k :: first_seen (k :: seen) rest
  end.

(** The [audio_files] rows of one group: ids counted on from [id], all
    with the same [word_id]. *)
Fixpoint audio_rows_of (id word_id : Z) (audio_list : list Audio) : list AudioRow :=
  match audio_list with
  | [] => []
  | audio :: rest =>
      mkAudioRow (id + 1) word_id audio :: audio_rows_of (id + 1) word_id rest
  end.

(** The rows of [groups] in tables that hold none of their keys: the
    groups take the word ids after [word_id] in their order, the records
    the audio ids after [id]. *)
Fixpoint word_rows_from (cm : CountryMappings) (fs0 : FileSystem) (word_id : Z)
    (groups : WordAudioMap) : list WordRow :=
  match groups with
  | [] => []
  | group :: rest =>
      word_row cm fs0 (word_id + 1) group :: word_rows_from cm fs0 (word_id + 1) rest
  end.

Fixpoint mdx_rows_from (cm : CountryMappings) (fs0 : FileSystem) (id : Z)
    (groups : WordAudioMap) : list MdxRow :=
  match groups with
  | [] => []
  | group :: rest => mdx_row cm fs0 (id + 1) group :: mdx_rows_from cm fs0 (id + 1) rest
  end.

Fixpoint audio_rows_from (id word_id : Z) (groups : WordAudioMap) : list AudioRow :=
  match groups with
  | [] => []
  | group :: rest =>
      (audio_rows_of id (word_id + 1) (accepted (snd group))
         ++ audio_rows_from (id + Z.of_nat (length (accepted (snd group))))
                            (word_id + 1) rest)%list
  end.

(** The three row counts [run] selects at its end: words, audio files,
    MDX entries. *)
Definition statistics (db : ComplexDb) (sdb : SimpleDb) : Z * Z * Z :=
  (Z.of_nat (length (words db)), Z.of_nat (length (audio_files db)),
   Z.of_nat (length (mdx sdb))).

(** The numbers of groups a committed image can hold when [total] groups
    are written: none, all, or a whole number of batches. *)
Definition batch_boundary (total j : nat) : Prop :=
  j = 0%nat \/ j = total \/ ((j <= total)%nat /\ (j mod batch_size = 0)%nat).

(** What an image of a connection holds when a prefix of the loop is
    executed: what it held, or the groups up to a batch commit or up to the
    final commit.  A batch commit falls where the count of the groups
    that completed is a multiple of the batch size. *)
Definition committed_at (A : Type) (write : A -> Key * list Audio -> A)
    (word_count : nat) (groups : WordAudioMap) (before working_image now : A) : Prop :=
  now = before \/
  exists j, (j <= length groups)%nat /\
            (j = length groups \/
             ((0 < j)%nat /\
              ((word_count + completed (firstn j groups)) mod batch_size = 0)%nat)) /\
            now = fold_left write (firstn j groups) working_image.

(** The numbers of groups a committed image can hold, whatever the
    groups: none, all, or the groups up to a point where the count of
    those that completed is a multiple of the batch size. *)
Definition commit_point (groups : WordAudioMap) (j : nat) : Prop :=
  j = 0%nat \/ j = length groups \/
  ((j <= length groups)%nat /\ (completed (firstn j groups) mod batch_size = 0)%nat).

(** The groups that are in whole batches when [total] groups are written:
    those the last batch commit of the loop has made durable. *)
Definition whole_batches (total : nat) : nat := (total / batch_size * batch_size)%nat.

(* ================================================================== *)
(** * Properties *)

(** ** Strings and keys *)

Lemma append_assoc (a b c : string) : (a ++ b) ++ c = a ++ b ++ c.
Proof.
  induction a as [|x a IH]; simpl; [reflexivity | now rewrite IH].
Qed.

Lemma key_eqb_spec (a b : Key) : reflect (a = b) (key_eqb a b).
Proof.
  destruct a as [a1 a2], b as [b1 b2]; unfold key_eqb; simpl.
  destruct (String.eqb_spec a1 b1), (String.eqb_spec a2 b2); simpl;
    constructor; congruence.
Qed.

Lemma key_eqb_refl (a : Key) : key_eqb a a = true.
Proof. destruct (key_eqb_spec a a); congruence. Qed.

Lemma key_eqb_sym (a b : Key) : key_eqb a b = key_eqb b a.
Proof.
  destruct (key_eqb_spec a b), (key_eqb_spec b a); congruence.
Qed.

Lemma key_eqb_neq (a b : Key) : a <> b -> key_eqb a b = false.
Proof. destruct (key_eqb_spec a b); congruence. Qed.

(** ** Dictionaries *)

Section DictFacts.
Variables K V : Type.
Variable keqb : K -> K -> bool.
Hypothesis keqb_spec : forall a b, reflect (a = b) (keqb a b).

Lemma get_set (k k' : K) (v : V) (d : Py.dict K V) :
  Py.get keqb k (Py.set keqb k' v d) =
  if keqb k k' then Some v else Py.get keqb k d.
Proof.
  induction d as [|[k0 v0] d IH]; simpl.
  - destruct (keqb k k'); reflexivity.
  - destruct (keqb_spec k' k0) as [->|Hne]; simpl.
    + destruct (keqb k k0); reflexivity.
    + rewrite IH. destruct (keqb_spec k k0) as [->|Hne0].
      * destruct (keqb_spec k0 k'); congruence.
      * reflexivity.
Qed.

Lemma get_None_keys (k : K) (d : Py.dict K V) :
  Py.get keqb k d = None <-> ~ In k (Py.keys d).
Proof.
  induction d as [|[k0 v0] d IH]; simpl.
  - tauto.
  - destruct (keqb_spec k k0) as [->|Hne].
    + split; [discriminate | tauto].
    + rewrite IH. split; [intros H [E|I]; [congruence|tauto] | tauto].
Qed.

Lemma keys_set (k : K) (v : V) (d : Py.dict K V) :
  Py.keys (Py.set keqb k v d) =
  match Py.get keqb k d with
  | Some _ => Py.keys d
  | None => (Py.keys d ++ [k])%list
  end.
Proof.
  induction d as [|[k0 v0] d IH]; simpl; [reflexivity|].
  destruct (keqb_spec k k0) as [->|Hne]; simpl; [reflexivity|].
  rewrite IH. destruct (Py.get keqb k d); reflexivity.
Qed.

Lemma NoDup_keys_set (k : K) (v : V) (d : Py.dict K V) :
  NoDup (Py.keys d) -> NoDup (Py.keys (Py.set keqb k v d)).
Proof.
  intros Hnd. rewrite keys_set.
  destruct (Py.get keqb k d) eqn:E; [assumption|].
  apply get_None_keys in E.
  apply NoDup_rev in Hnd. rewrite <- (rev_involutive (_ ++ _)%list).
  apply NoDup_rev. rewrite rev_app_distr. simpl. constructor; [|assumption].
  now rewrite <- in_rev.
Qed.

Lemma In_get (k : K) (v : V) (d : Py.dict K V) :
  NoDup (Py.keys d) -> In (k, v) d -> Py.get keqb k d = Some v.
Proof.
  induction d as [|[k0 v0] d IH]; simpl; [tauto|].
  intros Hnd [E|Hin].
  - inversion E; subst. destruct (keqb_spec k k); congruence.
  - inversion Hnd as [|? ? Hnotin Hnd']; subst.
    destruct (keqb_spec k k0) as [->|Hne].
    + exfalso. apply Hnotin. change k0 with (fst (k0, v)). now apply in_map.
    + now apply IH.
Qed.

Lemma get_In (k : K) (v : V) (d : Py.dict K V) :
  Py.get keqb k d = Some v -> In (k, v) d.
Proof.
  induction d as [|[k0 v0] d IH]; simpl; [discriminate|].
  destruct (keqb_spec k k0) as [->|Hne].
  - intros [= ->]. now left.
  - intros H. right. now apply IH.
Qed.
End DictFacts.

(** ** The aggregation *)

Section Aggregation.
Variable fs0 : FileSystem.

Lemma get_append_audio (k k' : Key) (audio : Audio) (m : WordAudioMap) :
  Py.get key_eqb k (append_audio m k' audio) =
  if key_eqb k k'
  then Some (get_default (Py.get key_eqb k m) [] ++ [audio])%list
  else Py.get key_eqb k m.
Proof.
  unfold append_audio. rewrite (get_set _ _ _ key_eqb_spec).
  destruct (key_eqb_spec k k') as [->|]; reflexivity.
Qed.

Lemma get_aggregate_from (k : Key) (lines : list Line) (m : WordAudioMap) :
  Py.get key_eqb k (fold_left (aggregate_line fs0) lines m) =
  extend (Py.get key_eqb k m) (records_for fs0 k lines).
Proof.
  revert m. induction lines as [|line lines IH]; intros m; simpl.
  - destruct (Py.get key_eqb k m); simpl; [now rewrite app_nil_r | reflexivity].
  - rewrite IH. unfold aggregate_line.
    destruct (process_line fs0 line) as [[k' audio]|]; simpl; [|reflexivity].
    rewrite get_append_audio.
    destruct (key_eqb k k'); simpl; [|reflexivity].
    destruct (Py.get key_eqb k m) as [l|]; simpl.
    + rewrite <- app_assoc. simpl.
      destruct (l ++ [audio])%list eqn:E; [now destruct l|].
      reflexivity.
    + reflexivity.
Qed.

Lemma get_aggregate (k : Key) (lines : list Line) :
  Py.get key_eqb k (aggregate fs0 lines) =
  match records_for fs0 k lines with
  | [] => None
  | records => Some records
  end.
Proof.
  unfold aggregate. rewrite get_aggregate_from. simpl.
  destruct (records_for fs0 k lines); reflexivity.
Qed.

Lemma NoDup_keys_aggregate_from (lines : list Line) (m : WordAudioMap) :
  NoDup (Py.keys m) -> NoDup (Py.keys (fold_left (aggregate_line fs0) lines m)).
Proof.
  revert m. induction lines as [|line lines IH]; intros m Hnd; simpl; [assumption|].
  apply IH. unfold aggregate_line.
  destruct (process_line fs0 line) as [[k' audio]|]; [|assumption].
  apply NoDup_keys_set; [apply key_eqb_spec | assumption].
Qed.

Lemma NoDup_keys_aggregate (lines : list Line) :
  NoDup (Py.keys (aggregate fs0 lines)).
Proof. apply NoDup_keys_aggregate_from. constructor. Qed.

(** A group of the map is the list of the records of its key: it is
    created by the first of them, so it is never empty. *)
Lemma In_aggregate (k : Key) (records : list Audio) (lines : list Line) :
  In (k, records) (aggregate fs0 lines) <->
  records = records_for fs0 k lines /\ records <> [].
Proof.
  split.
  - intros Hin.
    apply (In_get _ _ _ key_eqb_spec) in Hin; [|apply NoDup_keys_aggregate].
    rewrite get_aggregate in Hin.
    destruct (records_for fs0 k lines); [discriminate|].
    inversion Hin; subst. split; [reflexivity | discriminate].
  - intros [-> Hne]. apply (get_In _ _ _ key_eqb_spec).
    rewrite get_aggregate. destruct (records_for fs0 k lines); congruence.
Qed.
End Aggregation.

(** ** The statements of the second loop in closed form *)

Section WriteFacts.
Variable cm : CountryMappings.
Variable fs0 : FileSystem.

Lemma exec_app (a b : list Stmt) (w : Writer) :
  exec (a ++ b) w = exec b (exec a w).
Proof. apply fold_left_app. Qed.

(** A list whose records all bind is attempted and accepted whole. *)
Lemma accepted_all (audio_list : list Audio) :
  forallb binds audio_list = true ->
  accepted audio_list = audio_list /\ attempted audio_list = audio_list.
Proof.
  induction audio_list as [|a l IH]; [split; reflexivity|].
  cbn [forallb accepted attempted]. intros H. apply andb_prop in H as [Ha Hl].
  rewrite Ha. destruct (IH Hl) as [-> ->]. split; reflexivity.
Qed.

Lemma accepted_In (audio_list : list Audio) (audio : Audio) :
  In audio (accepted audio_list) -> In audio audio_list.
Proof.
  induction audio_list as [|a l IH]; cbn [accepted]; [tauto|].
  destruct (binds a); [|intros []].
  intros [->|H]; [now left | right; now apply IH].
Qed.

Lemma accepted_length (audio_list : list Audio) :
  (length (accepted audio_list) <= length audio_list)%nat.
Proof.
  induction audio_list as [|a l IH]; cbn [accepted length]; [lia|].
  destruct (binds a); cbn [length]; lia.
Qed.

Lemma completed_all (groups : WordAudioMap) :
  forallb completes groups = true -> completed groups = length groups.
Proof.
  unfold completed. induction groups as [|g groups IH]; [reflexivity|].
  cbn [forallb filter]. intros H. apply andb_prop in H as [-> H].
  cbn [length]. now rewrite IH.
Qed.

Lemma forallb_firstn (A : Type) (f : A -> bool) (n : nat) (l : list A) :
  forallb f l = true -> forallb f (firstn n l) = true.
Proof.
  revert n. induction l as [|x l IH]; intros [|n] H; try reflexivity.
  cbn [firstn forallb] in *. apply andb_prop in H as [-> H]. now rewrite IH.
Qed.

Lemma forallb_skipn (A : Type) (f : A -> bool) (n : nat) (l : list A) :
  forallb f l = true -> forallb f (skipn n l) = true.
Proof.
  revert n. induction l as [|x l IH]; intros [|n] H; try reflexivity; try exact H.
  cbn [skipn forallb] in *. apply andb_prop in H as [_ H]. now apply IH.
Qed.

(** The INSERTs of a group: the accepted records get their rows, the one
    that raises ends the list and writes nothing. *)
Lemma exec_inserts (audio_list : list Audio) (w : Writer) :
  exec (map InsertAudioFile (attempted audio_list)) w =
  mkWriter (mkConn (committed (conn w))
                   (fold_left (fun d audio => insert_audio_file d (word_id w) audio)
                              (accepted audio_list) (working (conn w))))
           (simple_conn w) (word_id w).
Proof.
  revert w. induction audio_list as [|audio rest IH]; intros w.
  - destruct w as [[c wk] s i]; reflexivity.
  - cbn [attempted accepted map].
    change (exec (?s :: ?l) w) with (exec l (exec_stmt w s)).
    cbn [exec_stmt]. destruct (binds audio).
    + rewrite IH. reflexivity.
    + destruct w as [[c wk] s i]; reflexivity.
Qed.

Lemma exec_group_stmts (group : Key * list Audio) (w : Writer) :
  exec (group_stmts cm fs0 group) w =
  mkWriter (mkConn (committed (conn w)) (write_complex cm fs0 (working (conn w)) group))
           (mkConn (committed (simple_conn w))
                   (write_simple cm fs0 (working (simple_conn w)) group))
           (words_seq (working (conn w)) + 1).
Proof.
  destruct group as [[language headword] audio_list].
  unfold group_stmts, write_simple, completes. cbn [fst snd].
  change (exec (?s :: ?l) w) with (exec l (exec_stmt w s)).
  rewrite exec_app, exec_inserts.
  destruct (forallb binds audio_list); [reflexivity|].
  destruct w as [c [sc sw] i]; reflexivity.
Qed.

Lemma exec_batch_commit (n : nat) (w : Writer) :
  exec (batch_commit n) w =
  if (n mod batch_size =? 0)%nat then commit_both w else w.
Proof.
  unfold batch_commit. destruct (n mod batch_size =? 0)%nat; reflexivity.
Qed.

(** The loop over two parts: the second part starts at the count of the
    groups of the first that completed. *)
Lemma loop_stmts_app (n : nat) (gs1 gs2 : WordAudioMap) :
  loop_stmts cm fs0 n (gs1 ++ gs2)%list =
  (loop_stmts cm fs0 n gs1 ++ loop_stmts cm fs0 (n + completed gs1) gs2)%list.
Proof.
  unfold completed. revert n. induction gs1 as [|g gs1 IH]; intros n.
  - cbn [app loop_stmts filter length]. now rewrite Nat.add_0_r.
  - cbn [app loop_stmts filter]. destruct (completes g); cbn [length].
    + rewrite IH, <- !app_assoc.
      replace (n + S (length (filter completes gs1)))%nat
        with (S n + length (filter completes gs1))%nat by lia.
      reflexivity.
    + rewrite IH, <- !app_assoc. reflexivity.
Qed.

(** The working images after the loop: every group is staged, in order. *)
Lemma working_loop (n : nat) (groups : WordAudioMap) (w : Writer) :
  working (conn (exec (loop_stmts cm fs0 n groups) w)) =
    fold_left (write_complex cm fs0) groups (working (conn w)) /\
  working (simple_conn (exec (loop_stmts cm fs0 n groups) w)) =
    fold_left (write_simple cm fs0) groups (working (simple_conn w)).
Proof.
  revert n w. induction groups as [|g groups IH]; intros n w; cbn [loop_stmts fold_left].
  - split; reflexivity.
  - destruct (completes g).
    + rewrite !exec_app, exec_group_stmts, exec_batch_commit.
      destruct (S n mod batch_size =? 0)%nat;
        match goal with |- context [exec (loop_stmts _ _ _ _) ?w'] =>
          destruct (IH (S n) w') as [H1 H2]; rewrite H1, H2 end;
        split; reflexivity.
    + rewrite !exec_app, exec_group_stmts.
      match goal with |- context [exec (loop_stmts _ _ _ _) ?w'] =>
        destruct (IH n w') as [H1 H2]; rewrite H1, H2 end.
      split; reflexivity.
Qed.

(** The committed images after a loop of groups that all complete and
    whose last iteration ends a batch: they are the working images. *)
Lemma committed_loop_batch (groups : WordAudioMap) (w : Writer) :
  forallb completes groups = true ->
  groups <> [] -> (length groups mod batch_size = 0)%nat ->
  committed (conn (exec (loop_stmts cm fs0 0 groups) w)) =
    fold_left (write_complex cm fs0) groups (working (conn w)) /\
  committed (simple_conn (exec (loop_stmts cm fs0 0 groups) w)) =
    fold_left (write_simple cm fs0) groups (working (simple_conn w)).
Proof.
  intros Hall Hne Hmod.
  destruct (exists_last Hne) as [front [g ->]].
  rewrite forallb_app in Hall. apply andb_prop in Hall as [Hf Hg].
  cbn [forallb] in Hg. rewrite andb_true_r in Hg.
  rewrite loop_stmts_app, exec_app. cbn [loop_stmts]. rewrite Hg.
  rewrite app_nil_r, exec_app, exec_group_stmts, exec_batch_commit.
  rewrite (completed_all _ Hf).
  rewrite length_app in Hmod. cbn [length] in Hmod.
  replace (S (0 + length front)) with (length front + 1)%nat by lia.
  rewrite Hmod, Nat.eqb_refl.
  destruct (working_loop 0 front w) as [H1 H2].
  rewrite !fold_left_app. unfold commit_both, commit.
  cbn [conn simple_conn committed working fold_left].
  rewrite H1, H2. split; reflexivity.
Qed.

Lemma closed_write_stmts (groups : WordAudioMap) (w : Writer) :
  closed (exec (write_stmts cm fs0 groups) w) =
  mkStores (Some (fold_left (write_complex cm fs0) groups (working (conn w))))
           (Some (fold_left (write_simple cm fs0) groups (working (simple_conn w)))).
Proof.
  unfold write_stmts. rewrite exec_app.
  destruct (working_loop 0 groups w) as [H1 H2].
  unfold closed, close. simpl. rewrite H1, H2. reflexivity.
Qed.
End WriteFacts.

(** ** Tables with a UNIQUE key *)

Section Table.
Variable R : Type.
Variable key : R -> Key.

Lemma find_app_sum (f : R -> bool) (l1 l2 : list R) :
  find f (l1 ++ l2) =
  match find f l1 with Some x => Some x | None => find f l2 end.
Proof.
  induction l1 as [|x l1 IH]; simpl; [reflexivity|].
  destruct (f x); [reflexivity | exact IH].
Qed.

Lemma lookup_filter_other (k k' : Key) (rows : list R) :
  k' <> k ->
  lookup key k' (filter (fun r => negb (key_eqb (key r) k)) rows) = lookup key k' rows.
Proof.
  intros Hne. unfold lookup. induction rows as [|r rows IH]; simpl; [reflexivity|].
  destruct (key_eqb_spec (key r) k) as [E|E]; simpl.
  - rewrite (key_eqb_neq (key r) k') by congruence. exact IH.
  - destruct (key_eqb (key r) k'); [reflexivity | exact IH].
Qed.

Lemma lookup_filter_same (k : Key) (rows : list R) :
  lookup key k (filter (fun r => negb (key_eqb (key r) k)) rows) = None.
Proof.
  unfold lookup. induction rows as [|r rows IH]; simpl; [reflexivity|].
  destruct (key_eqb (key r) k) eqn:E; simpl; [exact IH|].
  rewrite E. exact IH.
Qed.

Lemma lookup_upsert_same (k : Key) (new : R) (rows : list R) :
  key new = k -> lookup key k (upsert key k new rows) = Some new.
Proof.
  intros Hk. unfold upsert. unfold lookup at 1. rewrite find_app_sum.
  fold (lookup key k (filter (fun r => negb (key_eqb (key r) k)) rows)).
  rewrite lookup_filter_same. simpl. now rewrite Hk, key_eqb_refl.
Qed.

Lemma lookup_upsert_other (k k' : Key) (new : R) (rows : list R) :
  key new = k -> k' <> k -> lookup key k' (upsert key k new rows) = lookup key k' rows.
Proof.
  intros Hk Hne. unfold upsert. unfold lookup at 1. rewrite find_app_sum.
  fold (lookup key k' (filter (fun r => negb (key_eqb (key r) k)) rows)).
  rewrite lookup_filter_other by assumption.
  destruct (lookup key k' rows); [reflexivity|].
  simpl. rewrite Hk, (key_eqb_neq k k') by congruence. reflexivity.
Qed.

Lemma In_upsert (k : Key) (new r : R) (rows : list R) :
  In r (upsert key k new rows) -> r = new \/ (In r rows /\ key r <> k).
Proof.
  unfold upsert. rewrite in_app_iff, filter_In. simpl.
  intros [[Hin Hk]|[E|[]]]; [right | left; congruence].
  split; [assumption|]. destruct (key_eqb_spec (key r) k); [discriminate | assumption].
Qed.

Lemma NoDup_upsert (k : Key) (new : R) (rows : list R) :
  key new = k -> NoDup (map key rows) -> NoDup (map key (upsert key k new rows)).
Proof.
  intros Hk Hnd. unfold upsert. rewrite map_app. apply NoDup_app.
  - clear Hk. induction rows as [|r rows IH]; simpl; [constructor|].
    inversion Hnd as [|? ? Hnotin Hnd']; subst.
    destruct (key_eqb (key r) k); simpl; [now apply IH|].
    constructor; [|now apply IH].
    intros Hin. apply Hnotin. apply in_map_iff in Hin as [x [Hx Hin]].
    apply filter_In in Hin as [Hin _]. apply in_map_iff. now exists x.
  - simpl. constructor; [tauto | constructor].
  - intros a Hin [E|[]]. apply in_map_iff in Hin as [x [Hx Hin]].
    apply filter_In in Hin as [_ Hf].
    destruct (key_eqb_spec (key x) k); [discriminate | congruence].
Qed.

Lemma lookup_Some (k : Key) (r : R) (rows : list R) :
  lookup key k rows = Some r -> In r rows /\ key r = k.
Proof.
  intros H. apply find_some in H as [Hin Hk]. split; [assumption|].
  destruct (key_eqb_spec (key r) k); [assumption | discriminate].
Qed.

Lemma lookup_In (r : R) (rows : list R) :
  NoDup (map key rows) -> In r rows -> lookup key (key r) rows = Some r.
Proof.
  unfold lookup. induction rows as [|x rows IH]; simpl; [tauto|].
  intros Hnd [->|Hin].
  - now rewrite key_eqb_refl.
  - inversion Hnd as [|? ? Hnotin Hnd']; subst.
    destruct (key_eqb_spec (key x) (key r)) as [E|E].
    + exfalso. apply Hnotin. rewrite E. now apply in_map.
    + now apply IH.
Qed.
End Table.

(** ** The complex store: rows and their children *)

Lemma well_formed_empty : well_formed empty_complex.
Proof. split; simpl; constructor. Qed.

Lemma fold_insert_audio_file (id : Z) (audio_list : list Audio) (db : ComplexDb) :
  exists rows,
    fold_left (fun d audio => insert_audio_file d id audio) audio_list db =
      mkComplexDb (words db) (words_seq db) (audio_files db ++ rows)
                  (audio_files_seq db + Z.of_nat (length audio_list)) /\
    map a_audio rows = audio_list /\
    Forall (fun a => a_word_id a = id) rows.
Proof.
  revert db. induction audio_list as [|audio rest IH]; intros db.
  - exists []. simpl. rewrite app_nil_r, Z.add_0_r. destruct db; repeat split. constructor.
  - destruct (IH (insert_audio_file db id audio)) as [rows [E [Hm Hf]]].
    exists (mkAudioRow (audio_files_seq db + 1) id audio :: rows).
    cbn [fold_left]. rewrite E. cbn [insert_audio_file words words_seq audio_files audio_files_seq].
    rewrite <- app_assoc. cbn [app length map].
    repeat split.
    + f_equal. lia.
    + now rewrite Hm.
    + constructor; [reflexivity | assumption].
Qed.

Section StoreFacts.
Variable cm : CountryMappings.
Variable fs0 : FileSystem.

Lemma write_complex_shape (db : ComplexDb) (group : Key * list Audio) :
  exists rows,
    write_complex cm fs0 db group =
      mkComplexDb (upsert word_key (fst group) (word_row cm fs0 (words_seq db + 1) group) (words db))
                  (words_seq db + 1) (audio_files db ++ rows)
                  (audio_files_seq db + Z.of_nat (length (accepted (snd group)))) /\
    map a_audio rows = accepted (snd group) /\
    Forall (fun a => a_word_id a = (words_seq db + 1)%Z) rows.
Proof.
  destruct group as [[language headword] audio_list]. unfold write_complex.
  cbn [fst snd insert_or_replace_word].
  match goal with |- context [fold_left _ _ ?d] =>
    destruct (fold_insert_audio_file (words_seq db + 1) (accepted audio_list) d)
      as [rows [E [Hm Hf]]] end.
  exists rows. rewrite E. repeat split; assumption.
Qed.

Lemma write_complex_wf (db : ComplexDb) (group : Key * list Audio) :
  well_formed db -> well_formed (write_complex cm fs0 db group).
Proof.
  intros [Hu Hw Hp].
  destruct (write_complex_shape db group) as [rows [-> [_ Hf]]].
  split; cbn [words words_seq audio_files].
  - apply NoDup_upsert; [|assumption]. destruct group as [[l h] al]; reflexivity.
  - apply Forall_forall. intros r Hin.
    apply In_upsert in Hin as [->|[Hin _]]; [simpl; lia|].
    rewrite Forall_forall in Hw. specialize (Hw r Hin). simpl in Hw. lia.
  - apply Forall_app; split.
    + eapply Forall_impl; [|exact Hp]. simpl. intros; lia.
    + eapply Forall_impl; [|exact Hf]. simpl. intros; lia.
Qed.

Lemma children_of_old (db : ComplexDb) (rows : list AudioRow) (id fresh : Z)
    (ws : list WordRow) (s1 s2 : Z) :
  Forall (fun a => a_word_id a = fresh) rows -> id <> fresh ->
  children_of (mkComplexDb ws s1 (audio_files db ++ rows) s2) id = children_of db id.
Proof.
  intros Hf Hne. unfold children_of. cbn [audio_files].
  rewrite filter_app, map_app.
  replace (filter _ rows) with (@nil AudioRow); [now rewrite app_nil_r|].
  symmetry. induction Hf as [|a rows Ha _ IH]; simpl; [reflexivity|].
  rewrite Ha. destruct (Z.eqb_spec fresh id); [congruence | exact IH].
Qed.

Lemma children_of_new (db : ComplexDb) (rows : list AudioRow) (fresh : Z)
    (ws : list WordRow) (s1 s2 : Z) :
  Forall (fun a => (a_word_id a <= words_seq db)%Z) (audio_files db) ->
  Forall (fun a => a_word_id a = fresh) rows -> (words_seq db < fresh)%Z ->
  children_of (mkComplexDb ws s1 (audio_files db ++ rows) s2) fresh = map a_audio rows.
Proof.
  intros Hp Hf Hlt. unfold children_of. cbn [audio_files].
  rewrite filter_app, map_app.
  replace (filter _ (audio_files db)) with (@nil AudioRow).
  - simpl. f_equal. induction Hf as [|a rows Ha _ IH]; simpl; [reflexivity|].
    rewrite Ha, Z.eqb_refl. now rewrite IH.
  - symmetry. induction Hp as [|a l Ha _ IH]; simpl; [reflexivity|].
    destruct (Z.eqb_spec (a_word_id a) fresh); [lia | exact IH].
Qed.

(** The row of the group just written, and its children: the records
    accepted before an INSERT raised. *)
Lemma write_complex_same (db : ComplexDb) (group : Key * list Audio) :
  well_formed db ->
  find_word (write_complex cm fs0 db group) (fst group) =
    Some (word_row cm fs0 (words_seq db + 1) group) /\
  children (write_complex cm fs0 db group) (fst group) = accepted (snd group).
Proof.
  intros [Hu Hw Hp].
  destruct (write_complex_shape db group) as [rows [E [Hm Hf]]].
  assert (Hfind : find_word (write_complex cm fs0 db group) (fst group) =
                  Some (word_row cm fs0 (words_seq db + 1) group)).
  { rewrite E. unfold find_word. cbn [words].
    apply lookup_upsert_same. destruct group as [[l h] al]; reflexivity. }
  split; [exact Hfind|].
  unfold children. rewrite Hfind. rewrite E. cbn [w_id word_row].
  rewrite (@children_of_new db rows (words_seq db + 1) _ _ _ Hp Hf) by lia. exact Hm.
Qed.

Lemma write_complex_other (db : ComplexDb) (group : Key * list Audio) (k : Key) :
  well_formed db -> k <> fst group ->
  find_word (write_complex cm fs0 db group) k = find_word db k /\
  children (write_complex cm fs0 db group) k = children db k.
Proof.
  intros [Hu Hw Hp] Hne.
  destruct (write_complex_shape db group) as [rows [E [Hm Hf]]].
  assert (Hfind : find_word (write_complex cm fs0 db group) k = find_word db k).
  { rewrite E. unfold find_word. cbn [words].
    apply lookup_upsert_other; [|assumption].
    destruct group as [[l h] al]; reflexivity. }
  split; [exact Hfind|].
  unfold children. rewrite Hfind.
  destruct (find_word db k) as [r|] eqn:Er; [|reflexivity].
  rewrite E. apply (@children_of_old db rows _ (words_seq db + 1) _ _ _ Hf).
  apply lookup_Some in Er as [Hin _].
  rewrite Forall_forall in Hw. specialize (Hw r Hin). simpl in Hw. lia.
Qed.

Lemma write_complex_audio (db : ComplexDb) (group : Key * list Audio) :
  map a_audio (audio_files (write_complex cm fs0 db group)) =
  (map a_audio (audio_files db) ++ accepted (snd group))%list.
Proof.
  destruct (write_complex_shape db group) as [rows [-> [Hm _]]].
  cbn [audio_files]. now rewrite map_app, Hm.
Qed.

(** *** All the groups of a loop *)

Lemma written_wf (groups : WordAudioMap) (db : ComplexDb) :
  well_formed db -> well_formed (fold_left (write_complex cm fs0) groups db).
Proof.
  revert db. induction groups as [|g groups IH]; intros db Hwf; simpl; [assumption|].
  apply IH. now apply write_complex_wf.
Qed.

Lemma written_other (groups : WordAudioMap) (db : ComplexDb) (k : Key) :
  well_formed db -> ~ In k (Py.keys groups) ->
  find_word (fold_left (write_complex cm fs0) groups db) k = find_word db k /\
  children (fold_left (write_complex cm fs0) groups db) k = children db k.
Proof.
  revert db. induction groups as [|g groups IH]; intros db Hwf Hnotin; simpl.
  - split; reflexivity.
  - simpl in Hnotin.
    destruct (IH (write_complex cm fs0 db g)) as [H1 H2];
      [now apply write_complex_wf | tauto |].
    destruct (@write_complex_other db g k Hwf) as [H3 H4];
      [intros ->; tauto |].
    rewrite H1, H2, H3, H4. split; reflexivity.
Qed.

(** The row of a written group and the records attached to it. *)
Lemma written_group (groups : WordAudioMap) (db : ComplexDb) (group : Key * list Audio) :
  well_formed db -> NoDup (Py.keys groups) -> In group groups ->
  (exists id, find_word (fold_left (write_complex cm fs0) groups db) (fst group) = Some (word_row cm fs0 id group)) /\
  children (fold_left (write_complex cm fs0) groups db) (fst group) = accepted (snd group).
Proof.
  revert db. induction groups as [|g groups IH]; intros db Hwf Hnd Hin; [destruct Hin|].
  inversion Hnd as [|? ? Hnotin Hnd']; subst. cbn [fold_left].
  destruct Hin as [->|Hin].
  - destruct (@written_other groups _ (fst group) (@write_complex_wf db group Hwf) Hnotin)
      as [H1 H2].
    destruct (@write_complex_same db group Hwf) as [H3 H4].
    rewrite H1, H2, H3, H4. split; [eexists|]; reflexivity.
  - apply IH; [now apply write_complex_wf | assumption | assumption].
Qed.

Lemma written_rows (groups : WordAudioMap) (db : ComplexDb) (r : WordRow) :
  In r (words (fold_left (write_complex cm fs0) groups db)) ->
  In r (words db) \/ In (word_key r) (Py.keys groups).
Proof.
  revert db. induction groups as [|g groups IH]; intros db Hin; simpl in *; [now left|].
  apply IH in Hin as [Hin|Hin]; [|now right; right].
  destruct (write_complex_shape db g) as [rows [E _]].
  rewrite E in Hin. cbn [words] in Hin.
  apply In_upsert in Hin as [->|[Hin _]]; [|now left].
  right; left. destruct g as [[l h] al]; reflexivity.
Qed.

Lemma written_audio (groups : WordAudioMap) (db : ComplexDb) :
  map a_audio (audio_files (fold_left (write_complex cm fs0) groups db)) =
  (map a_audio (audio_files db) ++ concat (map (fun g => accepted (snd g)) groups))%list.
Proof.
  revert db. induction groups as [|g groups IH]; intros db; simpl.
  - now rewrite app_nil_r.
  - rewrite IH, write_complex_audio, <- app_assoc. reflexivity.
Qed.

(** Groups that all complete have every record accepted. *)
Lemma accepted_groups (groups : WordAudioMap) :
  forallb completes groups = true ->
  concat (map (fun g => accepted (snd g)) groups) = concat (map snd groups).
Proof.
  induction groups as [|g groups IH]; [reflexivity|].
  cbn [forallb map concat]. intros H. apply andb_prop in H as [Hg H].
  rewrite (IH H). now destruct (accepted_all _ Hg) as [-> _].
Qed.

(** *** The simple store *)

Lemma write_simple_shape (db : SimpleDb) (group : Key * list Audio) :
  completes group = true ->
  write_simple cm fs0 db group =
  mkSimpleDb (upsert mdx_key (fst group) (mdx_row cm fs0 (mdx_seq db + 1) group) (mdx db))
             (mdx_seq db + 1).
Proof.
  intros H. unfold write_simple. rewrite H. destruct group as [[l h] al]; reflexivity.
Qed.

(** A group one of whose INSERTs raised leaves the simple store alone. *)
Lemma write_simple_raised (db : SimpleDb) (group : Key * list Audio) :
  completes group = false -> write_simple cm fs0 db group = db.
Proof. intros H. unfold write_simple. now rewrite H. Qed.

Lemma mirrored_unique (groups : WordAudioMap) (db : SimpleDb) :
  NoDup (map mdx_key (mdx db)) -> NoDup (map mdx_key (mdx (fold_left (write_simple cm fs0) groups db))).
Proof.
  revert db. induction groups as [|g groups IH]; intros db Hnd; simpl; [assumption|].
  apply IH. destruct (completes g) eqn:C.
  - rewrite (write_simple_shape _ _ C). cbn [mdx].
    apply NoDup_upsert; [|assumption]. destruct g as [[l h] al]; reflexivity.
  - now rewrite (write_simple_raised _ _ C).
Qed.

Lemma write_simple_other (db : SimpleDb) (group : Key * list Audio) (k : Key) :
  k <> fst group -> find_mdx (write_simple cm fs0 db group) k = find_mdx db k.
Proof.
  intros Hne. destruct (completes group) eqn:C.
  - rewrite (write_simple_shape _ _ C). unfold find_mdx. cbn [mdx].
    apply lookup_upsert_other; [destruct group as [[l h] al]; reflexivity | exact Hne].
  - now rewrite (write_simple_raised _ _ C).
Qed.

Lemma mirrored_other (groups : WordAudioMap) (db : SimpleDb) (k : Key) :
  ~ In k (Py.keys groups) -> find_mdx (fold_left (write_simple cm fs0) groups db) k = find_mdx db k.
Proof.
  revert db. induction groups as [|g groups IH]; intros db Hnotin; simpl; [reflexivity|].
  simpl in Hnotin. rewrite IH by tauto.
  apply write_simple_other. intros ->; tauto.
Qed.

Lemma mirrored_group (groups : WordAudioMap) (db : SimpleDb) (group : Key * list Audio) :
  NoDup (Py.keys groups) -> In group groups -> completes group = true ->
  exists id, find_mdx (fold_left (write_simple cm fs0) groups db) (fst group) = Some (mdx_row cm fs0 id group).
Proof.
  revert db. induction groups as [|g groups IH]; intros db Hnd Hin C; [destruct Hin|].
  inversion Hnd as [|? ? Hnotin Hnd']; subst. cbn [fold_left].
  destruct Hin as [->|Hin]; [|now apply IH].
  rewrite mirrored_other by assumption.
  rewrite (write_simple_shape _ _ C). unfold find_mdx. cbn [mdx].
  eexists. apply lookup_upsert_same. destruct group as [[l h] al]; reflexivity.
Qed.

(** A key none of whose groups completes keeps the [mdx] row it had, or
    none. *)
Lemma mirrored_never (groups : WordAudioMap) (db : SimpleDb) (k : Key) :
  (forall g, In g groups -> fst g = k -> completes g = false) ->
  find_mdx (fold_left (write_simple cm fs0) groups db) k = find_mdx db k.
Proof.
  revert db. induction groups as [|g groups IH]; intros db H; [reflexivity|].
  cbn [fold_left]. rewrite IH by (intros g' Hin; apply H; now right).
  destruct (key_eqb_spec k (fst g)) as [E|Hne].
  - rewrite write_simple_raised; [reflexivity|]. apply H; [now left | now symmetry].
  - now apply write_simple_other.
Qed.

(** The key of a group whose iteration raised keeps the [mdx] row it had,
    or none. *)
Lemma mirrored_raised (groups : WordAudioMap) (db : SimpleDb) (group : Key * list Audio) :
  NoDup (Py.keys groups) -> In group groups -> completes group = false ->
  find_mdx (fold_left (write_simple cm fs0) groups db) (fst group) = find_mdx db (fst group).
Proof.
  revert db. induction groups as [|g groups IH]; intros db Hnd Hin C; [destruct Hin|].
  inversion Hnd as [|? ? Hnotin Hnd']; subst. cbn [fold_left].
  destruct Hin as [->|Hin].
  - rewrite mirrored_other by assumption. now rewrite (write_simple_raised _ _ C).
  - rewrite (IH _ Hnd' Hin C). apply write_simple_other.
    intros E. apply Hnotin. rewrite <- E. unfold Py.keys. now apply in_map.
Qed.

Lemma mirrored_rows (groups : WordAudioMap) (db : SimpleDb) (r : MdxRow) :
  In r (mdx (fold_left (write_simple cm fs0) groups db)) ->
  In r (mdx db) \/
  exists g, In g groups /\ completes g = true /\ fst g = mdx_key r.
Proof.
  revert db. induction groups as [|g groups IH]; intros db Hin; simpl in *; [now left|].
  apply IH in Hin as [Hin|[g' [Hg [C E]]]]; [|right; exists g'; tauto].
  destruct (completes g) eqn:C.
  - rewrite (write_simple_shape _ _ C) in Hin. cbn [mdx] in Hin.
    apply In_upsert in Hin as [->|[Hin _]]; [|now left].
    right. exists g. split; [now left|]. split; [exact C|].
    destruct g as [[l h] al]; reflexivity.
  - rewrite (write_simple_raised _ _ C) in Hin. now left.
Qed.
End StoreFacts.

(** ** The run as a whole *)

Lemma run_completed (inp : Input) (lines : list Line) (st : Stores) :
  layout_ok inp = true -> metadata_file inp = Some lines ->
  run inp st = (Completed, stores_after inp lines st).
Proof.
  unfold layout_ok, run, run_signal, audio_dir_exists.
  intros Hl Hm. apply andb_prop in Hl as [Hr Hi].
  rewrite Hr, Hi, Hm. cbn [negb]. unfold process_metadata_stmts.
  rewrite closed_write_stmts. reflexivity.
Qed.

(* ------------------------------------------------------------------ *)
(** ** Origin extraction *)

Lemma extract_origin_by_length (origin : list string) :
  extract_origin origin = origin_table origin.
Proof. destruct origin as [|u [|g [|c rest]]]; reflexivity. Qed.

(** C6.  The triple (username, gender, country) of a record is read from
    the [origin] list by position: an empty or absent list gives
    ("unknown", "", ""), one element gives the username, two give username
    and gender, three or more give all three and the rest is ignored. *)
Theorem origin_fallback_table :
  (forall origin, extract_origin origin = origin_table origin) /\
  (forall fs0 entry key audio,
      process_entry fs0 entry = Some (key, audio) ->
      (username audio, gender audio, country audio) =
      origin_table (get_default (e_origin entry) [])).
Proof.
  split; [exact extract_origin_by_length|].
  intros fs0 entry key audio. unfold process_entry.
  destruct (negb _ || negb _); [discriminate|].
  rewrite <- extract_origin_by_length.
  destruct (extract_origin (get_default (e_origin entry) [])) as [[u g] c].
  destruct (check_audio_file_exists _ _ _ _); [|discriminate].
  intros [= <- <-]. reflexivity.
Qed.

Lemma origin_fallback_table_witness :
  process_entry every_file carol_entry =
    Some (("en", "cat"), mkAudio "carol" "" "" 0 "en/carol/cat.opus" "" 0) /\
  ("carol", "", "") = origin_table (get_default (e_origin carol_entry) []).
Proof.
  split; [reflexivity|].
  exact (proj2 origin_fallback_table every_file carol_entry ("en", "cat")
               (mkAudio "carol" "" "" 0 "en/carol/cat.opus" "" 0) eq_refl).
Defined.

(* ------------------------------------------------------------------ *)
(** ** Icon resolution *)

(** C5 as stated fails: for a record without gender the code tries
    [fr.svg] before [_fr.svg]. *)
Lemma icon_priority_counterexample :
  get_icon_path france_only two_french_icons "" "France" = Some "icons/fr.svg" /\
  resolve_as_specified france_only two_french_icons "" "France" = Some "icons/_fr.svg" /\
  get_icon_path france_only two_french_icons "" "France" <>
  resolve_as_specified france_only two_french_icons "" "France".
Proof. repeat split. discriminate. Qed.

Section AnyLower.
Variable lower : string -> string.

Lemma normalize_gender_cases (gender : string) :
  normalize_gender lower gender = "male" \/ normalize_gender lower gender = "female" \/
  normalize_gender lower gender = "".
Proof.
  unfold normalize_gender, Py.str_in. cbn [existsb].
  destruct (Py.truthy gender); cbn [andb]; [|now right; right].
  destruct (String.eqb_spec (lower gender) "male") as [->|_]; [now left|].
  destruct (String.eqb_spec (lower gender) "female") as [->|_]; [now right; left|].
  now right; right.
Qed.

Lemma gender_prefix_normal (gender : string) :
  Generic.gender_prefix lower gender =
  if String.eqb (normalize_gender lower gender) "" then ""
  else normalize_gender lower gender ++ "_".
Proof.
  unfold Generic.gender_prefix, normalize_gender.
  destruct (Py.truthy gender && Py.str_in (lower gender) ["male"; "female"]) eqn:E;
    [|reflexivity].
  apply andb_prop in E as [_ E]. unfold Py.str_in in E. cbn [existsb] in E. revert E.
  destruct (String.eqb_spec (lower gender) "male") as [->|_]; [intros _; reflexivity|].
  destruct (String.eqb_spec (lower gender) "female") as [->|_]; [intros _; reflexivity|].
  cbn. intros E. discriminate E.
Qed.

Lemma get_load_from (k : string) (ms : list Mapping) (d : CountryMappings) :
  Py.get String.eqb k
    (fold_left (fun country_lookup mapping =>
                  Py.set String.eqb (lower (original_name mapping)) mapping country_lookup)
               ms d) =
  match find (fun m => String.eqb (lower (original_name m)) k) (rev ms) with
  | Some m => Some m
  | None => Py.get String.eqb k d
  end.
Proof.
  revert d. induction ms as [|m ms IH]; intros d; simpl; [reflexivity|].
  rewrite IH, find_app_sum.
  destruct (find _ (rev ms)); [reflexivity|].
  rewrite (get_set _ _ _ String.eqb_spec). simpl.
  rewrite (String.eqb_sym k). destruct (String.eqb _ k); reflexivity.
Qed.
End AnyLower.

(** C5, amended.  Whatever [str.lower] does to a text, here the function
    [lower]: the gender is normalized to "male", "female" or empty, the
    country is looked up by its lowercased name among the lowercased names
    of the mappings (the last mapping of a name wins, no mapping: no
    icon), and the first existing file among three candidates is returned
    below [icons/]: [{gender}_{iso}.svg] when the gender is male or female
    and [{iso}.svg] otherwise, then [_{iso}.svg], then [{iso}.svg]; no
    existing candidate: no icon. *)
Theorem icon_resolution_priority (lower : string -> string) (file : MappingsFile)
    (fs0 : FileSystem) (gender country : string) :
  let cm := Generic.load_country_mappings lower file in
  let g := normalize_gender lower gender in
  (g = "male" \/ g = "female" \/ g = "") /\
  Py.get String.eqb (lower country) cm =
    match file with
    | MappingsLoaded mappings =>
        find (fun m => String.eqb (lower (original_name m)) (lower country))
             (rev mappings)
    | _ => None
    end /\
  Generic.get_icon_path lower cm fs0 gender country =
    match Py.get String.eqb (lower country) cm with
    | None => None
    | Some country_info =>
        let iso := fmt_iso (iso_code country_info) in
        let first := if String.eqb g "" then iso ++ ".svg" else g ++ "_" ++ iso ++ ".svg" in
        if icon_exists fs0 first then Some ("icons/" ++ first)
        else if icon_exists fs0 ("_" ++ iso ++ ".svg") then Some ("icons/" ++ "_" ++ iso ++ ".svg")
        else if icon_exists fs0 (iso ++ ".svg") then Some ("icons/" ++ iso ++ ".svg")
        else None
    end.
Proof.
  intros cm g. split; [apply normalize_gender_cases|]. split.
  - subst cm. destruct file as [| |mappings]; try reflexivity.
    unfold Generic.load_country_mappings. rewrite get_load_from.
    destruct (find _ (rev mappings)); reflexivity.
  - unfold Generic.get_icon_path.
    destruct (Py.get String.eqb (lower country) cm) as [info|]; [|reflexivity].
    unfold Generic.icon_patterns. rewrite gender_prefix_normal. fold g.
    cbn [find].
    replace ((if String.eqb g "" then "" else g ++ "_") ++ fmt_iso (iso_code info) ++ ".svg")
      with (if String.eqb g "" then fmt_iso (iso_code info) ++ ".svg"
            else g ++ "_" ++ fmt_iso (iso_code info) ++ ".svg")
      by (destruct (String.eqb g ""); [reflexivity | now rewrite append_assoc]).
    cbv zeta.
    repeat match goal with |- context [icon_exists fs0 ?p] =>
      destruct (icon_exists fs0 p); try reflexivity end.
Qed.

(* ------------------------------------------------------------------ *)
(** ** Rendering order *)

Section SortedFacts.
Variable A : Type.
Variable key : A -> Z.

Let same (v : Z) (a : A) : bool := (key a =? v)%Z.
Let le (a b : A) : Prop := (key a <= key b)%Z.
Let ge (a b : A) : Prop := (key a >= key b)%Z.

Lemma insert_same (v : Z) (x : A) (l : list A) :
  filter (same v) (Py.insert key x l) = filter (same v) (x :: l).
Proof.
  induction l as [|y l IH]; [reflexivity|].
  cbn [Py.insert]. destruct (Z.leb_spec (key x) (key y)) as [Hle|Hgt]; [reflexivity|].
  cbn [filter] in *. rewrite IH. unfold same.
  destruct (Z.eqb_spec (key x) v), (Z.eqb_spec (key y) v); try reflexivity. lia.
Qed.

Lemma sort_forward_same (v : Z) (l : list A) :
  filter (same v) (Py.sort_forward key l) = filter (same v) l.
Proof.
  induction l as [|x l IH]; [reflexivity|].
  cbn [Py.sort_forward fold_right]. fold (Py.sort_forward key l).
  rewrite insert_same. cbn [filter]. now rewrite IH.
Qed.

(** Stability of the reverse sort: the elements of one key keep their
    order. *)
Lemma sorted_reverse_same (v : Z) (l : list A) :
  filter (same v) (Py.sorted key true l) = filter (same v) l.
Proof.
  unfold Py.sorted. now rewrite filter_rev, sort_forward_same, filter_rev, rev_involutive.
Qed.

Lemma insert_perm (x : A) (l : list A) : Permutation (Py.insert key x l) (x :: l).
Proof.
  induction l as [|y l IH]; [reflexivity|].
  cbn [Py.insert]. destruct (key x <=? key y)%Z; [reflexivity|].
  rewrite IH. apply perm_swap.
Qed.

Lemma sort_forward_perm (l : list A) : Permutation (Py.sort_forward key l) l.
Proof.
  induction l as [|x l IH]; [reflexivity|].
  cbn [Py.sort_forward fold_right]. fold (Py.sort_forward key l).
  rewrite insert_perm. now constructor.
Qed.

Lemma sorted_reverse_perm (l : list A) : Permutation (Py.sorted key true l) l.
Proof.
  unfold Py.sorted. rewrite <- Permutation_rev, sort_forward_perm.
  symmetry. apply Permutation_rev.
Qed.

Lemma insert_sorted (x : A) (l : list A) :
  StronglySorted le l -> StronglySorted le (Py.insert key x l).
Proof.
  induction 1 as [|y l Hs IH Hy]; cbn [Py.insert].
  - repeat constructor.
  - destruct (Z.leb_spec (key x) (key y)) as [Hle|Hgt].
    + constructor; [now constructor|]. constructor; [exact Hle|].
      eapply Forall_impl; [|exact Hy]. unfold le. intros; lia.
    + constructor; [exact IH|].
      apply (Permutation_Forall (Permutation_sym (insert_perm x l))).
      constructor; [unfold le; lia | exact Hy].
Qed.

Lemma sort_forward_sorted (l : list A) : StronglySorted le (Py.sort_forward key l).
Proof.
  induction l as [|x l IH]; [constructor|].
  cbn [Py.sort_forward fold_right]. now apply insert_sorted.
Qed.

Lemma rev_sorted (l : list A) : StronglySorted le l -> StronglySorted ge (rev l).
Proof.
  induction 1 as [|y l Hs IH Hy]; cbn [rev]; [constructor|].
  assert (G : forall m, StronglySorted ge m -> Forall (fun a => ge a y) m ->
                        StronglySorted ge (m ++ [y])).
  { induction 1 as [|z m Hm IHm Hz]; intros Hall; cbn [app].
    - repeat constructor.
    - inversion Hall; subst. constructor; [now apply IHm|].
      apply Forall_app; split; [exact Hz | repeat constructor; assumption]. }
  apply G; [exact IH|].
  apply Forall_rev. eapply Forall_impl; [|exact Hy]. unfold le, ge. intros; lia.
Qed.

Lemma sorted_reverse_descending (l : list A) :
  StronglySorted ge (Py.sorted key true l).
Proof. unfold Py.sorted. apply rev_sorted, sort_forward_sorted. Qed.

Lemma filter_sorted (R : A -> A -> Prop) (f : A -> bool) (l : list A) :
  StronglySorted R l -> StronglySorted R (filter f l).
Proof.
  induction 1 as [|y l Hs IH Hy]; cbn [filter]; [constructor|].
  destruct (f y); [|exact IH]. constructor; [exact IH|].
  apply Forall_forall. intros z Hz. apply filter_In in Hz as [Hz _].
  rewrite Forall_forall in Hy. now apply Hy.
Qed.
End SortedFacts.

Section RenderFacts.
Variable cm : CountryMappings.
Variable fs0 : FileSystem.

Lemma flat_map_render (l : list Audio) :
  flat_map (render_audio cm fs0) l = map (item cm fs0) (filter (has_icon cm fs0) l).
Proof.
  induction l as [|a l IH]; [reflexivity|].
  cbn [flat_map filter]. unfold render_audio at 1, has_icon at 1.
  destruct (icon_of cm fs0 a) eqn:E; cbn [app map]; rewrite IH; [|reflexivity].
  unfold item. rewrite E. reflexivity.
Qed.

Lemma generate_html_content_shown (audio_data : list Audio) :
  generate_html_content cm fs0 audio_data =
  Py.join (wrapper_open :: map (item cm fs0) (shown cm fs0 audio_data)
             ++ match shown cm fs0 audio_data with [] => [] | _ :: _ => [stylesheet] end
             ++ [wrapper_close])%list.
Proof.
  unfold generate_html_content. cbv zeta. cbn [tl]. rewrite flat_map_render.
  fold (shown cm fs0 audio_data). destruct (shown cm fs0 audio_data) as [|a l]; [reflexivity|].
  cbn [map]. cbn [app]. rewrite <- app_assoc. reflexivity.
Qed.
End RenderFacts.

(** C8.  The rendered HTML lists the records whose icon resolves, by votes
    in descending order, and the sort is stable: the shown records of any
    one vote count stand in the order they have in the input list. *)
Theorem rendering_sorted_stable (cm : CountryMappings) (fs0 : FileSystem)
    (audio_data : list Audio) :
  generate_html_content cm fs0 audio_data =
    Py.join (wrapper_open :: map (item cm fs0) (shown cm fs0 audio_data)
               ++ match shown cm fs0 audio_data with [] => [] | _ :: _ => [stylesheet] end
               ++ [wrapper_close])%list /\
  Permutation (shown cm fs0 audio_data) (filter (has_icon cm fs0) audio_data) /\
  StronglySorted (fun a b => (votes a >= votes b)%Z) (shown cm fs0 audio_data) /\
  (forall v : Z,
      filter (fun a => (votes a =? v)%Z) (shown cm fs0 audio_data) =
      filter (fun a => (votes a =? v)%Z) (filter (has_icon cm fs0) audio_data)).
Proof.
  split; [apply generate_html_content_shown|]. unfold shown. split; [|split].
  - induction (sorted_reverse_perm Audio votes audio_data) as [|x l l' H IH|x y l|l l' l'' H1 IH1 H2 IH2];
      cbn [filter].
    + constructor.
    + destruct (has_icon cm fs0 x); [now constructor | exact IH].
    + destruct (has_icon cm fs0 x), (has_icon cm fs0 y); try reflexivity. apply perm_swap.
    + now transitivity (filter (has_icon cm fs0) l').
  - apply filter_sorted, sorted_reverse_descending.
  - intros v.
    assert (C : forall (f g : Audio -> bool) l, filter f (filter g l) = filter g (filter f l)).
    { intros f g l. induction l as [|a l IH]; [reflexivity|]. cbn [filter].
      destruct (f a) eqn:Ef, (g a) eqn:Eg; cbn [filter]; rewrite ?Ef, ?Eg, IH; reflexivity. }
    rewrite C, (sorted_reverse_same Audio votes v), C. reflexivity.
Qed.

(* ------------------------------------------------------------------ *)
(** ** A run over empty stores *)

Lemma run_completed_inv (inp : Input) (st s : Stores) :
  run inp st = (Completed, s) ->
  layout_ok inp = true /\
  exists lines, metadata_file inp = Some lines /\ s = stores_after inp lines st.
Proof.
  unfold run, run_signal, audio_dir_exists, layout_ok.
  destruct (root_exists (fs inp)); cbn [negb andb]; [|discriminate].
  destruct (icons_dir_exists (fs inp)); cbn [negb]; [|discriminate].
  destruct (metadata_file inp) as [lines|] eqn:E; [|discriminate].
  intros H. split; [reflexivity|]. exists lines. split; [reflexivity|].
  unfold process_metadata_stmts in H. rewrite closed_write_stmts in H.
  inversion H. reflexivity.
Qed.

(** ** Logs whose integers fit *)

Lemma process_entry_binds (fs0 : FileSystem) (entry : Entry) (key : Key) (audio : Audio) :
  process_entry fs0 entry = Some (key, audio) -> binds audio = entry_fits entry.
Proof.
  unfold process_entry. destruct (negb _ || negb _); [discriminate|].
  destruct (extract_origin (get_default (e_origin entry) [])) as [[u g] c].
  destruct (check_audio_file_exists _ _ _ _); [|discriminate].
  intros [= _ <-]. reflexivity.
Qed.

(** In a log whose integers fit, every record binds. *)
Lemma records_fit (fs0 : FileSystem) (k : Key) (lines : list Line) :
  integers_fit lines = true -> forallb binds (records_for fs0 k lines) = true.
Proof.
  unfold integers_fit, records_for. induction lines as [|line lines IH]; [reflexivity|].
  cbn [forallb flat_map]. intros H. apply andb_prop in H as [Hl H].
  rewrite forallb_app, (IH H), andb_true_r.
  destruct line as [|entry]; [reflexivity|]. cbn [process_line line_fits] in *.
  destruct (process_entry fs0 entry) as [[k' audio]|] eqn:P; [|reflexivity].
  destruct (key_eqb k k'); [|reflexivity].
  cbn [forallb]. now rewrite (process_entry_binds _ _ _ _ P), Hl.
Qed.

(** So every iteration of the second loop completes. *)
Lemma groups_complete (fs0 : FileSystem) (lines : list Line) :
  integers_fit lines = true -> forallb completes (aggregate fs0 lines) = true.
Proof.
  intros H. apply forallb_forall. intros [k al] Hin.
  apply In_aggregate in Hin as [-> _]. unfold completes. cbn [snd].
  now apply records_fit.
Qed.

Section FreshRun.
Variable inp : Input.
Variable lines : list Line.

Let cm := load_country_mappings (mappings_file inp).
Let groups := groups_of inp lines.

Lemma stores_after_fresh :
  stores_after inp lines no_stores = mkStores (Some (fresh_complex inp lines)) (Some (fresh_simple inp lines)).
Proof. reflexivity. Qed.

Lemma fresh_well_formed : well_formed (fresh_complex inp lines).
Proof. apply written_wf, well_formed_empty. Qed.

Lemma group_of_key (k : Key) :
  In k (Py.keys groups) ->
  In (k, records_for (fs inp) k lines) groups /\ records_for (fs inp) k lines <> [].
Proof.
  intros Hin. apply in_map_iff in Hin as [[k' al] [E Hin]]. simpl in E. subst k'.
  pose proof Hin as Hin'. apply In_aggregate in Hin' as [-> Hne].
  split; assumption.
Qed.

Lemma key_of_records (k : Key) :
  records_for (fs inp) k lines <> [] -> In (k, records_for (fs inp) k lines) groups.
Proof. intros Hne. apply In_aggregate. split; [reflexivity | assumption]. Qed.

(** The row of a key that has records, and the records attached to it. *)
Lemma fresh_word_of_key (k : Key) :
  records_for (fs inp) k lines <> [] ->
  (exists id, find_word (fresh_complex inp lines) k =
              Some (word_row cm (fs inp) id (k, records_for (fs inp) k lines))) /\
  children (fresh_complex inp lines) k = accepted (records_for (fs inp) k lines).
Proof.
  intros Hne. apply key_of_records in Hne.
  apply (@written_group cm (fs inp) groups empty_complex _ well_formed_empty
                        (NoDup_keys_aggregate (fs inp) lines) Hne).
Qed.

Lemma fresh_word_none (k : Key) :
  records_for (fs inp) k lines = [] -> find_word (fresh_complex inp lines) k = None.
Proof.
  intros E. unfold fresh_complex.
  destruct (@written_other cm (fs inp) groups empty_complex k well_formed_empty) as [H _].
  - intros Hin. apply group_of_key in Hin as [_ Hne]. contradiction.
  - exact H.
Qed.

(** Every row of [words] is the row of the group of its key. *)
Lemma fresh_word_rows (r : WordRow) :
  In r (words (fresh_complex inp lines)) ->
  records_for (fs inp) (word_key r) lines <> [] /\
  r = word_row cm (fs inp) (w_id r)
               (word_key r, records_for (fs inp) (word_key r) lines).
Proof.
  intros Hin. pose proof Hin as Hin'.
  apply written_rows in Hin' as [[]|Hk].
  apply group_of_key in Hk as [_ Hne]. split; [exact Hne|].
  destruct (@fresh_word_of_key (word_key r) Hne) as [[id Hf] _].
  pose proof (@lookup_In _ word_key r _ (wf_unique _ fresh_well_formed) Hin) as Hl.
  unfold find_word in Hf. rewrite Hl in Hf. injection Hf as E.
  assert (Hid : w_id r = id) by (rewrite E; reflexivity).
  rewrite Hid. exact E.
Qed.

Lemma fresh_mdx_unique : NoDup (map mdx_key (mdx (fresh_simple inp lines))).
Proof. apply mirrored_unique. constructor. Qed.

(** The [mdx] row of a key whose records all bind. *)
Lemma fresh_mdx_of_key (k : Key) :
  records_for (fs inp) k lines <> [] ->
  forallb binds (records_for (fs inp) k lines) = true ->
  exists id, find_mdx (fresh_simple inp lines) k =
             Some (mdx_row cm (fs inp) id (k, records_for (fs inp) k lines)).
Proof.
  intros Hne Hb. apply key_of_records in Hne.
  apply (@mirrored_group cm (fs inp) groups empty_simple _
                         (NoDup_keys_aggregate (fs inp) lines) Hne Hb).
Qed.

Lemma fresh_mdx_none (k : Key) :
  records_for (fs inp) k lines = [] -> find_mdx (fresh_simple inp lines) k = None.
Proof.
  intros E. unfold fresh_simple. rewrite mirrored_other; [reflexivity|].
  intros Hin. apply group_of_key in Hin as [_ Hne]. contradiction.
Qed.

(** Every row of [mdx] is the row of the group of its key, a group whose
    records all bind. *)
Lemma fresh_mdx_rows (r : MdxRow) :
  In r (mdx (fresh_simple inp lines)) ->
  records_for (fs inp) (mdx_key r) lines <> [] /\
  r = mdx_row cm (fs inp) (m_id r)
              (mdx_key r, records_for (fs inp) (mdx_key r) lines).
Proof.
  intros Hin. pose proof Hin as Hin'.
  apply mirrored_rows in Hin' as [[]|[[k al] [Hg [C Ek]]]].
  cbn [fst] in Ek. subst k.
  apply In_aggregate in Hg as [-> Hne]. split; [exact Hne|].
  destruct (@fresh_mdx_of_key (mdx_key r) Hne C) as [id Hf].
  pose proof (@lookup_In _ mdx_key r _ fresh_mdx_unique Hin) as Hl.
  unfold find_mdx in Hf. rewrite Hl in Hf. injection Hf as E.
  assert (Hid : m_id r = id) by (rewrite E; reflexivity).
  rewrite Hid. exact E.
Qed.
End FreshRun.

Lemma run_fresh_inv (inp : Input) (lines : list Line) (db : ComplexDb) (sdb : SimpleDb) :
  run inp no_stores = (Completed, mkStores (Some db) (Some sdb)) ->
  metadata_file inp = Some lines ->
  db = fresh_complex inp lines /\ sdb = fresh_simple inp lines.
Proof.
  intros Hrun Hm. apply run_completed_inv in Hrun as [_ [lines' [Hm' E]]].
  rewrite Hm in Hm'. inversion Hm'; subst lines'.
  rewrite stores_after_fresh in E. inversion E. split; reflexivity.
Qed.

(* ------------------------------------------------------------------ *)
(** ** Aggregation *)

Lemma records_for_In (fs0 : FileSystem) (lines : list Line) (entry : Entry)
    (key : Key) (audio : Audio) :
  In (Parsed entry) lines -> process_entry fs0 entry = Some (key, audio) ->
  In audio (records_for fs0 key lines).
Proof.
  intros Hin Hp. unfold records_for. apply in_flat_map.
  exists (Parsed entry). split; [assumption|]. cbn [process_line].
  rewrite Hp, key_eqb_refl. now left.
Qed.


Lemma fresh_run (inp : Input) (lines : list Line) :
  layout_ok inp = true -> metadata_file inp = Some lines ->
  run inp no_stores =
  (Completed, mkStores (Some (fresh_complex inp lines)) (Some (fresh_simple inp lines))).
Proof.
  intros Hl Hm. rewrite (run_completed inp lines no_stores Hl Hm). reflexivity.
Qed.


(* ------------------------------------------------------------------ *)
(** ** Headword correction *)

(** C7.  An entry whose [query_word] differs from its [headword] is keyed,
    located on disk and stored under the unquoted [query_word]; without a
    [query_word], or with one equal to the headword, the headword is kept.
    A record that is aggregated has a [words] row under that key and, in a
    log whose integers are within SQLite's 64-bit INTEGER, a child row and
    an [mdx] row.  With headword "run" and query word "r%C3%BCn" the stored
    headword is "rün". *)
Theorem headword_correction :
  (forall fs0 entry language headword,
      e_language entry = Some language -> e_headword entry = Some headword ->
      language <> "" -> headword <> "" ->
      let stored :=
        match e_query_word entry with
        | Some query_word =>
            if String.eqb query_word headword then headword else Py.unquote query_word
        | None => headword
        end in
      let origin := origin_table (get_default (e_origin entry) []) in
      process_entry fs0 entry =
      match check_audio_file_exists fs0 language (fst (fst origin)) stored with
      | Some file_path =>
          Some ((language, stored),
                mkAudio (fst (fst origin)) (snd (fst origin)) (snd origin)
                        (get_default (e_votes entry) 0%Z) file_path
                        (get_default (e_download_url entry) "")
                        (get_default (e_id entry) 0%Z))
      | None => None
      end) /\
  (forall inp lines entry key audio db sdb,
      run inp no_stores = (Completed, mkStores (Some db) (Some sdb)) ->
      metadata_file inp = Some lines ->
      In (Parsed entry) lines ->
      process_entry (fs inp) entry = Some (key, audio) ->
      (exists r, find_word db key = Some r) /\
      (integers_fit lines = true ->
       In audio (children db key) /\
       (exists m, find_mdx sdb key = Some m))) /\
  correct_headword "r%C3%BCn" "run" = "rün".
Proof.
  split; [|split; [|reflexivity]].
  - intros fs0 entry language headword Hl Hh Hln Hhn stored origin.
    unfold process_entry. rewrite Hl, Hh. cbn [get_default].
    destruct language as [|c1 l1]; [congruence|].
    destruct headword as [|c2 h2]; [congruence|].
    cbn [Py.truthy negb orb].
    rewrite extract_origin_by_length. fold origin.
    destruct origin as [[u g] c]. cbn [fst snd].
    assert (E : correct_headword
                  (get_default (e_query_word entry) (String c2 h2))
                  (String c2 h2) = stored).
    { unfold correct_headword, stored.
      destruct (e_query_word entry) as [q|]; cbn [get_default].
      - destruct (String.eqb q (String c2 h2)); reflexivity.
      - now rewrite String.eqb_refl. }
    rewrite E. reflexivity.
  - intros inp lines entry key audio db sdb Hrun Hm Hin Hp.
    destruct (run_fresh_inv _ _ _ _ Hrun Hm) as [-> ->].
    pose proof (records_for_In _ _ _ _ _ Hin Hp) as Hrec.
    assert (Hne : records_for (fs inp) key lines <> []).
    { intros E. rewrite E in Hrec. destruct Hrec. }
    destruct (fresh_word_of_key inp _ _ Hne) as [[id Hf] Hc].
    split; [eauto|]. intros Hfit.
    pose proof (records_fit (fs inp) key lines Hfit) as Hb.
    destruct (fresh_mdx_of_key inp _ _ Hne Hb) as [mid Hmdx].
    destruct (accepted_all _ Hb) as [Ha _]. rewrite Ha in Hc.
    split; [now rewrite Hc | eauto].
Qed.

Lemma headword_correction_witness :
  process_entry every_file run_entry =
    Some (("en", "rün"), mkAudio "dieter" "male" "Germany" 3 "en/dieter/rün.opus" "" 7) /\
  integers_fit [Parsed run_entry] = true /\
  ((exists r, find_word (fresh_complex run_input [Parsed run_entry]) ("en", "rün") = Some r) /\
   In (mkAudio "dieter" "male" "Germany" 3 "en/dieter/rün.opus" "" 7)
      (children (fresh_complex run_input [Parsed run_entry]) ("en", "rün")) /\
   (exists m, find_mdx (fresh_simple run_input [Parsed run_entry]) ("en", "rün") = Some m)).
Proof.
  assert (P : process_entry every_file run_entry =
              Some (("en", "rün"),
                    mkAudio "dieter" "male" "Germany" 3 "en/dieter/rün.opus" "" 7)).
  { rewrite (proj1 headword_correction every_file run_entry "en" "run" eq_refl eq_refl);
      [vm_compute; reflexivity | discriminate | discriminate]. }
  split; [exact P|]. split; [reflexivity|].
  destruct (proj1 (proj2 headword_correction) run_input [Parsed run_entry] run_entry
              ("en", "rün")
              (mkAudio "dieter" "male" "Germany" 3 "en/dieter/rün.opus" "" 7)
              (fresh_complex run_input [Parsed run_entry])
              (fresh_simple run_input [Parsed run_entry])
              (fresh_run run_input [Parsed run_entry] eq_refl eq_refl)
              eq_refl (or_introl eq_refl) P) as [Hw Hrest].
  destruct (Hrest eq_refl) as [Hc Hx].
  split; [exact Hw | split; [exact Hc | exact Hx]].
Defined.

(* ------------------------------------------------------------------ *)
(** ** Written entries *)

Lemma prefix_append (a b : string) : String.prefix a (a ++ b) = true.
Proof.
  induction a as [|c a IH]; cbn [append]; [destruct b; reflexivity|].
  cbn [String.prefix]. destruct (ascii_dec c c); [exact IH | congruence].
Qed.

Lemma join_cons (x : string) (l : list string) :
  l <> [] -> Py.join (x :: l) = x ++ Py.join l.
Proof.
  destruct l as [|y l]; [congruence|]. intros _. reflexivity.
Qed.

(** A rendering starts with the wrapper element. *)
Lemma generate_html_content_wrapper (cm : CountryMappings) (fs0 : FileSystem)
    (audio_data : list Audio) :
  exists rest, generate_html_content cm fs0 audio_data = wrapper_open ++ rest.
Proof.
  rewrite generate_html_content_shown. eexists. apply join_cons.
  destruct (map _ _); cbn [app]; [|discriminate].
  destruct (shown cm fs0 audio_data); discriminate.
Qed.

Lemma html_starts_with_wrapper (cm : CountryMappings) (fs0 : FileSystem)
    (audio_data : list Audio) :
  String.prefix wrapper_open (generate_html_content cm fs0 audio_data) = true /\
  generate_html_content cm fs0 audio_data <> "".
Proof.
  destruct (generate_html_content_wrapper cm fs0 audio_data) as [rest ->].
  split; [apply prefix_append | discriminate].
Qed.

Lemma In_loop_stmts (cm : CountryMappings) (fs0 : FileSystem) (n : nat)
    (groups : WordAudioMap) (s : Stmt) :
  In s (loop_stmts cm fs0 n groups) ->
  is_commit s = true \/ exists g, In g groups /\ In s (group_stmts cm fs0 g).
Proof.
  revert n. induction groups as [|g groups IH]; intros n Hin; [destruct Hin|].
  cbn [loop_stmts] in Hin.
  assert (H : In s (group_stmts cm fs0 g) \/ In s (batch_commit (S n)) \/
              exists m, In s (loop_stmts cm fs0 m groups)).
  { destruct (completes g); rewrite !in_app_iff in Hin.
    - destruct Hin as [H|[H|H]]; eauto.
    - destruct Hin as [H|H]; eauto. }
  clear Hin. destruct H as [Hin|[Hin|[m Hin]]].
  - right. exists g. split; [now left | assumption].
  - left. unfold batch_commit in Hin.
    destruct (S n mod batch_size =? 0)%nat; [|destruct Hin].
    destruct Hin as [<-|[<-|[]]]; reflexivity.
  - destruct (IH _ Hin) as [H|[g' [Hg Hs]]]; [now left|].
    right. exists g'. split; [now right | assumption].
Qed.

Lemma stored_group_stmts (cm : CountryMappings) (fs0 : FileSystem)
    (g : Key * list Audio) (s : Stmt) (content : string) (n : Z) :
  In s (group_stmts cm fs0 g) -> stored s = Some (content, n) ->
  content = generate_html_content cm fs0 (snd g) /\ n = Z.of_nat (length (snd g)).
Proof.
  destruct g as [[l h] al]. unfold group_stmts. cbn [snd].
  intros [<-|Hin] Hs.
  - cbn [stored] in Hs. inversion Hs. split; reflexivity.
  - apply in_app_iff in Hin as [Hin|Hin].
    + apply in_map_iff in Hin as [a [<- _]]. discriminate Hs.
    + destruct (forallb binds al); [|destruct Hin].
      destruct Hin as [<-|[]]. cbn [stored] in Hs. inversion Hs. split; reflexivity.
Qed.

(** Whatever a statement of [process_metadata] writes into [words] or
    [mdx] is the rendering and the size of a group of the map. *)
Lemma stored_process_metadata (inp : Input) (lines : list Line) (s : Stmt)
    (content : string) (n : Z) :
  In s (process_metadata_stmts inp lines) -> stored s = Some (content, n) ->
  exists k audio_list,
    In (k, audio_list) (groups_of inp lines) /\
    content = generate_html_content (load_country_mappings (mappings_file inp))
                                    (fs inp) audio_list /\
    n = Z.of_nat (length audio_list).
Proof.
  unfold process_metadata_stmts, write_stmts. intros Hin Hs.
  apply in_app_iff in Hin as [Hin|[<-|[<-|[]]]]; try discriminate Hs.
  apply In_loop_stmts in Hin as [Hc|[[k audio_list] [Hg Hin]]].
  - destruct s; discriminate.
  - exists k, audio_list. split; [exact Hg|].
    apply (stored_group_stmts _ _ _ _ _ _ Hin Hs).
Qed.

(** C10.  Every statement of [process_metadata] that writes a [words] or
    an [mdx] row writes an [audio_count] of at least 1 and a non-empty
    content that starts with the wrapper element, and so has every row of
    the two tables after a run over empty stores; a key under which no
    record passed the audio lookup has no row in either table, since no
    group of the map is empty. *)
Theorem written_entries_nonempty (inp : Input) (lines : list Line)
    (db : ComplexDb) (sdb : SimpleDb) :
  run inp no_stores = (Completed, mkStores (Some db) (Some sdb)) ->
  metadata_file inp = Some lines ->
  (forall s content n,
     In s (process_metadata_stmts inp lines) -> stored s = Some (content, n) ->
     (1 <= n)%Z /\ content <> "" /\ String.prefix wrapper_open content = true) /\
  (forall r, In r (words db) ->
     (1 <= w_audio_count r)%Z /\ w_html_content r <> "" /\
     String.prefix wrapper_open (w_html_content r) = true) /\
  (forall r, In r (mdx sdb) ->
     (1 <= m_audio_count r)%Z /\ m_paraphrase r <> "" /\
     String.prefix wrapper_open (m_paraphrase r) = true) /\
  (forall k, records_for (fs inp) k lines = [] ->
     find_word db k = None /\ find_mdx sdb k = None) /\
  (forall k audio_list, In (k, audio_list) (groups_of inp lines) -> audio_list <> []).
Proof.
  intros Hrun Hm. destruct (run_fresh_inv _ _ _ _ Hrun Hm) as [-> ->].
  assert (L : forall l : list Audio, l <> [] -> (1 <= Z.of_nat (length l))%Z).
  { intros [|a l] H; [congruence|]. cbn [length]. lia. }
  split; [|split; [|split; [|split]]].
  - intros s content n Hin Hs.
    destruct (stored_process_metadata _ _ _ _ _ Hin Hs) as [k [audio_list [Hg [-> ->]]]].
    apply In_aggregate in Hg as [_ Hne].
    split; [now apply L|].
    destruct (html_starts_with_wrapper (load_country_mappings (mappings_file inp)) (fs inp)
                audio_list) as [H1 H2].
    split; assumption.
  - intros r Hin. destruct (fresh_word_rows _ _ _ Hin) as [Hne E].
    rewrite E. cbn [w_audio_count w_html_content word_row snd].
    split; [now apply L|].
    destruct (html_starts_with_wrapper (load_country_mappings (mappings_file inp)) (fs inp)
                (records_for (fs inp) (word_key r) lines)) as [H1 H2].
    split; assumption.
  - intros r Hin. destruct (fresh_mdx_rows _ _ _ Hin) as [Hne E].
    rewrite E. cbn [m_audio_count m_paraphrase mdx_row snd].
    split; [now apply L|].
    destruct (html_starts_with_wrapper (load_country_mappings (mappings_file inp)) (fs inp)
                (records_for (fs inp) (mdx_key r) lines)) as [H1 H2].
    split; assumption.
  - intros k E. split; [now apply fresh_word_none | now apply fresh_mdx_none].
  - intros k audio_list Hin. apply In_aggregate in Hin. tauto.
Qed.

Lemma written_entries_nonempty_witness :
  (forall s content n,
     In s (process_metadata_stmts cat_input cat_lines) -> stored s = Some (content, n) ->
     (1 <= n)%Z /\ content <> "" /\ String.prefix wrapper_open content = true) /\
  (forall r, In r (words (fresh_complex cat_input cat_lines)) ->
     (1 <= w_audio_count r)%Z /\ w_html_content r <> "" /\
     String.prefix wrapper_open (w_html_content r) = true) /\
  (forall r, In r (mdx (fresh_simple cat_input cat_lines)) ->
     (1 <= m_audio_count r)%Z /\ m_paraphrase r <> "" /\
     String.prefix wrapper_open (m_paraphrase r) = true) /\
  (forall k, records_for (fs cat_input) k cat_lines = [] ->
     find_word (fresh_complex cat_input cat_lines) k = None /\
     find_mdx (fresh_simple cat_input cat_lines) k = None) /\
  (forall k audio_list, In (k, audio_list) (groups_of cat_input cat_lines) ->
     audio_list <> []).
Proof.
  exact (written_entries_nonempty cat_input cat_lines _ _
           (fresh_run cat_input cat_lines eq_refl eq_refl) eq_refl).
Defined.

(* ------------------------------------------------------------------ *)
(** ** A run without country mappings *)

Lemma no_mapping_no_icon (fs0 : FileSystem) (gender country : string) :
  get_icon_path [] fs0 gender country = None.
Proof. reflexivity. Qed.

Lemma no_mapping_bare (fs0 : FileSystem) (audio_data : list Audio) :
  generate_html_content [] fs0 audio_data = bare_wrapper.
Proof.
  rewrite generate_html_content_shown.
  assert (E : shown [] fs0 audio_data = []).
  { unfold shown. induction (Py.sorted votes true audio_data) as [|a l IH];
      [reflexivity | exact IH]. }
  rewrite E. reflexivity.
Qed.

(** C9.  When the country mappings file is missing or is not JSON, a run
    over a valid layout completes: the mapping is empty, no gender and
    country resolve to an icon, and every row of [words] and [mdx] holds the
    bare wrapper element, without item and without stylesheet, while its
    [audio_count] is the size of the whole group. *)
Theorem missing_mappings_bare_wrapper (inp : Input) (lines : list Line) :
  mappings_file inp = MappingsMissing \/ mappings_file inp = MappingsMalformed ->
  layout_ok inp = true ->
  metadata_file inp = Some lines ->
  exists db sdb,
    run inp no_stores = (Completed, mkStores (Some db) (Some sdb)) /\
    load_country_mappings (mappings_file inp) = [] /\
    (forall gender country,
        get_icon_path (load_country_mappings (mappings_file inp)) (fs inp)
                      gender country = None) /\
    (forall r, In r (words db) ->
        w_html_content r = bare_wrapper /\
        w_audio_count r = Z.of_nat (length (records_for (fs inp) (word_key r) lines)) /\
        (1 <= w_audio_count r)%Z) /\
    (forall r, In r (mdx sdb) ->
        m_paraphrase r = bare_wrapper /\
        m_audio_count r = Z.of_nat (length (records_for (fs inp) (mdx_key r) lines))) /\
    (forall k, records_for (fs inp) k lines <> [] -> exists r, find_word db k = Some r).
Proof.
  intros Hfile Hl Hm.
  exists (fresh_complex inp lines), (fresh_simple inp lines).
  assert (E : load_country_mappings (mappings_file inp) = [])
    by (destruct Hfile as [-> | ->]; reflexivity).
  split; [now apply fresh_run|]. split; [exact E|]. split; [|split; [|split]].
  - intros gender country. rewrite E. apply no_mapping_no_icon.
  - intros r Hin. destruct (fresh_word_rows _ _ _ Hin) as [Hne Er].
    rewrite Er. cbn [w_audio_count w_html_content word_row snd].
    rewrite E, no_mapping_bare. repeat split.
    destruct (records_for (fs inp) (word_key r) lines); [congruence|]. cbn [length]. lia.
  - intros r Hin. destruct (fresh_mdx_rows _ _ _ Hin) as [Hne Er].
    rewrite Er. cbn [m_audio_count m_paraphrase mdx_row snd].
    rewrite E, no_mapping_bare. split; reflexivity.
  - intros k Hne. destruct (fresh_word_of_key inp _ _ Hne) as [[id Hf] _]. eauto.
Qed.

Lemma missing_mappings_bare_wrapper_witness :
  exists db sdb,
    run cat_input_unmapped no_stores = (Completed, mkStores (Some db) (Some sdb)) /\
    load_country_mappings (mappings_file cat_input_unmapped) = [] /\
    (forall gender country,
        get_icon_path (load_country_mappings (mappings_file cat_input_unmapped))
                      (fs cat_input_unmapped) gender country = None) /\
    (forall r, In r (words db) ->
        w_html_content r = bare_wrapper /\
        w_audio_count r =
          Z.of_nat (length (records_for (fs cat_input_unmapped) (word_key r) cat_lines)) /\
        (1 <= w_audio_count r)%Z) /\
    (forall r, In r (mdx sdb) ->
        m_paraphrase r = bare_wrapper /\
        m_audio_count r =
          Z.of_nat (length (records_for (fs cat_input_unmapped) (mdx_key r) cat_lines))) /\
    (forall k, records_for (fs cat_input_unmapped) k cat_lines <> [] ->
               exists r, find_word db k = Some r).
Proof.
  exact (missing_mappings_bare_wrapper cat_input_unmapped cat_lines
           (or_introl eq_refl) eq_refl eq_refl).
Defined.

(* ------------------------------------------------------------------ *)
(** ** Setup failures *)

(** C4 as stated fails for the metadata log: its absence is found by
    [process_metadata], after [init_databases] has created both stores. *)
Lemma missing_metadata_counterexample :
  metadata_file no_log_input = None /\
  run no_log_input no_stores =
    (Fatal MetadataFile, mkStores (Some empty_complex) (Some empty_simple)) /\
  snd (run no_log_input no_stores) <> no_stores.
Proof. repeat split. discriminate. Qed.

(** C4, amended.  A run without its root directory, which is also the audio
    directory, or without its [icons/] directory fails before anything is
    done to a store.  A run that lacks only [metadata.jsonl] fails once
    [init_databases] has created the stores and their tables where they did
    not exist; the tables keep the rows they had, no row is written. *)
Theorem setup_failure (inp : Input) (st : Stores) :
  (root_exists (fs inp) = false -> run inp st = (Fatal RootDirectory, st)) /\
  (audio_dir_exists (fs inp) = root_exists (fs inp)) /\
  (root_exists (fs inp) = true -> icons_dir_exists (fs inp) = false ->
   run inp st = (Fatal IconsDirectory, st)) /\
  (layout_ok inp = true -> metadata_file inp = None ->
   run inp st =
     (Fatal MetadataFile,
      mkStores (Some (get_default (complex_db st) empty_complex))
               (Some (get_default (simple_db st) empty_simple)))).
Proof.
  unfold run, run_signal, layout_ok, audio_dir_exists.
  split; [|split; [|split]].
  - intros ->. reflexivity.
  - reflexivity.
  - intros -> ->. reflexivity.
  - intros Hl ->. apply andb_prop in Hl as [-> ->]. reflexivity.
Qed.

Lemma setup_failure_witness :
  run (mkInput no_root two_countries None) no_stores = (Fatal RootDirectory, no_stores) /\
  run (mkInput no_icons two_countries (Some cat_lines)) no_stores =
    (Fatal IconsDirectory, no_stores) /\
  run no_log_input no_stores =
    (Fatal MetadataFile, mkStores (Some empty_complex) (Some empty_simple)).
Proof.
  split; [|split].
  - exact (proj1 (setup_failure (mkInput no_root two_countries None) no_stores) eq_refl).
  - exact (proj1 (proj2 (proj2 (setup_failure (mkInput no_icons two_countries (Some cat_lines))
                                               no_stores))) eq_refl eq_refl).
  - exact (proj2 (proj2 (proj2 (setup_failure no_log_input no_stores))) eq_refl eq_refl).
Defined.

(* ------------------------------------------------------------------ *)
(** ** Interruption *)

(** Statements other than commits leave the committed images alone. *)
Lemma exec_without_commit (stmts : list Stmt) (w : Writer) :
  forallb (fun s => negb (is_commit s)) stmts = true ->
  committed (conn (exec stmts w)) = committed (conn w) /\
  committed (simple_conn (exec stmts w)) = committed (simple_conn w).
Proof.
  revert w. induction stmts as [|s stmts IH]; intros w H; [split; reflexivity|].
  cbn [forallb] in H. apply andb_prop in H as [Hs H].
  change (exec (s :: stmts) w) with (exec stmts (exec_stmt w s)).
  destruct (IH (exec_stmt w s) H) as [H1 H2]. rewrite H1, H2.
  destruct s; try discriminate; cbn [exec_stmt];
    try match goal with |- context [binds ?a] => destruct (binds a) end;
    split; reflexivity.
Qed.

Lemma group_stmts_without_commit (cm : CountryMappings) (fs0 : FileSystem)
    (group : Key * list Audio) :
  forallb (fun s => negb (is_commit s)) (group_stmts cm fs0 group) = true.
Proof.
  destruct group as [[l h] al]. unfold group_stmts. cbn [forallb is_commit negb andb].
  assert (A : forall l0, forallb (fun s => negb (is_commit s)) (map InsertAudioFile l0) = true)
    by (induction l0 as [|a l0 IH]; [reflexivity | exact IH]).
  rewrite forallb_app, A. destruct (forallb binds al); reflexivity.
Qed.

Lemma firstn_without_commit (n : nat) (stmts : list Stmt) :
  forallb (fun s => negb (is_commit s)) stmts = true ->
  forallb (fun s => negb (is_commit s)) (firstn n stmts) = true.
Proof.
  revert n. induction stmts as [|s stmts IH]; intros [|n] H; try reflexivity.
  cbn [firstn forallb] in *. apply andb_prop in H as [-> H]. now rewrite IH.
Qed.

(** A signal while the first group is written: nothing of the group
    reaches the files, whatever part of it was executed. *)
Lemma signal_in_first_group (inp : Input) (lines : list Line) (st : Stores)
    (group : Key * list Audio) (rest : WordAudioMap) (n : nat) :
  layout_ok inp = true -> metadata_file inp = Some lines ->
  groups_of inp lines = group :: rest ->
  (n <= length (group_stmts (load_country_mappings (mappings_file inp)) (fs inp) group))%nat ->
  run_signal (Some n) inp st =
    (Exited, mkStores (Some (get_default (complex_db st) empty_complex))
                      (Some (get_default (simple_db st) empty_simple))).
Proof.
  unfold layout_ok, run_signal, signal_handler, audio_dir_exists, groups_of.
  intros Hl Hm Hg Hn. apply andb_prop in Hl as [-> ->]. rewrite Hm. cbn [negb].
  unfold process_metadata_stmts, write_stmts. rewrite Hg. cbn [loop_stmts].
  assert (F : forall tail,
             firstn n (group_stmts (load_country_mappings (mappings_file inp)) (fs inp)
                                   group ++ tail)%list =
             firstn n (group_stmts (load_country_mappings (mappings_file inp)) (fs inp)
                                   group)).
  { intros tail. rewrite firstn_app.
    replace (n - length _)%nat with 0%nat by lia. cbn [firstn]. now rewrite app_nil_r. }
  assert (E : firstn n
                ((if completes group
                  then group_stmts (load_country_mappings (mappings_file inp)) (fs inp) group
                         ++ batch_commit 1
                         ++ loop_stmts (load_country_mappings (mappings_file inp)) (fs inp)
                                       1 rest
                  else group_stmts (load_country_mappings (mappings_file inp)) (fs inp) group
                         ++ loop_stmts (load_country_mappings (mappings_file inp)) (fs inp)
                                       0 rest)
                   ++ [ConnCommit; SimpleConnCommit])%list =
              firstn n (group_stmts (load_country_mappings (mappings_file inp)) (fs inp)
                                    group)).
  { destruct (completes group); rewrite <- app_assoc; apply F. }
  rewrite E.
  destruct (exec_without_commit _ (init_databases st)
              (firstn_without_commit n _
                 (group_stmts_without_commit (load_country_mappings (mappings_file inp))
                                             (fs inp) group)))
    as [H1 H2].
  unfold closed, close. rewrite H1, H2. reflexivity.
Qed.

(** C2, the failing run.  The log of the two cat records is written by
    four statements followed by the final commits.  A signal that arrives
    when the four are executed leaves both tables empty: the group staged
    since the last commit is not committed, where an undisturbed run commits
    it. *)
Theorem signal_discards_staged_group :
  firstn 4 (process_metadata_stmts cat_input cat_lines) =
    group_stmts (load_country_mappings two_countries) every_file
                (("en", "cat"), [alice; bob]) /\
  run_signal (Some 4) cat_input no_stores =
    (Exited, mkStores (Some empty_complex) (Some empty_simple)) /\
  (exists r, find_word (fresh_complex cat_input cat_lines) ("en", "cat") = Some r /\
             w_audio_count r = 2%Z) /\
  run cat_input no_stores =
    (Completed, mkStores (Some (fresh_complex cat_input cat_lines))
                         (Some (fresh_simple cat_input cat_lines))).
Proof.
  split; [reflexivity|]. split; [|split].
  - apply (signal_in_first_group cat_input cat_lines no_stores
             (("en", "cat"), [alice; bob]) [] 4); reflexivity.
  - eexists. split; vm_compute; reflexivity.
  - apply fresh_run; reflexivity.
Qed.

(* ------------------------------------------------------------------ *)
(** ** Resuming after an interruption *)


Lemma In_firstn_keys (m : nat) (groups : WordAudioMap) (k : Key) :
  In k (Py.keys (firstn m groups)) -> In k (Py.keys groups).
Proof.
  unfold Py.keys. rewrite <- (firstn_skipn m groups) at 2.
  rewrite map_app, in_app_iff. tauto.
Qed.

Section Resume.
Variable cm : CountryMappings.
Variable fs0 : FileSystem.
Variable groups : WordAudioMap.
Variable m : nat.
Hypothesis groups_unique : NoDup (Py.keys groups).

Let part := firstn m groups.
Let db0 := fold_left (write_complex cm fs0) part empty_complex.
Let sdb0 := fold_left (write_simple cm fs0) part empty_simple.

Lemma word_view_row (db : ComplexDb) (k : Key) (id : Z) (audio_list : list Audio) :
  find_word db k = Some (word_row cm fs0 id (k, audio_list)) ->
  word_view db k =
  Some (k, generate_html_content cm fs0 audio_list, Z.of_nat (length audio_list)).
Proof. unfold word_view. intros ->. destruct k; reflexivity. Qed.

Lemma mdx_view_row (db : SimpleDb) (k : Key) (id : Z) (audio_list : list Audio) :
  find_mdx db k = Some (mdx_row cm fs0 id (k, audio_list)) ->
  mdx_view db k =
  Some (k, generate_html_content cm fs0 audio_list, Z.of_nat (length audio_list)).
Proof. unfold mdx_view. intros ->. destruct k; reflexivity. Qed.

(** Writing every group over the stores of a committed part gives each
    key the row and the children that writing over empty stores gives. *)
Lemma rerun_complex (k : Key) :
  word_view (fold_left (write_complex cm fs0) groups db0) k =
    word_view (fold_left (write_complex cm fs0) groups empty_complex) k /\
  children (fold_left (write_complex cm fs0) groups db0) k =
    children (fold_left (write_complex cm fs0) groups empty_complex) k.
Proof.
  assert (Hwf0 : well_formed db0) by apply written_wf, well_formed_empty.
  destruct (Py.get key_eqb k groups) as [audio_list|] eqn:G.
  - apply (get_In _ _ _ key_eqb_spec) in G.
    destruct (written_group cm fs0 groups db0 (k, audio_list) Hwf0 groups_unique G)
      as [[id1 F1] C1].
    destruct (written_group cm fs0 groups empty_complex (k, audio_list)
                            well_formed_empty groups_unique G) as [[id2 F2] C2].
    cbn [fst snd] in *.
    rewrite (word_view_row _ _ _ _ F1), (word_view_row _ _ _ _ F2), C1, C2.
    split; reflexivity.
  - apply (get_None_keys _ _ _ key_eqb_spec) in G.
    destruct (written_other cm fs0 groups db0 k Hwf0 G) as [F1 C1].
    destruct (written_other cm fs0 groups empty_complex k well_formed_empty G) as [F2 C2].
    assert (G0 : ~ In k (Py.keys part)).
    { intros Hin. apply G. now apply In_firstn_keys in Hin. }
    destruct (written_other cm fs0 part empty_complex k well_formed_empty G0) as [F0 C0].
    fold db0 in F0, C0.
    unfold word_view. rewrite F1, F2, C1, C2, F0, C0. split; reflexivity.
Qed.

Lemma rerun_simple (k : Key) :
  mdx_view (fold_left (write_simple cm fs0) groups sdb0) k =
  mdx_view (fold_left (write_simple cm fs0) groups empty_simple) k.
Proof.
  destruct (Py.get key_eqb k groups) as [audio_list|] eqn:G.
  - apply (get_In _ _ _ key_eqb_spec) in G.
    destruct (completes (k, audio_list)) eqn:C.
    + destruct (mirrored_group cm fs0 groups sdb0 (k, audio_list) groups_unique G C)
        as [id1 F1].
      destruct (mirrored_group cm fs0 groups empty_simple (k, audio_list) groups_unique G C)
        as [id2 F2].
      cbn [fst snd] in *.
      rewrite (mdx_view_row _ _ _ _ F1), (mdx_view_row _ _ _ _ F2). reflexivity.
    + pose proof (mirrored_raised cm fs0 groups sdb0 (k, audio_list) groups_unique G C)
        as F1.
      pose proof (mirrored_raised cm fs0 groups empty_simple (k, audio_list)
                                  groups_unique G C) as F2.
      cbn [fst] in F1, F2. unfold mdx_view. rewrite F1, F2. unfold sdb0.
      rewrite (mirrored_never cm fs0 part empty_simple k); [reflexivity|].
      intros [k' al] Hin E. cbn [fst] in E. subst k'.
      assert (Hg : In (k, al) groups).
      { unfold part in Hin. rewrite <- (firstn_skipn m groups).
        apply in_or_app. now left. }
      pose proof (In_get _ _ _ key_eqb_spec _ _ _ groups_unique Hg) as G1.
      pose proof (In_get _ _ _ key_eqb_spec _ _ _ groups_unique G) as G2.
      rewrite G1 in G2. injection G2 as ->. exact C.
  - apply (get_None_keys _ _ _ key_eqb_spec) in G.
    assert (G0 : ~ In k (Py.keys part)).
    { intros Hin. apply G. now apply In_firstn_keys in Hin. }
    unfold mdx_view.
    rewrite (mirrored_other cm fs0 groups sdb0 k G).
    rewrite (mirrored_other cm fs0 groups empty_simple k G).
    unfold sdb0. rewrite (mirrored_other cm fs0 part empty_simple k G0). reflexivity.
Qed.
End Resume.

Lemma batch_size_positive : (0 < batch_size)%nat.
Proof. unfold batch_size. lia. Qed.




(* ------------------------------------------------------------------ *)
(** ** Scenarios *)

(** Two records for ("en", "cat"): one row with count 2, bob (10 votes)
    shown before alice (5 votes). *)
Example cat_scenario :
  groups_of cat_input cat_lines = [(("en", "cat"), [alice; bob])] /\
  shown (load_country_mappings two_countries) every_file [alice; bob] = [bob; alice] /\
  word_view (fresh_complex cat_input cat_lines) ("en", "cat") =
    Some (("en", "cat"),
          generate_html_content (load_country_mappings two_countries) every_file [alice; bob],
          2%Z) /\
  children (fresh_complex cat_input cat_lines) ("en", "cat") = [alice; bob].
Proof. repeat split; vm_compute; reflexivity. Qed.

(** A record whose audio file is not on disk is dropped, and with it the
    word when it has no other record. *)
Example missing_audio_scenario :
  aggregate (mkFS true true (fun _ => true)
                  (fun _ username _ => String.eqb username "bob"))
            cat_lines =
  [(("en", "cat"), [bob])] /\
  aggregate (mkFS true true (fun _ => true) (fun _ _ _ => false)) cat_lines = [].
Proof. split; vm_compute; reflexivity. Qed.

(** Without mappings the cat row holds the bare wrapper and counts 2. *)
Example unmapped_scenario :
  word_view (fresh_complex cat_input_unmapped cat_lines) ("en", "cat") =
    Some (("en", "cat"), bare_wrapper, 2%Z).
Proof. vm_compute. reflexivity. Qed.

(* ================================================================== *)
(** * Further properties of the processor *)

(** ** The audio locator *)

(** X1.  [check_audio_file_exists] tries [.opus], then [.mp3], then [.ogg]
    below language/username and returns the relative path of the first
    file that exists; it returns nothing exactly when none of the three
    exists. *)
Theorem audio_extension_priority (fs0 : FileSystem) (language username headword : string) :
  let there ext := audio_exists fs0 language username (headword ++ ext) in
  let path ext := language ++ "/" ++ username ++ "/" ++ headword ++ ext in
  check_audio_file_exists fs0 language username headword =
    (if there ".opus" then Some (path ".opus")
     else if there ".mp3" then Some (path ".mp3")
     else if there ".ogg" then Some (path ".ogg")
     else None) /\
  (check_audio_file_exists fs0 language username headword = None <->
   there ".opus" = false /\ there ".mp3" = false /\ there ".ogg" = false) /\
  (forall p, check_audio_file_exists fs0 language username headword = Some p ->
             p <> "" /\ exists ext, In ext extensions /\ there ext = true /\ p = path ext).
Proof.
  intros there path.
  assert (E : check_audio_file_exists fs0 language username headword =
              (if there ".opus" then Some (path ".opus")
               else if there ".mp3" then Some (path ".mp3")
               else if there ".ogg" then Some (path ".ogg")
               else None)).
  { unfold check_audio_file_exists, extensions. cbn [find]. fold (there ".opus").
    fold (there ".mp3"). fold (there ".ogg").
    destruct (there ".opus"); [reflexivity|].
    destruct (there ".mp3"); [reflexivity|].
    destruct (there ".ogg"); reflexivity. }
  assert (N : forall ext, path ext <> "").
  { intros ext. unfold path. destruct language; discriminate. }
  split; [exact E|]. rewrite E. split.
  - destruct (there ".opus"), (there ".mp3"), (there ".ogg");
      split; try discriminate; try tauto; intros [? [? ?]]; discriminate.
  - intros p.
    destruct (there ".opus") eqn:E1;
      [intros [= <-]; split; [apply N|]; exists ".opus"; cbn; tauto|].
    destruct (there ".mp3") eqn:E2;
      [intros [= <-]; split; [apply N|]; exists ".mp3"; cbn; tauto|].
    destruct (there ".ogg") eqn:E3;
      [intros [= <-]; split; [apply N|]; exists ".ogg"; cbn; tauto|].
    discriminate.
Qed.

Lemma audio_extension_priority_witness :
  check_audio_file_exists every_file "en" "bob" "cat" = Some "en/bob/cat.opus" /\
  ("en/bob/cat.opus" <> "" /\
   exists ext, In ext extensions /\
               audio_exists every_file "en" "bob" ("cat" ++ ext) = true /\
               "en/bob/cat.opus" = "en" ++ "/" ++ "bob" ++ "/" ++ "cat" ++ ext).
Proof.
  split; [reflexivity|].
  exact (proj2 (proj2 (audio_extension_priority every_file "en" "bob" "cat"))
               "en/bob/cat.opus" eq_refl).
Defined.

(** ** Letter case in the icon resolver *)

Lemma lower_ascii_idempotent (c : ascii) :
  Py.lower_ascii (Py.lower_ascii c) = Py.lower_ascii c.
Proof. destruct c as [[] [] [] [] [] [] [] []]; reflexivity. Qed.

Lemma lower_idempotent (s : string) : Py.lower (Py.lower s) = Py.lower s.
Proof.
  induction s as [|c s IH]; [reflexivity|].
  cbn [Py.lower]. now rewrite lower_ascii_idempotent, IH.
Qed.

Lemma truthy_lower (s : string) : Py.truthy (Py.lower s) = Py.truthy s.
Proof. destruct s; reflexivity. Qed.

Lemma gender_prefix_lower (gender : string) :
  gender_prefix gender =
  if Py.truthy (Py.lower gender) && Py.str_in (Py.lower gender) ["male"; "female"]
  then Py.lower gender ++ "_" else "".
Proof. unfold gender_prefix, Generic.gender_prefix. now rewrite truthy_lower. Qed.

(** X2.  Icon resolution does not look at letter case: two gender labels
    and two country names that agree once lowercased resolve to the same
    icon, so a name resolves as its lowercased form does. *)
Theorem icon_resolution_ignores_case (cm : CountryMappings) (fs0 : FileSystem)
    (gender1 gender2 country1 country2 : string) :
  Py.lower gender1 = Py.lower gender2 ->
  Py.lower country1 = Py.lower country2 ->
  get_icon_path cm fs0 gender1 country1 = get_icon_path cm fs0 gender2 country2 /\
  get_icon_path cm fs0 (Py.lower gender1) (Py.lower country1) =
    get_icon_path cm fs0 gender1 country1.
Proof.
  intros Hg Hc.
  assert (G : forall g1 g2 c1 c2, Py.lower g1 = Py.lower g2 -> Py.lower c1 = Py.lower c2 ->
              get_icon_path cm fs0 g1 c1 = get_icon_path cm fs0 g2 c2).
  { intros g1 g2 c1 c2 H1 H2.
    unfold get_icon_path, Generic.get_icon_path, Generic.icon_patterns.
    change (Generic.gender_prefix Py.lower) with gender_prefix.
    rewrite (gender_prefix_lower g1), (gender_prefix_lower g2), H1, H2. reflexivity. }
  split; [now apply G|].
  apply G; apply lower_idempotent.
Qed.

Lemma icon_resolution_ignores_case_witness :
  get_icon_path france_only every_file "MALE" "FRANCE" =
    get_icon_path france_only every_file "Male" "france" /\
  get_icon_path france_only every_file (Py.lower "MALE") (Py.lower "FRANCE") =
    get_icon_path france_only every_file "MALE" "FRANCE".
Proof.
  exact (icon_resolution_ignores_case france_only every_file "MALE" "Male" "FRANCE" "france"
           eq_refl eq_refl).
Defined.

(** ** The country lookup *)

Lemma length_set (K V : Type) (keqb : K -> K -> bool) (k : K) (v : V) (d : Py.dict K V) :
  (length (Py.set keqb k v d) <= S (length d))%nat.
Proof.
  induction d as [|[k0 v0] d IH]; cbn [Py.set length]; [lia|].
  destruct (keqb k k0); cbn [length]; lia.
Qed.

Lemma load_from_keys (lower : string -> string) (ms : list Mapping) (d : CountryMappings) :
  let d' := fold_left (fun country_lookup mapping =>
                         Py.set String.eqb (lower (original_name mapping)) mapping
                                country_lookup) ms d in
  (NoDup (Py.keys d) -> NoDup (Py.keys d')) /\
  (forall k, In k (Py.keys d') ->
             In k (Py.keys d) \/ exists m, In m ms /\ lower (original_name m) = k) /\
  (length d' <= length d + length ms)%nat.
Proof.
  revert d. induction ms as [|m ms IH]; intros d; cbn [fold_left length].
  - repeat split; auto. lia.
  - destruct (IH (Py.set String.eqb (lower (original_name m)) m d)) as [H1 [H2 H3]].
    split; [|split].
    + intros Hnd. apply H1. apply NoDup_keys_set; [apply String.eqb_spec | exact Hnd].
    + intros k Hin. destruct (H2 k Hin) as [Hk|[m' [Hm' Hk]]].
      * rewrite (keys_set _ _ _ String.eqb_spec) in Hk.
        destruct (Py.get String.eqb (lower (original_name m)) d); [now left|].
        apply in_app_iff in Hk as [Hk|[<-|[]]]; [now left|].
        right. exists m. split; [now left | reflexivity].
      * right. exists m'. split; [now right | exact Hk].
    + pose proof (length_set _ _ String.eqb (lower (original_name m)) m d). lia.
Qed.

(** X3.  Whatever [str.lower] does to a text, here the function [lower]:
    the country lookup has one entry per lowercased country name.  Its keys
    are pairwise distinct, each is the lowercased name of a mapping of the
    file, it is no longer than the list of mappings, a name is absent
    exactly when no mapping has that name once lowercased, and the entry of
    a name is a mapping of the file with that name.  A missing or malformed
    file gives the empty lookup.  Where lowering twice is lowering once,
    the keys are in lower case. *)
Theorem country_lookup_entries (lower : string -> string) (file : MappingsFile) :
  let cm := Generic.load_country_mappings lower file in
  let mappings := match file with MappingsLoaded ms => ms | _ => [] end in
  NoDup (Py.keys cm) /\
  (forall k, In k (Py.keys cm) ->
             exists m, In m mappings /\ lower (original_name m) = k) /\
  (length cm <= length mappings)%nat /\
  (forall k, Py.get String.eqb k cm = None <->
             forall m, In m mappings -> lower (original_name m) <> k) /\
  (forall k m, Py.get String.eqb k cm = Some m ->
               In m mappings /\ lower (original_name m) = k) /\
  ((forall s, lower (lower s) = lower s) ->
   forall k, In k (Py.keys cm) -> lower k = k).
Proof.
  intros cm mappings.
  assert (E : forall k, Py.get String.eqb k cm =
                        find (fun m => String.eqb (lower (original_name m)) k)
                             (rev mappings)).
  { intros k. subst cm mappings. destruct file as [| |ms]; try reflexivity.
    unfold Generic.load_country_mappings. rewrite get_load_from.
    destruct (find _ (rev ms)); reflexivity. }
  assert (S : NoDup (Py.keys cm) /\
              (forall k, In k (Py.keys cm) ->
                         exists m, In m mappings /\ lower (original_name m) = k) /\
              (length cm <= length mappings)%nat).
  { subst cm mappings. destruct file as [| |ms];
      try (cbn; repeat split; [constructor | intros k [] | lia]).
    destruct (load_from_keys lower ms []) as [H1 [H2 H3]].
    cbn [Generic.load_country_mappings].
    split; [apply H1; constructor|]. split; [|exact H3].
    intros k Hin. destruct (H2 k Hin) as [[]|H]. exact H. }
  destruct S as [S1 [S2 S3]].
  split; [exact S1|]. split; [exact S2|]. split; [exact S3|]. split; [|split].
  - intros k. rewrite E. split.
    + intros Hn m Hin Hk.
      pose proof (find_none _ _ Hn m (proj1 (in_rev _ _) Hin)) as F.
      apply String.eqb_eq in Hk. cbv beta in F. congruence.
    + intros Hall.
      destruct (find _ (rev mappings)) as [m|] eqn:F; [|reflexivity].
      apply find_some in F as [Hin Hk]. apply in_rev in Hin.
      apply String.eqb_eq in Hk. now destruct (Hall m Hin).
  - intros k m H. rewrite E in H. apply find_some in H as [Hin Hk].
    apply in_rev in Hin. apply String.eqb_eq in Hk. split; assumption.
  - intros Hidem k Hin. destruct (S2 k Hin) as [m [_ <-]]. apply Hidem.
Qed.

Lemma country_lookup_entries_witness :
  (In (mkMapping "France" (Some "fr"))
      [mkMapping "France" (Some "fr"); mkMapping "Japan" (Some "jp")] /\
   Py.lower (original_name (mkMapping "France" (Some "fr"))) = "france") /\
  Py.lower "france" = "france".
Proof.
  split.
  - exact (proj1 (proj2 (proj2 (proj2 (proj2 (country_lookup_entries Py.lower
                                                 two_countries)))))
                 "france" (mkMapping "France" (Some "fr")) eq_refl).
  - apply (proj2 (proj2 (proj2 (proj2 (proj2 (country_lookup_entries Py.lower
                                                 two_countries)))))
                 lower_idempotent "france").
    left. reflexivity.
Defined.

(** ** What a rendering shows *)

Lemma append_cancel_l (a x y : string) : a ++ x = a ++ y -> x = y.
Proof.
  induction a as [|c a IH]; cbn [append]; [tauto|].
  intros H. injection H as H. now apply IH.
Qed.

Lemma shown_In (cm : CountryMappings) (fs0 : FileSystem) (audio_data : list Audio)
    (audio : Audio) :
  In audio (shown cm fs0 audio_data) <->
  In audio audio_data /\ has_icon cm fs0 audio = true.
Proof.
  unfold shown. rewrite filter_In.
  pose proof (sorted_reverse_perm Audio votes audio_data) as P.
  split; intros [H1 H2]; (split; [|exact H2]).
  - exact (Permutation_in _ P H1).
  - exact (Permutation_in _ (Permutation_sym P) H1).
Qed.

Lemma item_not_closing (cm : CountryMappings) (fs0 : FileSystem) (audio : Audio)
    (rest : string) :
  item cm fs0 audio ++ rest <> wrapper_close.
Proof.
  unfold item, audio_html, ln, nl, wrapper_close. rewrite !append_assoc.
  cbn [append]. intros H. injection H as Hc _. vm_compute in Hc. discriminate Hc.
Qed.

(** X4.  A rendering shows exactly the records of the list whose icon
    resolves: a record without icon never appears, whatever its votes.
    The rendering is the bare wrapper, without stylesheet, exactly when no
    record of the list has an icon, as for the empty list. *)
Theorem icon_miss_exclusion (cm : CountryMappings) (fs0 : FileSystem)
    (audio_data : list Audio) :
  (forall audio, In audio (shown cm fs0 audio_data) <->
                 In audio audio_data /\
                 get_icon_path cm fs0 (gender audio) (country audio) <> None) /\
  length (shown cm fs0 audio_data) = length (filter (has_icon cm fs0) audio_data) /\
  (generate_html_content cm fs0 audio_data = bare_wrapper <->
   forall audio, In audio audio_data ->
                 get_icon_path cm fs0 (gender audio) (country audio) = None) /\
  generate_html_content cm fs0 [] = bare_wrapper.
Proof.
  assert (I : forall audio, has_icon cm fs0 audio = true <->
                            get_icon_path cm fs0 (gender audio) (country audio) <> None).
  { intros audio. unfold has_icon, icon_of.
    destruct (get_icon_path cm fs0 (gender audio) (country audio));
      split; congruence. }
  split; [|split; [|split]].
  - intros audio. rewrite shown_In, I. reflexivity.
  - unfold shown. apply Permutation_length.
    induction (sorted_reverse_perm Audio votes audio_data)
      as [|x l l' H IH|x y l|l l' l'' H1 IH1 H2 IH2]; cbn [filter].
    + constructor.
    + destruct (has_icon cm fs0 x); [now constructor | exact IH].
    + destruct (has_icon cm fs0 x), (has_icon cm fs0 y); try reflexivity. apply perm_swap.
    + now transitivity (filter (has_icon cm fs0) l').
  - rewrite generate_html_content_shown. split.
    + intros H audio Hin.
      destruct (get_icon_path cm fs0 (gender audio) (country audio)) as [p|] eqn:E;
        [|reflexivity].
      exfalso.
      assert (Hs : In audio (shown cm fs0 audio_data)).
      { apply shown_In. split; [exact Hin|]. apply I. congruence. }
      destruct (shown cm fs0 audio_data) as [|a l]; [destruct Hs|].
      cbn [map app] in H. rewrite join_cons in H by discriminate.
      unfold bare_wrapper in H. apply append_cancel_l in H.
      rewrite join_cons in H by (destruct (map _ l); discriminate).
      exact (item_not_closing _ _ _ _ H).
    + intros Hnone.
      assert (E : shown cm fs0 audio_data = []).
      { destruct (shown cm fs0 audio_data) as [|a l] eqn:Es; [reflexivity|].
        assert (Hs : In a (shown cm fs0 audio_data)) by (rewrite Es; now left).
        apply shown_In in Hs as [Hin Hi]. apply I in Hi. now destruct (Hi (Hnone a Hin)). }
      rewrite E. reflexivity.
  - reflexivity.
Qed.

(** ** Renderings and the order of the records *)

Section SortMore.
Variable A : Type.
Variable key : A -> Z.

Lemma insert_front (x : A) (l : list A) :
  Forall (fun y => (key x <= key y)%Z) l -> Py.insert key x l = x :: l.
Proof.
  destruct l as [|y l]; [reflexivity|]. intros H. inversion H; subst.
  cbn [Py.insert]. destruct (Z.leb_spec (key x) (key y)); [reflexivity | lia].
Qed.

(** The forward sort leaves an ascending list as it is. *)
Lemma sort_forward_sorted_id (l : list A) :
  StronglySorted (fun a b => (key a <= key b)%Z) l -> Py.sort_forward key l = l.
Proof.
  induction 1 as [|x l Hs IH Hx]; [reflexivity|].
  cbn [Py.sort_forward fold_right]. fold (Py.sort_forward key l).
  rewrite IH. now apply insert_front.
Qed.

Lemma rev_descending (l : list A) :
  StronglySorted (fun a b => (key a >= key b)%Z) l ->
  StronglySorted (fun a b => (key a <= key b)%Z) (rev l).
Proof.
  induction 1 as [|y l Hs IH Hy]; cbn [rev]; [constructor|].
  assert (G : forall m, StronglySorted (fun a b => (key a <= key b)%Z) m ->
                        Forall (fun a => (key a <= key y)%Z) m ->
                        StronglySorted (fun a b => (key a <= key b)%Z) (m ++ [y])).
  { induction 1 as [|z m Hm IHm Hz]; intros Hall; cbn [app].
    - repeat constructor.
    - inversion Hall; subst. constructor; [now apply IHm|].
      apply Forall_app; split; [exact Hz | repeat constructor; assumption]. }
  apply G; [exact IH|].
  apply Forall_rev. eapply Forall_impl; [|exact Hy]. cbv beta. intros; lia.
Qed.

(** Sorting a list that is in descending order already changes nothing. *)
Lemma sorted_reverse_sorted_id (l : list A) :
  StronglySorted (fun a b => (key a >= key b)%Z) l -> Py.sorted key true l = l.
Proof.
  intros H. unfold Py.sorted.
  rewrite (sort_forward_sorted_id _ (rev_descending _ H)). apply rev_involutive.
Qed.

(** Two descending lists with the same elements and no repeated key are
    one list. *)
Lemma descending_unique (l1 l2 : list A) :
  StronglySorted (fun a b => (key a >= key b)%Z) l1 ->
  StronglySorted (fun a b => (key a >= key b)%Z) l2 ->
  NoDup (map key l1) -> Permutation l1 l2 -> l1 = l2.
Proof.
  intros H1. revert l2. induction H1 as [|x l1 Hs IH Hx]; intros l2 H2 Hnd P.
  - apply Permutation_nil in P. now subst.
  - destruct l2 as [|y l2]; [apply Permutation_sym, Permutation_nil in P; discriminate|].
    inversion H2 as [|? ? Hs2 Hy]; subst.
    inversion Hnd as [|? ? Hnotin Hnd']; subst.
    assert (E : x = y).
    { assert (Hxin : In x (y :: l2)) by (apply (Permutation_in _ P); now left).
      assert (Hyin : In y (x :: l1))
        by (apply (Permutation_in _ (Permutation_sym P)); now left).
      destruct Hxin as [->|Hxin]; [reflexivity|].
      destruct Hyin as [->|Hyin]; [reflexivity|].
      rewrite Forall_forall in Hx, Hy.
      pose proof (Hx y Hyin) as G1. pose proof (Hy x Hxin) as G2. cbv beta in G1, G2.
      exfalso. apply Hnotin. replace (key x) with (key y) by lia.
      now apply in_map. }
    subst y. f_equal. apply IH; [assumption | assumption|].
    now apply Permutation_cons_inv in P.
Qed.
End SortMore.

Lemma generate_html_content_sorted (cm : CountryMappings) (fs0 : FileSystem)
    (l1 l2 : list Audio) :
  Py.sorted votes true l1 = Py.sorted votes true l2 ->
  generate_html_content cm fs0 l1 = generate_html_content cm fs0 l2.
Proof. unfold generate_html_content. now intros ->. Qed.

(** X5.  When no two records of a group have the same vote count, the
    rendering does not depend on the order of the group: every arrangement
    of the same records renders to the same text. *)
Theorem rendering_order_independent (cm : CountryMappings) (fs0 : FileSystem)
    (l1 l2 : list Audio) :
  Permutation l1 l2 -> NoDup (map votes l1) ->
  Py.sorted votes true l1 = Py.sorted votes true l2 /\
  generate_html_content cm fs0 l1 = generate_html_content cm fs0 l2.
Proof.
  intros P Hnd.
  assert (E : Py.sorted votes true l1 = Py.sorted votes true l2).
  { apply (descending_unique Audio votes).
    - apply sorted_reverse_descending.
    - apply sorted_reverse_descending.
    - apply (Permutation_NoDup (l:=map votes l1)); [|exact Hnd].
      apply Permutation_map, Permutation_sym, sorted_reverse_perm.
    - rewrite (sorted_reverse_perm Audio votes l1), P.
      apply Permutation_sym, sorted_reverse_perm. }
  split; [exact E | now apply generate_html_content_sorted].
Qed.

Lemma rendering_order_independent_witness :
  Py.sorted votes true [alice; bob] = Py.sorted votes true [bob; alice] /\
  generate_html_content (load_country_mappings two_countries) every_file [alice; bob] =
  generate_html_content (load_country_mappings two_countries) every_file [bob; alice].
Proof.
  apply (rendering_order_independent (load_country_mappings two_countries) every_file
           [alice; bob] [bob; alice]).
  - apply perm_swap.
  - repeat constructor; cbn; intuition discriminate.
Defined.

(** X6.  Sorting is idempotent: a list that is already in descending order
    of votes is rendered in the order it has, and rendering the sorted form
    of a list gives the rendering of the list. *)
Theorem rendering_of_sorted_input (cm : CountryMappings) (fs0 : FileSystem)
    (audio_data : list Audio) :
  (StronglySorted (fun a b => (votes a >= votes b)%Z) audio_data ->
   shown cm fs0 audio_data = filter (has_icon cm fs0) audio_data) /\
  Py.sorted votes true (Py.sorted votes true audio_data) = Py.sorted votes true audio_data /\
  generate_html_content cm fs0 (Py.sorted votes true audio_data) =
    generate_html_content cm fs0 audio_data.
Proof.
  assert (E : Py.sorted votes true (Py.sorted votes true audio_data) =
              Py.sorted votes true audio_data)
    by apply sorted_reverse_sorted_id, sorted_reverse_descending.
  split; [|split; [exact E | now apply generate_html_content_sorted]].
  intros H. unfold shown. now rewrite sorted_reverse_sorted_id.
Qed.

Lemma rendering_of_sorted_input_witness :
  shown (load_country_mappings two_countries) every_file [bob; alice] =
  filter (has_icon (load_country_mappings two_countries) every_file) [bob; alice].
Proof.
  apply (proj1 (rendering_of_sorted_input (load_country_mappings two_countries) every_file
                  [bob; alice])).
  repeat constructor; cbn; lia.
Defined.

(** ** More on the aggregation *)

Lemma concat_append_audio (m : WordAudioMap) (k : Key) (audio : Audio) :
  Permutation (concat (map snd (append_audio m k audio)))
              (concat (map snd m) ++ [audio]).
Proof.
  unfold append_audio. induction m as [|[k0 v0] m IH]; [reflexivity|].
  cbn [Py.get Py.set]. destruct (key_eqb k k0) eqn:E.
  - cbn [map snd concat get_default]. rewrite <- !app_assoc.
    apply Permutation_app_head, Permutation_app_comm.
  - cbn [map snd concat]. rewrite <- app_assoc. apply Permutation_app_head.
    destruct (Py.get key_eqb k m) as [l|] eqn:G; cbn [get_default] in *; exact IH.
Qed.

Lemma concat_aggregate_from (fs0 : FileSystem) (lines : list Line) (m : WordAudioMap) :
  Permutation (concat (map snd (fold_left (aggregate_line fs0) lines m)))
              (concat (map snd m) ++ processed fs0 lines).
Proof.
  revert m. induction lines as [|line lines IH]; intros m; cbn [fold_left processed flat_map].
  - now rewrite app_nil_r.
  - rewrite IH. fold (processed fs0 lines). unfold aggregate_line.
    destruct (process_line fs0 line) as [[k audio]|]; [|reflexivity].
    rewrite concat_append_audio, <- app_assoc. reflexivity.
Qed.

Lemma length_groups_processed (fs0 : FileSystem) (lines : list Line) :
  length (concat (map snd (aggregate fs0 lines))) = length (processed fs0 lines).
Proof. apply Permutation_length, (concat_aggregate_from fs0 lines []). Qed.

(** X7.  Grouping loses and invents nothing: the records of all groups
    together are the records of the lines that were not skipped, each
    once, so the group sizes add up to the count of valid entries. *)
Theorem aggregation_conserves_records (fs0 : FileSystem) (lines : list Line) :
  Permutation (concat (map snd (aggregate fs0 lines))) (processed fs0 lines) /\
  length (concat (map snd (aggregate fs0 lines))) = length (processed fs0 lines) /\
  (length (processed fs0 lines) <= length lines)%nat /\
  (forall k audio, In audio (records_for fs0 k lines) -> In audio (processed fs0 lines)).
Proof.
  assert (P : Permutation (concat (map snd (aggregate fs0 lines))) (processed fs0 lines))
    by apply (concat_aggregate_from fs0 lines []).
  split; [exact P|]. split; [now apply Permutation_length|]. split.
  - clear P. unfold processed. induction lines as [|line lines IH]; [reflexivity|].
    cbn [flat_map]. rewrite length_app.
    destruct (process_line fs0 line) as [[k a]|]; cbn [length] in *; lia.
  - intros k audio. unfold records_for, processed. rewrite !in_flat_map.
    intros [line [Hin Ha]]. exists line. split; [exact Hin|].
    destruct (process_line fs0 line) as [[k' a]|]; [|destruct Ha].
    destruct (key_eqb k k'); [exact Ha | destruct Ha].
Qed.

Lemma aggregation_conserves_records_witness :
  In alice (processed every_file cat_lines).
Proof.
  apply (proj2 (proj2 (proj2 (aggregation_conserves_records every_file cat_lines)))
               ("en", "cat") alice).
  left. reflexivity.
Defined.

Lemma truthy_false (s : string) : Py.truthy s = false <-> s = "".
Proof. destruct s; cbn; split; intros H; (reflexivity || discriminate H). Qed.

(** X8.  A line is skipped exactly when it is not JSON, when its language
    or its headword is absent or empty, or when no audio file is found for
    the language, the user name and the corrected headword.  A skipped line
    leaves no trace: the map is the one of the log without that line. *)
Theorem skipped_lines_leave_no_trace (fs0 : FileSystem) :
  process_line fs0 Malformed = None /\
  (forall entry,
      process_line fs0 (Parsed entry) = None <->
      get_default (e_language entry) "" = "" \/
      get_default (e_headword entry) "" = "" \/
      check_audio_file_exists fs0 (get_default (e_language entry) "")
        (fst (fst (extract_origin (get_default (e_origin entry) []))))
        (correct_headword
           (get_default (e_query_word entry) (get_default (e_headword entry) ""))
           (get_default (e_headword entry) "")) = None) /\
  (forall before line after,
      process_line fs0 line = None ->
      aggregate fs0 (before ++ line :: after) = aggregate fs0 (before ++ after)).
Proof.
  split; [reflexivity|]. split.
  - intros entry. cbn [process_line]. unfold process_entry.
    destruct (Py.truthy (get_default (e_language entry) "")) eqn:El; cbn [negb orb].
    + destruct (Py.truthy (get_default (e_headword entry) "")) eqn:Eh; cbn [negb].
      * destruct (extract_origin (get_default (e_origin entry) [])) as [[u g] c].
        cbn [fst].
        destruct (check_audio_file_exists fs0 _ u _) eqn:Ec.
        -- split; [discriminate|]. intros [H|[H|H]]; try discriminate H.
           ++ apply truthy_false in H. congruence.
           ++ apply truthy_false in H. congruence.
        -- split; [tauto | reflexivity].
      * apply truthy_false in Eh. split; [tauto | reflexivity].
    + apply truthy_false in El. split; [tauto | reflexivity].
  - intros before line after H. unfold aggregate.
    rewrite !fold_left_app. cbn [fold_left]. unfold aggregate_line at 2.
    now rewrite H.
Qed.

Lemma skipped_lines_leave_no_trace_witness :
  aggregate every_file ([Parsed carol_entry] ++ Malformed :: cat_lines) =
  aggregate every_file ([Parsed carol_entry] ++ cat_lines).
Proof.
  exact (proj2 (proj2 (skipped_lines_leave_no_trace every_file))
               [Parsed carol_entry] Malformed cat_lines eq_refl).
Defined.

Lemma records_for_app (fs0 : FileSystem) (k : Key) (l1 l2 : list Line) :
  records_for fs0 k (l1 ++ l2) = (records_for fs0 k l1 ++ records_for fs0 k l2)%list.
Proof. unfold records_for. apply flat_map_app. Qed.

Lemma keys_aggregate_from (fs0 : FileSystem) (lines : list Line) (m : WordAudioMap) :
  Py.keys (fold_left (aggregate_line fs0) lines m) =
  (Py.keys m ++ first_seen (rev (Py.keys m)) (line_keys fs0 lines))%list.
Proof.
  revert m. induction lines as [|line lines IH]; intros m;
    cbn [fold_left line_keys flat_map].
  - now rewrite app_nil_r.
  - fold (line_keys fs0 lines). rewrite IH. unfold aggregate_line.
    destruct (process_line fs0 line) as [[k audio]|]; [|reflexivity].
    cbn [app first_seen]. unfold append_audio.
    rewrite (keys_set _ _ _ key_eqb_spec).
    destruct (Py.get key_eqb k m) as [l|] eqn:G.
    + replace (existsb (key_eqb k) (rev (Py.keys m))) with true; [reflexivity|].
      symmetry. apply existsb_exists. exists k. split; [|apply key_eqb_refl].
      apply -> in_rev.
      destruct (in_dec (fun a b => reflect_dec _ _ (key_eqb_spec a b)) k (Py.keys m))
        as [Hin|Hnot]; [exact Hin|].
      apply (get_None_keys _ _ _ key_eqb_spec) in Hnot. congruence.
    + apply (get_None_keys _ _ _ key_eqb_spec) in G.
      replace (existsb (key_eqb k) (rev (Py.keys m))) with false.
      * rewrite rev_app_distr, <- app_assoc. reflexivity.
      * symmetry. apply not_true_is_false. intros H.
        apply existsb_exists in H as [k' [Hin Hk]].
        destruct (key_eqb_spec k k'); [subst k'|discriminate].
        apply G. now apply in_rev.
Qed.

(** X9.  The log can be read in parts: after a second part the group of a
    key is its group after the first part followed by its records of the
    second part, and the keys of the first part keep their places at the
    front of the map. *)
Theorem aggregation_in_parts (fs0 : FileSystem) (part1 part2 : list Line) :
  (forall k,
      Py.get key_eqb k (aggregate fs0 (part1 ++ part2)) =
      extend (Py.get key_eqb k (aggregate fs0 part1)) (records_for fs0 k part2)) /\
  (forall k,
      records_for fs0 k (part1 ++ part2) =
      (records_for fs0 k part1 ++ records_for fs0 k part2)%list) /\
  Py.keys (aggregate fs0 (part1 ++ part2)) =
    (Py.keys (aggregate fs0 part1)
       ++ first_seen (rev (Py.keys (aggregate fs0 part1))) (line_keys fs0 part2))%list.
Proof.
  split; [|split].
  - intros k. unfold aggregate. rewrite fold_left_app. apply get_aggregate_from.
  - intros k. apply records_for_app.
  - unfold aggregate. rewrite fold_left_app. apply keys_aggregate_from.
Qed.

(** X10.  The groups stand in the map, and are therefore written, in the
    order in which their keys first occur among the lines that are not
    skipped; every key occurs once. *)
Theorem groups_in_order_of_first_occurrence (fs0 : FileSystem) (lines : list Line) :
  Py.keys (aggregate fs0 lines) = first_seen [] (line_keys fs0 lines) /\
  NoDup (Py.keys (aggregate fs0 lines)) /\
  (forall k, In k (Py.keys (aggregate fs0 lines)) <-> In k (line_keys fs0 lines)).
Proof.
  split; [apply (keys_aggregate_from fs0 lines [])|].
  split; [apply NoDup_keys_aggregate|].
  intros k. split.
  - intros Hin. apply in_map_iff in Hin as [[k' al] [E Hin]]. cbn in E. subst k'.
    apply In_aggregate in Hin as [-> Hne].
    destruct (records_for fs0 k lines) as [|a l] eqn:R; [congruence|].
    assert (Ha : In a (records_for fs0 k lines)) by (rewrite R; now left).
    unfold records_for in Ha. apply in_flat_map in Ha as [line [Hl Ha]].
    unfold line_keys. apply in_flat_map. exists line. split; [exact Hl|].
    destruct (process_line fs0 line) as [[k' a']|]; [|destruct Ha].
    destruct (key_eqb_spec k k'); [subst; now left | destruct Ha].
  - intros Hin. unfold line_keys in Hin. apply in_flat_map in Hin as [line [Hl Hk]].
    destruct (process_line fs0 line) as [[k' a']|] eqn:P; [|destruct Hk].
    destruct Hk as [->|[]].
    destruct (in_dec (fun a b => reflect_dec _ _ (key_eqb_spec a b)) k
                     (Py.keys (aggregate fs0 lines))) as [H|H]; [exact H|].
    apply (get_None_keys _ _ _ key_eqb_spec) in H. rewrite get_aggregate in H.
    assert (Ha : In a' (records_for fs0 k lines)).
    { unfold records_for. apply in_flat_map. exists line. split; [exact Hl|].
      rewrite P, key_eqb_refl. now left. }
    destruct (records_for fs0 k lines); [destruct Ha | discriminate].
Qed.

(** ** The layout of a first build *)

Lemma filter_absent (R : Type) (key : R -> Key) (k : Key) (rows : list R) :
  lookup key k rows = None ->
  filter (fun r => negb (key_eqb (key r) k)) rows = rows.
Proof.
  unfold lookup. induction rows as [|r rows IH]; [reflexivity|].
  cbn [find filter]. destruct (key_eqb (key r) k); [discriminate|].
  intros H. cbn [negb]. now rewrite IH.
Qed.

Lemma fold_insert_audio_rows (word_id : Z) (audio_list : list Audio) (db : ComplexDb) :
  fold_left (fun d audio => insert_audio_file d word_id audio) audio_list db =
  mkComplexDb (words db) (words_seq db)
              (audio_files db ++ audio_rows_of (audio_files_seq db) word_id audio_list)
              (audio_files_seq db + Z.of_nat (length audio_list)).
Proof.
  revert db. induction audio_list as [|audio rest IH]; intros db.
  - cbn [fold_left audio_rows_of length]. rewrite app_nil_r, Z.add_0_r. now destruct db.
  - cbn [fold_left]. rewrite IH.
    cbn [insert_audio_file words words_seq audio_files audio_files_seq audio_rows_of length].
    rewrite <- app_assoc. cbn [app]. f_equal. lia.
Qed.

Section Layout.
Variable cm : CountryMappings.
Variable fs0 : FileSystem.

Lemma write_complex_absent (db : ComplexDb) (group : Key * list Audio) :
  find_word db (fst group) = None ->
  write_complex cm fs0 db group =
  mkComplexDb (words db ++ [word_row cm fs0 (words_seq db + 1) group])
              (words_seq db + 1)
              (audio_files db
                 ++ audio_rows_of (audio_files_seq db) (words_seq db + 1)
                                  (accepted (snd group)))
              (audio_files_seq db + Z.of_nat (length (accepted (snd group)))).
Proof.
  intros H. destruct group as [[l h] al]. unfold write_complex.
  cbn [fst snd insert_or_replace_word]. rewrite fold_insert_audio_rows.
  cbn [words words_seq audio_files audio_files_seq].
  unfold find_word in H. cbn [fst] in H. rewrite (filter_absent _ _ _ _ H). reflexivity.
Qed.

Lemma write_simple_absent (db : SimpleDb) (group : Key * list Audio) :
  completes group = true -> find_mdx db (fst group) = None ->
  write_simple cm fs0 db group =
  mkSimpleDb (mdx db ++ [mdx_row cm fs0 (mdx_seq db + 1) group]) (mdx_seq db + 1).
Proof.
  intros C H. unfold write_simple. rewrite C.
  destruct group as [[l h] al]. unfold insert_or_replace_mdx.
  cbn [fst snd]. unfold find_mdx in H. cbn [fst] in H.
  rewrite (filter_absent _ _ _ _ H). reflexivity.
Qed.

(** Groups with new keys are appended, in their order. *)
Lemma written_absent (groups : WordAudioMap) (db : ComplexDb) :
  NoDup (Py.keys groups) ->
  (forall k, In k (Py.keys groups) -> find_word db k = None) ->
  fold_left (write_complex cm fs0) groups db =
  mkComplexDb (words db ++ word_rows_from cm fs0 (words_seq db) groups)
              (words_seq db + Z.of_nat (length groups))
              (audio_files db
                 ++ audio_rows_from (audio_files_seq db) (words_seq db) groups)
              (audio_files_seq db
               + Z.of_nat (length (concat (map (fun g => accepted (snd g)) groups)))).
Proof.
  revert db. induction groups as [|g groups IH]; intros db Hnd Habs.
  - cbn. rewrite !app_nil_r, !Z.add_0_r. now destruct db.
  - inversion Hnd as [|? ? Hnotin Hnd']; subst. cbn [fold_left].
    assert (Hg : find_word db (fst g) = None) by (apply Habs; now left).
    rewrite IH; [|exact Hnd'|].
    + rewrite (write_complex_absent db g Hg).
      cbn [words words_seq audio_files audio_files_seq word_rows_from audio_rows_from
           length map concat].
      rewrite <- !app_assoc, length_app. cbn [app]. f_equal; lia.
    + intros k Hin. rewrite (write_complex_absent db g Hg).
      unfold find_word. cbn [words]. unfold lookup. rewrite find_app_sum.
      fold (lookup word_key k (words db)). fold (find_word db k).
      rewrite (Habs k (or_intror Hin)). cbn [find].
      replace (key_eqb (word_key (word_row cm fs0 (words_seq db + 1) g)) k) with false;
        [reflexivity|].
      symmetry. apply key_eqb_neq. destruct g as [[l h] al]. cbn. intros <-.
      apply Hnotin. exact Hin.
Qed.

Lemma mirrored_absent (groups : WordAudioMap) (db : SimpleDb) :
  forallb completes groups = true ->
  NoDup (Py.keys groups) ->
  (forall k, In k (Py.keys groups) -> find_mdx db k = None) ->
  fold_left (write_simple cm fs0) groups db =
  mkSimpleDb (mdx db ++ mdx_rows_from cm fs0 (mdx_seq db) groups)
             (mdx_seq db + Z.of_nat (length groups)).
Proof.
  revert db. induction groups as [|g groups IH]; intros db Hall Hnd Habs.
  - cbn. rewrite !app_nil_r, !Z.add_0_r. now destruct db.
  - inversion Hnd as [|? ? Hnotin Hnd']; subst. cbn [fold_left].
    cbn [forallb] in Hall. apply andb_prop in Hall as [C Hall].
    assert (Hg : find_mdx db (fst g) = None) by (apply Habs; now left).
    rewrite IH; [|exact Hall|exact Hnd'|].
    + rewrite (write_simple_absent db g C Hg).
      cbn [mdx mdx_seq mdx_rows_from length]. rewrite <- !app_assoc. cbn [app].
      f_equal. lia.
    + intros k Hin. rewrite (write_simple_absent db g C Hg).
      unfold find_mdx. cbn [mdx]. unfold lookup. rewrite find_app_sum.
      fold (lookup mdx_key k (mdx db)). fold (find_mdx db k).
      rewrite (Habs k (or_intror Hin)). cbn [find].
      replace (key_eqb (mdx_key (mdx_row cm fs0 (mdx_seq db + 1) g)) k) with false;
        [reflexivity|].
      symmetry. apply key_eqb_neq. destruct g as [[l h] al]. cbn. intros <-.
      apply Hnotin. exact Hin.
Qed.

Lemma audio_rows_of_In (id word_id : Z) (audio_list : list Audio) (a : AudioRow) :
  In a (audio_rows_of id word_id audio_list) ->
  a_word_id a = word_id /\ In (a_audio a) audio_list /\ (id < a_id a)%Z.
Proof.
  revert id. induction audio_list as [|audio rest IH]; intros id; [intros []|].
  cbn [audio_rows_of]. intros [<-|Hin]; cbn.
  - repeat split; [now left | lia].
  - destruct (IH _ Hin) as [H1 [H2 H3]]. repeat split; [exact H1 | now right | lia].
Qed.

Lemma audio_rows_from_In (id word_id : Z) (groups : WordAudioMap) (a : AudioRow) :
  In a (audio_rows_from id word_id groups) ->
  exists group, In group groups /\ In (a_audio a) (accepted (snd group)) /\
                In (word_row cm fs0 (a_word_id a) group)
                   (word_rows_from cm fs0 word_id groups).
Proof.
  revert id word_id. induction groups as [|g groups IH]; intros id word_id; [intros []|].
  cbn [audio_rows_from word_rows_from]. rewrite in_app_iff. intros [Hin|Hin].
  - apply audio_rows_of_In in Hin as [-> [Hin _]].
    exists g. repeat split; [now left | exact Hin | now left].
  - destruct (IH _ _ Hin) as [g' [H1 [H2 H3]]].
    exists g'. repeat split; [now right | exact H2 | now right].
Qed.

Lemma word_rows_from_length (word_id : Z) (groups : WordAudioMap) :
  length (word_rows_from cm fs0 word_id groups) = length groups /\
  map word_key (word_rows_from cm fs0 word_id groups) = Py.keys groups /\
  map w_id (word_rows_from cm fs0 word_id groups) =
    map (fun i => (word_id + Z.of_nat i)%Z) (seq 1 (length groups)).
Proof.
  revert word_id. induction groups as [|g groups IH]; intros word_id;
    [repeat split|].
  destruct (IH (word_id + 1)%Z) as [H1 [H2 H3]].
  cbn [word_rows_from length map seq Py.keys]. repeat split.
  - now rewrite H1.
  - unfold Py.keys in H2. rewrite H2. destruct g as [[l h] al]. reflexivity.
  - rewrite H3. cbn [w_id word_row]. f_equal; try lia.
    rewrite <- (seq_shift (length groups) 1), map_map. apply map_ext. intros i. lia.
Qed.

Lemma seq_offset (a s len : nat) : seq (s + a) len = map (fun i => (i + a)%nat) (seq s len).
Proof.
  revert s. induction len as [|len IH]; intros s; [reflexivity|].
  cbn [seq map]. f_equal. apply (IH (S s)).
Qed.

Lemma audio_rows_of_ids (id word_id : Z) (audio_list : list Audio) :
  map a_id (audio_rows_of id word_id audio_list) =
  map (fun i => (id + Z.of_nat i)%Z) (seq 1 (length audio_list)).
Proof.
  revert id. induction audio_list as [|a l IH]; intros id; [reflexivity|].
  cbn [audio_rows_of length map seq a_id]. rewrite IH. f_equal; try lia.
  rewrite <- (seq_shift (length l) 1), map_map. apply map_ext. intros i. lia.
Qed.

Lemma audio_rows_from_ids (id word_id : Z) (groups : WordAudioMap) :
  map a_id (audio_rows_from id word_id groups) =
  map (fun i => (id + Z.of_nat i)%Z)
      (seq 1 (length (concat (map (fun g => accepted (snd g)) groups)))).
Proof.
  revert id word_id. induction groups as [|g groups IH]; intros id word_id; [reflexivity|].
  cbn [audio_rows_from map concat]. rewrite map_app, IH, audio_rows_of_ids, length_app.
  rewrite seq_app, map_app. f_equal.
  rewrite seq_offset, map_map. apply map_ext. intros i. lia.
Qed.

Lemma mdx_rows_from_length (id : Z) (groups : WordAudioMap) :
  length (mdx_rows_from cm fs0 id groups) = length groups.
Proof.
  revert id. induction groups as [|g groups IH]; intros id; [reflexivity|].
  cbn [mdx_rows_from length]. now rewrite IH.
Qed.

Lemma audio_rows_from_length (id word_id : Z) (groups : WordAudioMap) :
  length (audio_rows_from id word_id groups) =
  length (concat (map (fun g => accepted (snd g)) groups)).
Proof.
  revert id word_id. induction groups as [|g groups IH]; intros id word_id; [reflexivity|].
  cbn [audio_rows_from map concat]. rewrite !length_app, IH. f_equal.
  generalize (word_id + 1)%Z. generalize id. clear.
  induction (accepted (snd g)) as [|a l IHl]; intros id w; [reflexivity|].
  cbn [audio_rows_of length]. now rewrite IHl.
Qed.
End Layout.

(** The complex store of a first build. *)
Lemma fresh_complex_layout (inp : Input) (lines : list Line) :
  fresh_complex inp lines =
  mkComplexDb
    (word_rows_from (load_country_mappings (mappings_file inp)) (fs inp) 0
                    (groups_of inp lines))
    (Z.of_nat (length (groups_of inp lines)))
    (audio_rows_from 0 0 (groups_of inp lines))
    (Z.of_nat (length (concat (map (fun g => accepted (snd g)) (groups_of inp lines))))).
Proof.
  unfold fresh_complex.
  rewrite written_absent;
    [reflexivity | apply NoDup_keys_aggregate | reflexivity].
Qed.

(** In a log whose integers fit, every record of a line that is not
    skipped has its row. *)
Lemma accepted_processed (inp : Input) (lines : list Line) :
  integers_fit lines = true ->
  length (concat (map (fun g => accepted (snd g)) (groups_of inp lines))) =
  length (processed (fs inp) lines).
Proof.
  intros Hfit. unfold groups_of.
  rewrite (accepted_groups _ (groups_complete (fs inp) lines Hfit)).
  apply length_groups_processed.
Qed.

(** The simple store of a first build, in a log whose integers fit. *)
Lemma fresh_simple_layout (inp : Input) (lines : list Line) :
  integers_fit lines = true ->
  fresh_simple inp lines =
  mkSimpleDb
    (mdx_rows_from (load_country_mappings (mappings_file inp)) (fs inp) 0
                   (groups_of inp lines))
    (Z.of_nat (length (groups_of inp lines))).
Proof.
  intros Hfit. unfold fresh_simple.
  rewrite mirrored_absent;
    [reflexivity | apply (groups_complete _ _ Hfit) | apply NoDup_keys_aggregate
     | reflexivity].
Qed.

(** X11.  A first build of a log whose integers are within SQLite's 64-bit
    INTEGER lays the tables out in the order of the groups: the [words]
    rows and the [mdx] rows carry the ids 1, 2, ... in group order, the
    [audio_files] rows hold the records of the groups, group after group,
    with ids counted on without gap and the id of the group's row as
    [word_id]. *)
Theorem first_build_layout (inp : Input) (lines : list Line)
    (db : ComplexDb) (sdb : SimpleDb) :
  run inp no_stores = (Completed, mkStores (Some db) (Some sdb)) ->
  metadata_file inp = Some lines ->
  integers_fit lines = true ->
  let cm := load_country_mappings (mappings_file inp) in
  let groups := groups_of inp lines in
  db = mkComplexDb (word_rows_from cm (fs inp) 0 groups) (Z.of_nat (length groups))
                   (audio_rows_from 0 0 groups)
                   (Z.of_nat (length (processed (fs inp) lines))) /\
  sdb = mkSimpleDb (mdx_rows_from cm (fs inp) 0 groups) (Z.of_nat (length groups)) /\
  map word_key (words db) = Py.keys groups /\
  map w_id (words db) = map Z.of_nat (seq 1 (length groups)) /\
  map a_id (audio_files db) = map Z.of_nat (seq 1 (length (audio_files db))) /\
  map a_audio (audio_files db) = concat (map snd groups).
Proof.
  intros Hrun Hm Hfit cm groups. destruct (run_fresh_inv _ _ _ _ Hrun Hm) as [-> ->].
  assert (A : map a_audio (audio_files (fresh_complex inp lines)) = concat (map snd groups)).
  { unfold fresh_complex, groups, groups_of. rewrite written_audio.
    now rewrite (accepted_groups _ (groups_complete (fs inp) lines Hfit)). }
  rewrite fresh_complex_layout in *. rewrite (fresh_simple_layout _ _ Hfit).
  rewrite (accepted_processed _ _ Hfit). cbn [words audio_files] in *.
  destruct (word_rows_from_length cm (fs inp) 0 groups) as [_ [H2 H3]].
  split; [reflexivity|]. split; [reflexivity|]. split; [exact H2|]. split; [exact H3|].
  split; [|exact A].
  rewrite audio_rows_from_ids, audio_rows_from_length. reflexivity.
Qed.

Lemma first_build_layout_witness :
  fresh_complex cat_input cat_lines =
    mkComplexDb (word_rows_from (load_country_mappings (mappings_file cat_input))
                                (fs cat_input) 0 (groups_of cat_input cat_lines))
                (Z.of_nat (length (groups_of cat_input cat_lines)))
                (audio_rows_from 0 0 (groups_of cat_input cat_lines))
                (Z.of_nat (length (processed (fs cat_input) cat_lines))) /\
  fresh_simple cat_input cat_lines =
    mkSimpleDb (mdx_rows_from (load_country_mappings (mappings_file cat_input))
                              (fs cat_input) 0 (groups_of cat_input cat_lines))
               (Z.of_nat (length (groups_of cat_input cat_lines))) /\
  map word_key (words (fresh_complex cat_input cat_lines)) =
    Py.keys (groups_of cat_input cat_lines) /\
  map w_id (words (fresh_complex cat_input cat_lines)) =
    map Z.of_nat (seq 1 (length (groups_of cat_input cat_lines))) /\
  map a_id (audio_files (fresh_complex cat_input cat_lines)) =
    map Z.of_nat (seq 1 (length (audio_files (fresh_complex cat_input cat_lines)))) /\
  map a_audio (audio_files (fresh_complex cat_input cat_lines)) =
    concat (map snd (groups_of cat_input cat_lines)).
Proof.
  exact (first_build_layout cat_input cat_lines _ _
           (fresh_run cat_input cat_lines eq_refl eq_refl) eq_refl eq_refl).
Defined.

(** X12.  After a first build the foreign key of [audio_files] holds:
    every row points at the id of a [words] row, and its record is one of
    the records aggregated under the key of that row.  No two [words] rows
    have the same id. *)
Theorem first_build_references (inp : Input) (lines : list Line)
    (db : ComplexDb) (sdb : SimpleDb) :
  run inp no_stores = (Completed, mkStores (Some db) (Some sdb)) ->
  metadata_file inp = Some lines ->
  (forall a, In a (audio_files db) ->
     exists r, In r (words db) /\ w_id r = a_word_id a /\
               In (a_audio a) (records_for (fs inp) (word_key r) lines)) /\
  NoDup (map w_id (words db)).
Proof.
  intros Hrun Hm. destruct (run_fresh_inv _ _ _ _ Hrun Hm) as [-> ->].
  rewrite fresh_complex_layout. cbn [words audio_files]. split.
  - intros a Hin.
    destruct (audio_rows_from_In (load_country_mappings (mappings_file inp)) (fs inp)
                _ _ _ _ Hin) as [[k al] [Hg [Ha Hr]]].
    eexists. split; [exact Hr|]. split; [reflexivity|].
    apply In_aggregate in Hg as [-> _]. destruct k. apply accepted_In in Ha. exact Ha.
  - destruct (word_rows_from_length (load_country_mappings (mappings_file inp)) (fs inp)
                0 (groups_of inp lines)) as [_ [_ H3]].
    rewrite H3. apply Finite.Injective_map_NoDup; [|apply seq_NoDup].
    intros i j H. lia.
Qed.

Lemma first_build_references_witness :
  (forall a, In a (audio_files (fresh_complex cat_input cat_lines)) ->
     exists r, In r (words (fresh_complex cat_input cat_lines)) /\
               w_id r = a_word_id a /\
               In (a_audio a) (records_for (fs cat_input) (word_key r) cat_lines)) /\
  NoDup (map w_id (words (fresh_complex cat_input cat_lines))).
Proof.
  exact (first_build_references cat_input cat_lines _ _
           (fresh_run cat_input cat_lines eq_refl eq_refl) eq_refl).
Defined.

Lemma groups_le_records (groups : WordAudioMap) :
  (forall g, In g groups -> snd g <> []) ->
  (length groups <= length (concat (map snd groups)))%nat.
Proof.
  induction groups as [|g gs IH]; intros G; [reflexivity|].
  cbn [length map concat]. rewrite length_app.
  assert (Hg : snd g <> []) by (apply G; now left).
  assert (IH' : (length gs <= length (concat (map snd gs)))%nat)
    by (apply IH; intros g' Hin; apply G; now right).
  destruct (snd g); [congruence|]. cbn [length]. lia.
Qed.

Lemma processed_le_lines (fs0 : FileSystem) (lines : list Line) :
  (length (processed fs0 lines) <= length lines)%nat.
Proof.
  unfold processed. induction lines as [|line lines IH]; [reflexivity|].
  cbn [flat_map]. rewrite length_app.
  destruct (process_line fs0 line) as [[k a]|]; cbn [length] in *; lia.
Qed.

(** X13.  The statistics a completed first build reports for a log whose
    integers are within SQLite's 64-bit INTEGER: as many words and as many
    MDX entries as there are distinct keys among the lines that were not
    skipped, as many audio files as there are such lines, and so at least
    one audio file for each word. *)
Theorem first_build_statistics (inp : Input) (lines : list Line)
    (db : ComplexDb) (sdb : SimpleDb) :
  run inp no_stores = (Completed, mkStores (Some db) (Some sdb)) ->
  metadata_file inp = Some lines ->
  integers_fit lines = true ->
  statistics db sdb =
    (Z.of_nat (length (first_seen [] (line_keys (fs inp) lines))),
     Z.of_nat (length (processed (fs inp) lines)),
     Z.of_nat (length (first_seen [] (line_keys (fs inp) lines)))) /\
  (length (words db) <= length (audio_files db) <= length lines)%nat.
Proof.
  intros Hrun Hm Hfit. destruct (run_fresh_inv _ _ _ _ Hrun Hm) as [-> ->].
  rewrite fresh_complex_layout, (fresh_simple_layout _ _ Hfit).
  unfold statistics. cbn [words audio_files mdx].
  destruct (word_rows_from_length (load_country_mappings (mappings_file inp)) (fs inp)
              0 (groups_of inp lines)) as [H1 _].
  rewrite H1, mdx_rows_from_length, audio_rows_from_length, (accepted_processed _ _ Hfit).
  unfold groups_of.
  assert (K : length (aggregate (fs inp) lines) =
              length (first_seen [] (line_keys (fs inp) lines))).
  { assert (E : Py.keys (aggregate (fs inp) lines) =
                 first_seen [] (line_keys (fs inp) lines))
      by apply (keys_aggregate_from (fs inp) lines []).
    rewrite <- E. unfold Py.keys. now rewrite length_map. }
  split; [now rewrite K|].
  split.
  - rewrite <- length_groups_processed. apply groups_le_records.
    intros [k al] Hin. apply In_aggregate in Hin. cbn. tauto.
  - apply processed_le_lines.
Qed.

Lemma first_build_statistics_witness :
  statistics (fresh_complex cat_input cat_lines) (fresh_simple cat_input cat_lines) =
    (Z.of_nat (length (first_seen [] (line_keys (fs cat_input) cat_lines))),
     Z.of_nat (length (processed (fs cat_input) cat_lines)),
     Z.of_nat (length (first_seen [] (line_keys (fs cat_input) cat_lines)))) /\
  (length (words (fresh_complex cat_input cat_lines))
   <= length (audio_files (fresh_complex cat_input cat_lines))
   <= length cat_lines)%nat.
Proof.
  exact (first_build_statistics cat_input cat_lines _ _
           (fresh_run cat_input cat_lines eq_refl eq_refl) eq_refl eq_refl).
Defined.

(** X14.  The simple store mirrors the complex one: after a first build of
    a log whose integers are within SQLite's 64-bit INTEGER a key has an
    [mdx] row exactly when it has a [words] row, the two carry the same
    content and the same count, and they have the same id. *)
Theorem first_build_mirror (inp : Input) (lines : list Line)
    (db : ComplexDb) (sdb : SimpleDb) :
  run inp no_stores = (Completed, mkStores (Some db) (Some sdb)) ->
  metadata_file inp = Some lines ->
  integers_fit lines = true ->
  (forall k, mdx_view sdb k = word_view db k) /\
  map (fun r => (m_id r, mdx_key r, m_paraphrase r, m_audio_count r)) (mdx sdb) =
  map (fun r => (w_id r, word_key r, w_html_content r, w_audio_count r)) (words db).
Proof.
  intros Hrun Hm Hfit. destruct (run_fresh_inv _ _ _ _ Hrun Hm) as [-> ->]. split.
  - intros k. pose proof (records_fit (fs inp) k lines Hfit) as Hb.
    destruct (records_for (fs inp) k lines) as [|a l] eqn:R.
    + unfold mdx_view, word_view.
      now rewrite (fresh_mdx_none inp lines k R), (fresh_word_none inp lines k R).
    + assert (Hne : records_for (fs inp) k lines <> []) by congruence.
      rewrite <- R in Hb.
      destruct (fresh_word_of_key inp lines k Hne) as [[id Hw] _].
      destruct (fresh_mdx_of_key inp lines k Hne Hb) as [mid Hx].
      rewrite (word_view_row _ _ _ _ _ _ Hw), (mdx_view_row _ _ _ _ _ _ Hx). reflexivity.
  - rewrite fresh_complex_layout, (fresh_simple_layout _ _ Hfit). cbn [mdx words].
    generalize 0%Z. induction (groups_of inp lines) as [|g gs IH]; intros id;
      [reflexivity|].
    cbn [mdx_rows_from word_rows_from map]. rewrite IH. reflexivity.
Qed.

Lemma first_build_mirror_witness :
  (forall k, mdx_view (fresh_simple cat_input cat_lines) k =
             word_view (fresh_complex cat_input cat_lines) k) /\
  map (fun r => (m_id r, mdx_key r, m_paraphrase r, m_audio_count r))
      (mdx (fresh_simple cat_input cat_lines)) =
  map (fun r => (w_id r, word_key r, w_html_content r, w_audio_count r))
      (words (fresh_complex cat_input cat_lines)).
Proof.
  exact (first_build_mirror cat_input cat_lines _ _
           (fresh_run cat_input cat_lines eq_refl eq_refl) eq_refl eq_refl).
Defined.

(** ** A run over stores that hold entries *)

Lemma written_appends (cm : CountryMappings) (fs0 : FileSystem)
    (groups : WordAudioMap) (db : ComplexDb) :
  exists rows,
    audio_files (fold_left (write_complex cm fs0) groups db) = (audio_files db ++ rows)%list /\
    map a_audio rows = concat (map (fun g => accepted (snd g)) groups).
Proof.
  revert db. induction groups as [|g groups IH]; intros db.
  - exists []. cbn. now rewrite app_nil_r.
  - cbn [fold_left]. destruct (IH (write_complex cm fs0 db g)) as [rows [E M]].
    destruct (write_complex_shape cm fs0 db g) as [rows0 [E0 [M0 _]]].
    exists (rows0 ++ rows)%list. rewrite E, E0. cbn [audio_files map concat].
    rewrite <- app_assoc, map_app, M0, M. split; reflexivity.
Qed.

(** X15.  A run of a log whose integers are within SQLite's 64-bit INTEGER
    over stores that already hold entries replaces, it does not merge: for
    a key of the log the [words] row, its attached records and the [mdx]
    row are those a first build would write, whatever the stores held for
    that key.  A key that is not in the log keeps its rows and its
    attached records.  No [audio_files] row is removed or changed: the new
    rows are added behind the old ones.  Keys stay unique. *)
Theorem run_over_existing_stores (inp : Input) (lines : list Line)
    (db0 : ComplexDb) (sdb0 : SimpleDb) :
  layout_ok inp = true -> metadata_file inp = Some lines -> integers_fit lines = true ->
  well_formed db0 ->
  let cm := load_country_mappings (mappings_file inp) in
  exists db sdb,
    run inp (mkStores (Some db0) (Some sdb0)) = (Completed, mkStores (Some db) (Some sdb)) /\
    well_formed db /\
    (forall k, records_for (fs inp) k lines <> [] ->
       word_view db k =
         Some (k, generate_html_content cm (fs inp) (records_for (fs inp) k lines),
               Z.of_nat (length (records_for (fs inp) k lines))) /\
       children db k = records_for (fs inp) k lines /\
       mdx_view sdb k =
         Some (k, generate_html_content cm (fs inp) (records_for (fs inp) k lines),
               Z.of_nat (length (records_for (fs inp) k lines)))) /\
    (forall k, records_for (fs inp) k lines = [] ->
       find_word db k = find_word db0 k /\ children db k = children db0 k /\
       find_mdx sdb k = find_mdx sdb0 k) /\
    (exists rows, audio_files db = (audio_files db0 ++ rows)%list /\
                  map a_audio rows = concat (map snd (groups_of inp lines))) /\
    (NoDup (map mdx_key (mdx sdb0)) -> NoDup (map mdx_key (mdx sdb))).
Proof.
  intros Hl Hm Hfit Hwf cm.
  exists (fold_left (write_complex cm (fs inp)) (aggregate (fs inp) lines) db0),
         (fold_left (write_simple cm (fs inp)) (aggregate (fs inp) lines) sdb0).
  split; [rewrite (run_completed inp lines _ Hl Hm); reflexivity|].
  unfold groups_of.
  pose proof (NoDup_keys_aggregate (fs inp) lines) as Hnd.
  split; [now apply written_wf|]. split; [|split; [|split]].
  - intros k Hne.
    assert (Hg : In (k, records_for (fs inp) k lines) (aggregate (fs inp) lines))
      by (apply In_aggregate; split; [reflexivity | exact Hne]).
    pose proof (records_fit (fs inp) k lines Hfit) as Hb.
    destruct (written_group cm (fs inp) _ db0 _ Hwf Hnd Hg) as [[id F] C].
    destruct (mirrored_group cm (fs inp) _ sdb0 _ Hnd Hg Hb) as [mid M].
    cbn [fst snd] in *. destruct (accepted_all _ Hb) as [Ha _]. rewrite Ha in C.
    rewrite (word_view_row _ _ _ _ _ _ F), (mdx_view_row _ _ _ _ _ _ M), C.
    repeat split.
  - intros k E.
    assert (Hk : ~ In k (Py.keys (aggregate (fs inp) lines))).
    { intros Hin. apply in_map_iff in Hin as [[k' al] [Ek Hin]]. cbn in Ek. subst k'.
      apply In_aggregate in Hin as [-> Hne]. contradiction. }
    destruct (written_other cm (fs inp) _ db0 k Hwf Hk) as [F C].
    rewrite F, C, (mirrored_other cm (fs inp) _ sdb0 k Hk). repeat split.
  - rewrite <- (accepted_groups _ (groups_complete (fs inp) lines Hfit)).
    apply written_appends.
  - apply mirrored_unique.
Qed.

Lemma run_over_existing_stores_witness :
  exists db sdb,
    run run_input (mkStores (Some (fresh_complex cat_input cat_lines))
                            (Some (fresh_simple cat_input cat_lines))) =
      (Completed, mkStores (Some db) (Some sdb)) /\
    well_formed db /\
    (forall k, records_for (fs run_input) k [Parsed run_entry] <> [] ->
       word_view db k =
         Some (k, generate_html_content (load_country_mappings (mappings_file run_input))
                    (fs run_input) (records_for (fs run_input) k [Parsed run_entry]),
               Z.of_nat (length (records_for (fs run_input) k [Parsed run_entry]))) /\
       children db k = records_for (fs run_input) k [Parsed run_entry] /\
       mdx_view sdb k =
         Some (k, generate_html_content (load_country_mappings (mappings_file run_input))
                    (fs run_input) (records_for (fs run_input) k [Parsed run_entry]),
               Z.of_nat (length (records_for (fs run_input) k [Parsed run_entry])))) /\
    (forall k, records_for (fs run_input) k [Parsed run_entry] = [] ->
       find_word db k = find_word (fresh_complex cat_input cat_lines) k /\
       children db k = children (fresh_complex cat_input cat_lines) k /\
       find_mdx sdb k = find_mdx (fresh_simple cat_input cat_lines) k) /\
    (exists rows,
        audio_files db = (audio_files (fresh_complex cat_input cat_lines) ++ rows)%list /\
        map a_audio rows = concat (map snd (groups_of run_input [Parsed run_entry]))) /\
    (NoDup (map mdx_key (mdx (fresh_simple cat_input cat_lines))) ->
     NoDup (map mdx_key (mdx sdb))).
Proof.
  exact (run_over_existing_stores run_input [Parsed run_entry]
           (fresh_complex cat_input cat_lines) (fresh_simple cat_input cat_lines)
           eq_refl eq_refl eq_refl (fresh_well_formed cat_input cat_lines)).
Defined.

(** ** What a signal can leave in the files *)

Section Boundaries.
Variable cm : CountryMappings.
Variable fs0 : FileSystem.

Lemma completed_cons (g : Key * list Audio) (groups : WordAudioMap) :
  completed (g :: groups) = ((if completes g then 1 else 0) + completed groups)%nat.
Proof. unfold completed. cbn [filter]. destruct (completes g); reflexivity. Qed.

(** An iteration that completes moves the count on. *)
Lemma committed_at_counted (A : Type) (write : A -> Key * list Audio -> A)
    (c : nat) (g : Key * list Audio) (groups : WordAudioMap) (before img now : A) :
  completes g = true ->
  committed_at A write (S c) groups before (write img g) now ->
  committed_at A write c (g :: groups) before img now.
Proof.
  intros C [H|[j [Hj [Hb E]]]]; [now left|]. right. exists (S j).
  cbn [length firstn fold_left]. split; [lia|]. split; [|exact E].
  destruct Hb as [->|[Hpos Hmod]]; [now left|]. right. split; [lia|].
  rewrite completed_cons, C.
  replace (c + (1 + completed (firstn j groups)))%nat
    with (S c + completed (firstn j groups))%nat by lia.
  exact Hmod.
Qed.

(** An iteration that raised leaves the count where it was. *)
Lemma committed_at_skipped (A : Type) (write : A -> Key * list Audio -> A)
    (c : nat) (g : Key * list Audio) (groups : WordAudioMap) (before img now : A) :
  completes g = false ->
  committed_at A write c groups before (write img g) now ->
  committed_at A write c (g :: groups) before img now.
Proof.
  intros C [H|[j [Hj [Hb E]]]]; [now left|]. right. exists (S j).
  cbn [length firstn fold_left]. split; [lia|]. split; [|exact E].
  destruct Hb as [->|[Hpos Hmod]]; [now left|]. right. split; [lia|].
  rewrite completed_cons, C. exact Hmod.
Qed.

Lemma exec_prefix_committed (groups : WordAudioMap) (c : nat) (w : Writer) (n : nat) :
  let w' := exec (firstn n (loop_stmts cm fs0 c groups ++ [ConnCommit; SimpleConnCommit])) w in
  committed_at ComplexDb (write_complex cm fs0) c groups
               (committed (conn w)) (working (conn w)) (committed (conn w')) /\
  committed_at SimpleDb (write_simple cm fs0) c groups
               (committed (simple_conn w)) (working (simple_conn w))
               (committed (simple_conn w')).
Proof.
  revert c w n. induction groups as [|g groups IH]; intros c w n w'.
  - subst w'. cbn [loop_stmts app].
    destruct n as [|[|n]]; cbn [firstn]; [| |rewrite firstn_nil]; cbn.
    + split; left; reflexivity.
    + split; [right; exists 0%nat; cbn; repeat split; auto | left; reflexivity].
    + split; right; exists 0%nat; cbn; repeat split; auto.
  - subst w'. cbn [loop_stmts].
    destruct (Nat.le_gt_cases n (length (group_stmts cm fs0 g))) as [Hle|Hgt].
    + assert (E : forall tail,
                 firstn n ((group_stmts cm fs0 g ++ tail)
                             ++ [ConnCommit; SimpleConnCommit])%list =
                 firstn n (group_stmts cm fs0 g)).
      { intros tail. rewrite <- app_assoc, firstn_app.
        replace (n - length (group_stmts cm fs0 g))%nat with 0%nat by lia.
        cbn [firstn]. now rewrite app_nil_r. }
      assert (E' : firstn n
                     ((if completes g
                       then group_stmts cm fs0 g ++ batch_commit (S c)
                              ++ loop_stmts cm fs0 (S c) groups
                       else group_stmts cm fs0 g ++ loop_stmts cm fs0 c groups)
                        ++ [ConnCommit; SimpleConnCommit])%list =
                   firstn n (group_stmts cm fs0 g))
        by (destruct (completes g); apply E).
      rewrite E'.
      destruct (exec_without_commit _ w
                  (firstn_without_commit n _ (group_stmts_without_commit cm fs0 g)))
        as [H1 H2].
      rewrite H1, H2. split; left; reflexivity.
    + destruct (completes g) eqn:C.
      * rewrite <- !app_assoc, firstn_app.
        rewrite firstn_all2 by lia. rewrite exec_app, exec_group_stmts.
        set (w1 := mkWriter _ _ _).
        set (m := (n - length (group_stmts cm fs0 g))%nat).
        unfold batch_commit. destruct (S c mod batch_size =? 0)%nat eqn:Eb.
        -- apply Nat.eqb_eq in Eb.
           assert (B1 : ((c + completed (firstn 1 (g :: groups))) mod batch_size = 0)%nat).
           { cbn [firstn]. rewrite completed_cons, C. unfold completed.
             cbn [filter length]. replace (c + (1 + 0))%nat with (S c) by lia. exact Eb. }
           destruct m as [|[|m]].
           ++ cbn [firstn exec fold_left]. split; left; reflexivity.
           ++ cbn [app firstn]. cbn [exec fold_left exec_stmt]. cbn.
              split; [|left; reflexivity].
              right. exists 1%nat. cbn [length]. split; [lia|].
              split; [right; split; [lia | exact B1] | reflexivity].
           ++ cbn [app firstn].
              change (exec (ConnCommit :: SimpleConnCommit :: ?l) w1)
                with (exec l (commit_both w1)).
              destruct (IH (S c) (commit_both w1) m) as [H1 H2].
              split.
              ** apply (committed_at_counted _ _ _ _ _ _ _ _ C) in H1.
                 destruct H1 as [H1|H1]; [|right; exact H1].
                 right. exists 1%nat. cbn [length]. split; [lia|].
                 split; [right; split; [lia | exact B1] | exact H1].
              ** apply (committed_at_counted _ _ _ _ _ _ _ _ C) in H2.
                 destruct H2 as [H2|H2]; [|right; exact H2].
                 right. exists 1%nat. cbn [length]. split; [lia|].
                 split; [right; split; [lia | exact B1] | exact H2].
        -- cbn [app]. destruct (IH (S c) w1 m) as [H1 H2].
           split; [exact (committed_at_counted _ _ _ _ _ _ _ _ C H1)
                  | exact (committed_at_counted _ _ _ _ _ _ _ _ C H2)].
      * rewrite <- !app_assoc, firstn_app.
        rewrite firstn_all2 by lia. rewrite exec_app, exec_group_stmts.
        set (w1 := mkWriter _ _ _).
        destruct (IH c w1 (n - length (group_stmts cm fs0 g))%nat) as [H1 H2].
        split; [exact (committed_at_skipped _ _ _ _ _ _ _ _ C H1)
               | exact (committed_at_skipped _ _ _ _ _ _ _ _ C H2)].
Qed.
End Boundaries.

(** Whatever was executed, a committed image holds the first groups of
    the map, whole. *)
Lemma committed_at_prefix (A : Type) (write : A -> Key * list Audio -> A)
    (c : nat) (groups : WordAudioMap) (img now : A) :
  committed_at A write c groups img img now ->
  exists j, now = fold_left write (firstn j groups) img.
Proof.
  intros [H|[j [_ [_ E]]]]; [exists 0%nat; exact H | exists j; exact E].
Qed.

(** Where every group completes, the commits fall at the batches. *)
Lemma committed_at_boundary (A : Type) (write : A -> Key * list Audio -> A)
    (groups : WordAudioMap) (img now : A) :
  forallb completes groups = true ->
  committed_at A write 0 groups img img now ->
  exists j, batch_boundary (length groups) j /\
            now = fold_left write (firstn j groups) img.
Proof.
  intros Hall [H|[j [Hj [Hb E]]]].
  - exists 0%nat. split; [now left | exact H].
  - exists j. split; [|exact E].
    destruct Hb as [->|[_ Hmod]]; [right; now left|]. right; right. split; [exact Hj|].
    rewrite (completed_all _ (forallb_firstn _ _ j _ Hall)) in Hmod.
    rewrite (firstn_length_le _ Hj) in Hmod. exact Hmod.
Qed.

(** The files after a signal: each holds the first groups of the map. *)
Lemma signal_prefixes (inp : Input) (lines : list Line) (st : Stores) (n : nat) :
  let cm := load_country_mappings (mappings_file inp) in
  exists jc js,
    closed (exec (firstn n (process_metadata_stmts inp lines)) (init_databases st)) =
      mkStores
        (Some (fold_left (write_complex cm (fs inp)) (firstn jc (groups_of inp lines))
                         (get_default (complex_db st) empty_complex)))
        (Some (fold_left (write_simple cm (fs inp)) (firstn js (groups_of inp lines))
                         (get_default (simple_db st) empty_simple))).
Proof.
  intros cm. unfold process_metadata_stmts, write_stmts. fold cm.
  fold (groups_of inp lines).
  destruct (exec_prefix_committed cm (fs inp) (groups_of inp lines) 0
              (init_databases st) n) as [H1 H2].
  cbv zeta in H1, H2.
  apply committed_at_prefix in H1 as [jc Ec].
  apply committed_at_prefix in H2 as [js Es].
  exists jc, js. unfold closed, close. rewrite Ec, Es. reflexivity.
Qed.

(** The files after a signal in a log whose integers fit: each holds whole
    batches. *)
Lemma signal_stores (inp : Input) (lines : list Line) (st : Stores) (n : nat) :
  integers_fit lines = true ->
  let cm := load_country_mappings (mappings_file inp) in
  exists jc js,
    batch_boundary (length (groups_of inp lines)) jc /\
    batch_boundary (length (groups_of inp lines)) js /\
    closed (exec (firstn n (process_metadata_stmts inp lines)) (init_databases st)) =
      mkStores
        (Some (fold_left (write_complex cm (fs inp)) (firstn jc (groups_of inp lines))
                         (get_default (complex_db st) empty_complex)))
        (Some (fold_left (write_simple cm (fs inp)) (firstn js (groups_of inp lines))
                         (get_default (simple_db st) empty_simple))).
Proof.
  intros Hfit cm. unfold process_metadata_stmts, write_stmts. fold cm.
  fold (groups_of inp lines).
  assert (Hall : forallb completes (groups_of inp lines) = true)
    by apply (groups_complete _ _ Hfit).
  destruct (exec_prefix_committed cm (fs inp) (groups_of inp lines) 0
              (init_databases st) n) as [H1 H2].
  cbv zeta in H1, H2.
  apply (committed_at_boundary _ _ _ _ _ Hall) in H1 as [jc [Bc Ec]].
  apply (committed_at_boundary _ _ _ _ _ Hall) in H2 as [js [Bs Es]].
  exists jc, js. split; [exact Bc|]. split; [exact Bs|].
  unfold closed, close. rewrite Ec, Es. reflexivity.
Qed.

(** X16.  In a log whose integers are within SQLite's 64-bit INTEGER,
    whenever the signal arrives, each store is left with whole groups
    only, and with whole batches: the file holds the first [j] groups
    written over what it held before the run, where [j] is 0, a multiple
    of the batch size, or the number of all groups.  A signal that arrives
    after the last statement leaves the stores of an undisturbed run. *)
Theorem signal_leaves_whole_batches (inp : Input) (lines : list Line) (st : Stores)
    (n : nat) :
  layout_ok inp = true -> metadata_file inp = Some lines ->
  integers_fit lines = true ->
  let cm := load_country_mappings (mappings_file inp) in
  (exists jc js,
      batch_boundary (length (groups_of inp lines)) jc /\
      batch_boundary (length (groups_of inp lines)) js /\
      run_signal (Some n) inp st =
        (Exited,
         mkStores
           (Some (fold_left (write_complex cm (fs inp)) (firstn jc (groups_of inp lines))
                            (get_default (complex_db st) empty_complex)))
           (Some (fold_left (write_simple cm (fs inp)) (firstn js (groups_of inp lines))
                            (get_default (simple_db st) empty_simple))))) /\
  ((length (process_metadata_stmts inp lines) <= n)%nat ->
   snd (run_signal (Some n) inp st) = snd (run inp st)).
Proof.
  intros Hl Hm Hfit cm. unfold run, run_signal, signal_handler, audio_dir_exists.
  unfold layout_ok in Hl. apply andb_prop in Hl as [-> ->]. rewrite Hm. cbn [negb].
  split.
  - destruct (signal_stores inp lines st n Hfit) as [jc [js [Bc [Bs E]]]].
    exists jc, js. split; [exact Bc|]. split; [exact Bs|]. now rewrite E.
  - intros Hn. cbn [snd]. now rewrite firstn_all2.
Qed.

Lemma signal_leaves_whole_batches_witness :
  (exists jc js,
      batch_boundary (length (groups_of cat_input cat_lines)) jc /\
      batch_boundary (length (groups_of cat_input cat_lines)) js /\
      run_signal (Some 5%nat) cat_input no_stores =
        (Exited,
         mkStores
           (Some (fold_left (write_complex (load_country_mappings (mappings_file cat_input))
                                           (fs cat_input))
                            (firstn jc (groups_of cat_input cat_lines))
                            (get_default (complex_db no_stores) empty_complex)))
           (Some (fold_left (write_simple (load_country_mappings (mappings_file cat_input))
                                          (fs cat_input))
                            (firstn js (groups_of cat_input cat_lines))
                            (get_default (simple_db no_stores) empty_simple))))) /\
  ((length (process_metadata_stmts cat_input cat_lines) <= 5)%nat ->
   snd (run_signal (Some 5%nat) cat_input no_stores) = snd (run cat_input no_stores)).
Proof.
  exact (signal_leaves_whole_batches cat_input cat_lines no_stores 5
           eq_refl eq_refl eq_refl).
Defined.

(** X17.  A run can be resumed from wherever a signal stopped it: a second
    run over the same input completes, and for every key it leaves the
    [words] row, the attached records and the [mdx] row of an undisturbed
    run, up to the ids of the rows. *)
Theorem resume_from_any_point (inp : Input) (lines : list Line) (n : nat) :
  layout_ok inp = true -> metadata_file inp = Some lines ->
  exists db sdb db' sdb',
    run inp no_stores = (Completed, mkStores (Some db) (Some sdb)) /\
    run inp (snd (run_signal (Some n) inp no_stores)) =
      (Completed, mkStores (Some db') (Some sdb')) /\
    (forall k, word_view db' k = word_view db k /\
               children db' k = children db k /\
               mdx_view sdb' k = mdx_view sdb k).
Proof.
  intros Hl Hm.
  destruct (signal_prefixes inp lines no_stores n) as [jc [js E]].
  assert (S : snd (run_signal (Some n) inp no_stores) =
              closed (exec (firstn n (process_metadata_stmts inp lines))
                           (init_databases no_stores))).
  { unfold run_signal, signal_handler, audio_dir_exists.
    unfold layout_ok in Hl. apply andb_prop in Hl as [-> ->]. now rewrite Hm. }
  rewrite S, E. cbn [complex_db simple_db no_stores get_default].
  exists (fresh_complex inp lines), (fresh_simple inp lines).
  eexists. eexists.
  split; [now apply fresh_run|].
  split; [rewrite (run_completed inp lines _ Hl Hm); reflexivity|].
  cbn [complex_db simple_db get_default].
  pose proof (NoDup_keys_aggregate (fs inp) lines) as Hnd.
  intros k.
  destruct (rerun_complex (load_country_mappings (mappings_file inp)) (fs inp)
              (groups_of inp lines) jc Hnd k) as [H1 H2].
  pose proof (rerun_simple (load_country_mappings (mappings_file inp)) (fs inp)
                (groups_of inp lines) js Hnd k) as H3.
  split; [exact H1 | split; [exact H2 | exact H3]].
Qed.

Lemma resume_from_any_point_witness :
  exists db sdb db' sdb',
    run cat_input no_stores = (Completed, mkStores (Some db) (Some sdb)) /\
    run cat_input (snd (run_signal (Some 5%nat) cat_input no_stores)) =
      (Completed, mkStores (Some db') (Some sdb')) /\
    (forall k, word_view db' k = word_view db k /\
               children db' k = children db k /\
               mdx_view sdb' k = mdx_view sdb k).
Proof.
  exact (resume_from_any_point cat_input cat_lines 5 eq_refl eq_refl).
Defined.

(** ** The two stores are committed one after the other *)

Section Turns.
Variable cm : CountryMappings.
Variable fs0 : FileSystem.

(** Iterations that end no batch hold no commit. *)
Lemma loop_without_commit (groups : WordAudioMap) (c : nat) :
  (forall j, (0 < j <= completed groups)%nat -> ((c + j) mod batch_size)%nat <> 0%nat) ->
  forallb (fun s => negb (is_commit s)) (loop_stmts cm fs0 c groups) = true.
Proof.
  revert c. induction groups as [|g groups IH]; intros c H; [reflexivity|].
  cbn [loop_stmts]. rewrite completed_cons in H. destruct (completes g).
  - rewrite !forallb_app, group_stmts_without_commit.
    unfold batch_commit.
    assert (H1 : ((c + 1) mod batch_size)%nat <> 0%nat) by (apply H; lia).
    replace (c + 1)%nat with (S c) in H1 by lia.
    apply Nat.eqb_neq in H1. rewrite H1. cbn [forallb andb].
    apply IH. intros j Hj. replace (S c + j)%nat with (c + S j)%nat by lia.
    apply H. lia.
  - rewrite !forallb_app, group_stmts_without_commit. cbn [andb].
    apply IH. intros j Hj. apply H. lia.
Qed.

(** The committed images after the loop over groups that all complete, on
    connections that hold nothing uncommitted when it starts: the groups
    of the whole batches. *)
Lemma committed_loop (groups : WordAudioMap) (w : Writer) :
  forallb completes groups = true ->
  committed (conn w) = working (conn w) ->
  committed (simple_conn w) = working (simple_conn w) ->
  committed (conn (exec (loop_stmts cm fs0 0 groups) w)) =
    fold_left (write_complex cm fs0) (firstn (whole_batches (length groups)) groups)
              (working (conn w)) /\
  committed (simple_conn (exec (loop_stmts cm fs0 0 groups) w)) =
    fold_left (write_simple cm fs0) (firstn (whole_batches (length groups)) groups)
              (working (simple_conn w)).
Proof.
  intros Hall Hc Hs. unfold whole_batches.
  set (K := (length groups / batch_size)%nat).
  set (part := firstn (K * batch_size) groups).
  pose proof batch_size_positive as Hpos.
  assert (Hdiv : length groups = (batch_size * K + length groups mod batch_size)%nat)
    by apply Nat.div_mod_eq.
  assert (Hup : (length groups mod batch_size < batch_size)%nat)
    by (apply Nat.mod_upper_bound; lia).
  assert (Hlen : length part = (K * batch_size)%nat)
    by (unfold part; apply firstn_length_le; lia).
  assert (Hpart : forallb completes part = true) by apply forallb_firstn, Hall.
  assert (Hrest : forallb completes (skipn (K * batch_size) groups) = true)
    by apply forallb_skipn, Hall.
  assert (Hsplit : loop_stmts cm fs0 0 groups =
                   (loop_stmts cm fs0 0 part
                      ++ loop_stmts cm fs0 (0 + completed part)
                                    (skipn (K * batch_size) groups))%list).
  { rewrite <- loop_stmts_app. unfold part. now rewrite firstn_skipn. }
  rewrite Hsplit, exec_app.
  assert (Hno : forallb (fun s => negb (is_commit s))
                        (loop_stmts cm fs0 (0 + completed part)
                                    (skipn (K * batch_size) groups)) = true).
  { apply loop_without_commit. intros j Hj.
    rewrite (completed_all _ Hrest), length_skipn in Hj.
    rewrite (completed_all _ Hpart), Hlen. cbn [Nat.add].
    rewrite (Nat.add_comm (K * batch_size) j), Nat.Div0.mod_add.
    rewrite Nat.mod_small by lia. lia. }
  destruct (exec_without_commit _ (exec (loop_stmts cm fs0 0 part) w) Hno) as [E1 E2].
  rewrite E1, E2.
  destruct part as [|g part'] eqn:Ep.
  - cbn [loop_stmts exec fold_left]. split; assumption.
  - assert (Hne : g :: part' <> []) by discriminate.
    assert (Hmod : (length (g :: part') mod batch_size = 0)%nat)
      by (rewrite Hlen; apply Nat.Div0.mod_mul).
    exact (committed_loop_batch cm fs0 (g :: part') w Hpart Hne Hmod).
Qed.
End Turns.

Lemma NoDup_keys_firstn (n : nat) (groups : WordAudioMap) :
  NoDup (Py.keys groups) -> NoDup (Py.keys (firstn n groups)).
Proof.
  intros H. rewrite <- (firstn_skipn n groups) in H.
  unfold Py.keys in *. rewrite map_app in H. exact (NoDup_app_remove_r _ _ H).
Qed.

(** X19.  The two stores are committed one after the other, the complex
    store first.  In a log whose integers are within SQLite's 64-bit
    INTEGER, a signal between the two commits that follow the loop leaves
    the complex store with every group and the simple store with the
    groups of the whole batches only: after a first build the [mdx] table
    then has fewer rows than the [words] table, unless the number of
    groups is a multiple of the batch size. *)
Theorem stores_committed_in_turn (inp : Input) (lines : list Line) (st : Stores) :
  layout_ok inp = true -> metadata_file inp = Some lines ->
  integers_fit lines = true ->
  let cm := load_country_mappings (mappings_file inp) in
  let groups := groups_of inp lines in
  let n := (length (process_metadata_stmts inp lines) - 1)%nat in
  run_signal (Some n) inp st =
    (Exited,
     mkStores
       (Some (fold_left (write_complex cm (fs inp)) groups
                        (get_default (complex_db st) empty_complex)))
       (Some (fold_left (write_simple cm (fs inp))
                        (firstn (whole_batches (length groups)) groups)
                        (get_default (simple_db st) empty_simple)))) /\
  (forall db sdb,
      run_signal (Some n) inp no_stores = (Exited, mkStores (Some db) (Some sdb)) ->
      length (words db) = length groups /\
      length (mdx sdb) = whole_batches (length groups) /\
      ((length groups mod batch_size)%nat <> 0%nat ->
       (length (mdx sdb) < length (words db))%nat)).
Proof.
  intros Hl Hm Hfit cm groups n.
  assert (Hall : forallb completes groups = true) by apply (groups_complete _ _ Hfit).
  assert (E : forall st0,
             run_signal (Some n) inp st0 =
             (Exited,
              mkStores
                (Some (fold_left (write_complex cm (fs inp)) groups
                                 (get_default (complex_db st0) empty_complex)))
                (Some (fold_left (write_simple cm (fs inp))
                                 (firstn (whole_batches (length groups)) groups)
                                 (get_default (simple_db st0) empty_simple))))).
  { intros st0. unfold run_signal, signal_handler, audio_dir_exists.
    pose proof Hl as Hl'. unfold layout_ok in Hl'. apply andb_prop in Hl' as [-> ->].
    rewrite Hm. cbn [negb]. subst n.
    unfold process_metadata_stmts, write_stmts. fold cm. fold (groups_of inp lines).
    fold groups. rewrite length_app. cbn [length].
    replace (length (loop_stmts cm (fs inp) 0 groups) + 2 - 1)%nat
      with (length (loop_stmts cm (fs inp) 0 groups) + 1)%nat by lia.
    rewrite firstn_app, firstn_all2 by lia.
    replace (length (loop_stmts cm (fs inp) 0 groups) + 1
             - length (loop_stmts cm (fs inp) 0 groups))%nat with 1%nat by lia.
    cbn [firstn]. rewrite exec_app.
    destruct (working_loop cm (fs inp) 0 groups (init_databases st0)) as [W _].
    destruct (committed_loop cm (fs inp) groups (init_databases st0) Hall eq_refl eq_refl)
      as [_ C].
    unfold closed, close. cbn [exec fold_left exec_stmt conn simple_conn commit committed].
    rewrite W, C. reflexivity. }
  split; [apply E|].
  intros db sdb H. rewrite E in H. injection H as <- <-.
  cbn [complex_db simple_db no_stores get_default].
  pose proof (NoDup_keys_aggregate (fs inp) lines) as Hnd. fold (groups_of inp lines) in Hnd.
  fold groups in Hnd.
  rewrite (written_absent cm (fs inp) groups empty_complex Hnd (fun _ _ => eq_refl)).
  rewrite (mirrored_absent cm (fs inp) _ empty_simple
             (forallb_firstn _ _ _ _ Hall)
             (NoDup_keys_firstn _ _ Hnd) (fun _ _ => eq_refl)).
  cbn [words words_seq mdx mdx_seq empty_complex empty_simple app].
  destruct (word_rows_from_length cm (fs inp) 0 groups) as [-> _].
  rewrite mdx_rows_from_length.
  pose proof batch_size_positive as Hpos.
  assert (Hdiv : length groups =
                 (batch_size * (length groups / batch_size)
                  + length groups mod batch_size)%nat) by apply Nat.div_mod_eq.
  assert (Hw : (whole_batches (length groups) <= length groups)%nat)
    by (unfold whole_batches; lia).
  rewrite (firstn_length_le _ Hw).
  split; [reflexivity|]. split; [reflexivity|].
  intros Hmod. unfold whole_batches. lia.
Qed.

Lemma stores_committed_in_turn_witness :
  run_signal (Some (length (process_metadata_stmts cat_input cat_lines) - 1)%nat)
             cat_input no_stores =
    (Exited,
     mkStores
       (Some (fold_left (write_complex (load_country_mappings (mappings_file cat_input))
                                       (fs cat_input))
                        (groups_of cat_input cat_lines)
                        (get_default (complex_db no_stores) empty_complex)))
       (Some (fold_left (write_simple (load_country_mappings (mappings_file cat_input))
                                      (fs cat_input))
                        (firstn (whole_batches (length (groups_of cat_input cat_lines)))
                                (groups_of cat_input cat_lines))
                        (get_default (simple_db no_stores) empty_simple)))).
Proof.
  exact (proj1 (stores_committed_in_turn cat_input cat_lines no_stores
                  eq_refl eq_refl eq_refl)).
Defined.

(** ** A group whose INSERT raises *)

Lemma accepted_short (audio_list : list Audio) :
  forallb binds audio_list = false ->
  (length (accepted audio_list) < length audio_list)%nat.
Proof.
  induction audio_list as [|a l IH]; cbn [forallb accepted length]; [discriminate|].
  destruct (binds a); cbn [andb length]; [intros H; apply IH in H; lia | intros _; lia].
Qed.

(** X20.  What a first build leaves for a key of the log, whatever the
    integers of the log: the [words] row with the rendering and the count
    of all the records of the key; as attached records those before the
    first whose [votes] or [id] is outside SQLite's 64-bit INTEGER, all
    when none is; and an [mdx] row only when none is.  A group with such a
    record stays half written: its count exceeds its attached records, and
    the simple store has no entry for it. *)
Theorem raised_group_half_written (inp : Input) (lines : list Line)
    (db : ComplexDb) (sdb : SimpleDb) (k : Key) :
  run inp no_stores = (Completed, mkStores (Some db) (Some sdb)) ->
  metadata_file inp = Some lines ->
  records_for (fs inp) k lines <> [] ->
  let cm := load_country_mappings (mappings_file inp) in
  let records := records_for (fs inp) k lines in
  word_view db k =
    Some (k, generate_html_content cm (fs inp) records, Z.of_nat (length records)) /\
  children db k = accepted records /\
  mdx_view sdb k =
    (if forallb binds records
     then Some (k, generate_html_content cm (fs inp) records, Z.of_nat (length records))
     else None) /\
  (forallb binds records = true -> children db k = records) /\
  (forallb binds records = false ->
   (length (children db k) < length records)%nat /\ find_mdx sdb k = None).
Proof.
  intros Hrun Hm Hne cm records. destruct (run_fresh_inv _ _ _ _ Hrun Hm) as [-> ->].
  destruct (fresh_word_of_key inp lines k Hne) as [[id Hw] Hc].
  assert (Hx : forallb binds records = false ->
               find_mdx (fresh_simple inp lines) k = None).
  { intros Hb. unfold fresh_simple.
    apply (mirrored_raised cm (fs inp) (groups_of inp lines) empty_simple (k, records)
             (NoDup_keys_aggregate (fs inp) lines) (key_of_records inp lines k Hne) Hb). }
  split; [exact (word_view_row _ _ _ _ _ _ Hw)|]. split; [exact Hc|]. split; [|split].
  - destruct (forallb binds records) eqn:Hb.
    + destruct (fresh_mdx_of_key inp lines k Hne Hb) as [mid Hf].
      exact (mdx_view_row _ _ _ _ _ _ Hf).
    + unfold mdx_view. now rewrite (Hx eq_refl).
  - intros Hb. rewrite Hc. now destruct (accepted_all _ Hb).
  - intros Hb. split; [|exact (Hx Hb)]. rewrite Hc. now apply accepted_short.
Qed.

Lemma raised_group_half_written_witness :
  word_view (fresh_complex overflow_input overflow_lines) ("en", "cat") =
    Some (("en", "cat"),
          generate_html_content (load_country_mappings two_countries) every_file
            (records_for every_file ("en", "cat") overflow_lines),
          3%Z) /\
  children (fresh_complex overflow_input overflow_lines) ("en", "cat") = [bob] /\
  mdx_view (fresh_simple overflow_input overflow_lines) ("en", "cat") = None.
Proof.
  assert (Hne : records_for (fs overflow_input) ("en", "cat") overflow_lines <> [])
    by (vm_compute; discriminate).
  destruct (raised_group_half_written overflow_input overflow_lines _ _ ("en", "cat")
              (fresh_run overflow_input overflow_lines eq_refl eq_refl) eq_refl Hne)
    as [Hw [Hc [Hx _]]].
  split; [exact Hw|]. split; [exact Hc | exact Hx].
Defined.

(** ** What a signal can leave, whatever the integers of the log *)

Lemma committed_at_point (A : Type) (write : A -> Key * list Audio -> A)
    (groups : WordAudioMap) (img now : A) :
  committed_at A write 0 groups img img now ->
  exists j, commit_point groups j /\ now = fold_left write (firstn j groups) img.
Proof.
  intros [H|[j [Hj [Hb E]]]].
  - exists 0%nat. split; [now left | exact H].
  - exists j. split; [|exact E].
    destruct Hb as [->|[_ Hmod]]; [right; now left|]. right; right. split; assumption.
Qed.

(** X21.  Whenever the signal arrives and whatever the integers of the
    log, each store holds the first [j] groups as the loop writes them,
    over what it held before the run, where [j] is 0, the number of all
    groups, or a point at which the count of the groups that completed is
    a multiple of the batch size: a group one of whose INSERTs raised is
    not counted towards a batch. *)
Theorem signal_leaves_counted_batches (inp : Input) (lines : list Line) (st : Stores)
    (n : nat) :
  layout_ok inp = true -> metadata_file inp = Some lines ->
  let cm := load_country_mappings (mappings_file inp) in
  exists jc js,
    commit_point (groups_of inp lines) jc /\
    commit_point (groups_of inp lines) js /\
    run_signal (Some n) inp st =
      (Exited,
       mkStores
         (Some (fold_left (write_complex cm (fs inp)) (firstn jc (groups_of inp lines))
                          (get_default (complex_db st) empty_complex)))
         (Some (fold_left (write_simple cm (fs inp)) (firstn js (groups_of inp lines))
                          (get_default (simple_db st) empty_simple)))).
Proof.
  intros Hl Hm cm. unfold run_signal, signal_handler, audio_dir_exists.
  unfold layout_ok in Hl. apply andb_prop in Hl as [-> ->]. rewrite Hm. cbn [negb].
  unfold process_metadata_stmts, write_stmts. fold cm. fold (groups_of inp lines).
  destruct (exec_prefix_committed cm (fs inp) (groups_of inp lines) 0
              (init_databases st) n) as [H1 H2].
  cbv zeta in H1, H2.
  apply committed_at_point in H1 as [jc [Bc Ec]].
  apply committed_at_point in H2 as [js [Bs Es]].
  exists jc, js. split; [exact Bc|]. split; [exact Bs|].
  unfold closed, close. rewrite Ec, Es. reflexivity.
Qed.

Lemma signal_leaves_counted_batches_witness :
  exists jc js,
    commit_point (groups_of overflow_input overflow_lines) jc /\
    commit_point (groups_of overflow_input overflow_lines) js /\
    run_signal (Some 2%nat) overflow_input no_stores =
      (Exited,
       mkStores
         (Some (fold_left (write_complex (load_country_mappings
                                            (mappings_file overflow_input))
                                         (fs overflow_input))
                          (firstn jc (groups_of overflow_input overflow_lines))
                          (get_default (complex_db no_stores) empty_complex)))
         (Some (fold_left (write_simple (load_country_mappings
                                           (mappings_file overflow_input))
                                        (fs overflow_input))
                          (firstn js (groups_of overflow_input overflow_lines))
                          (get_default (simple_db no_stores) empty_simple)))).
Proof.
  exact (signal_leaves_counted_batches overflow_input overflow_lines no_stores 2
           eq_refl eq_refl).
Defined.
